(** * Chunking core of Ragflow: a shallow embedding and its properties

    The development embeds the structure-inference and merging functions of
    [rag/nlp/__init__.py] and the position-tag codec of
    [deepdoc/parser/mineru_parser.py], and proves the properties stated about
    them.

    Conventions of the embedding:
    - a Python [str] is a list of Unicode code points ([list N]), so that
      [len], slicing and indexing count code points as Python does;
    - a Python [int] is a [Z]; a list index that is known to be
      non-negative (it comes from [enumerate] or [range]) is a [nat];
    - an exception is a value of [exn], raised through the [result] monad;
    - a regular expression used only for its truth value ([re.match],
      [re.search], [re.fullmatch] in a condition) is a [regex] term decided
      by Brzozowski derivatives; a regular expression whose match positions
      matter ([re.split], [re.finditer], [re.findall], [re.sub]) is embedded
      as the scanner it denotes, with the argument for the equivalence next
      to it;
    - the collaborators that are not part of these two files (the token
      counter [num_tokens_from_string], the tokenizer, [remove_tag] of the
      PDF parser) are parameters of the sections that use them. *)

From Stdlib Require Import ZArith NArith List String Ascii Lia QArith_base DecimalN.
From stdpp Require Import base list gmap sorting.

Open Scope Z_scope.

(** ** Exceptions *)

Inductive exn := IndexError | ValueError | AssertionError.

Inductive result (A : Type) :=
| Ok (a : A)
| Raise (e : exn).
Arguments Ok {A} a.
Arguments Raise {A} e.

#[global] Instance result_ret : MRet result := fun _ a => Ok a.
#[global] Instance result_bind : MBind result := fun _ _ f m =>
  match m with
  | Ok a => f a
  | Raise e => Raise e
  end.

Fixpoint mapM_result {A B} (f : A -> result B) (l : list A) : result (list B) :=
  match l with
  | [] => Ok []
  | x :: l' => y ← f x; ys ← mapM_result f l'; Ok (y :: ys)
  end.

(** ** Python strings *)

Abbreviation pystr := (list N).

Module PyStr.

(** Code points of a UTF-8 encoded literal. *)
Fixpoint utf8_decode (bs : list N) : pystr :=
  match bs with
  | [] => []
  | b :: r =>
      if (b <? 128)%N then b :: utf8_decode r
      else if (b <? 224)%N then
        match r with
        | b1 :: r' => ((b - 192) * 64 + (b1 - 128))%N :: utf8_decode r'
        | _ => []
        end
      else if (b <? 240)%N then
        match r with
        | b1 :: b2 :: r' =>
            ((b - 224) * 4096 + (b1 - 128) * 64 + (b2 - 128))%N :: utf8_decode r'
        | _ => []
        end
      else
        match r with
        | b1 :: b2 :: b3 :: r' =>
            ((b - 240) * 262144 + (b1 - 128) * 4096 + (b2 - 128) * 64 + (b3 - 128))%N
              :: utf8_decode r'
        | _ => []
        end
  end.

Definition u (s : string) : pystr :=
  utf8_decode (map N_of_ascii (list_ascii_of_string s)).

Definition TAB : N := 9.
Definition NL : N := 10.
Definition SP : N := 32.

Definition eqb (s t : pystr) : bool := bool_decide (s = t).

(** [str.isspace] on one code point. *)
Definition is_space (c : N) : bool :=
  ((9 <=? c) && (c <=? 13) || (28 <=? c) && (c <=? 32)
   || (c =? 133) || (c =? 160) || (c =? 5760)
   || (8192 <=? c) && (c <=? 8202)
   || (c =? 8232) || (c =? 8233) || (c =? 8239) || (c =? 8287) || (c =? 12288))%N.

Fixpoint lstrip_by (p : N -> bool) (s : pystr) : pystr :=
  match s with
  | [] => []
  | c :: s' => if p c then lstrip_by p s' else s
  end.

Definition rstrip_by (p : N -> bool) (s : pystr) : pystr :=
  rev (lstrip_by p (rev s)).

Definition strip_by (p : N -> bool) (s : pystr) : pystr :=
  rstrip_by p (lstrip_by p s).

(** [s.strip()] *)
Definition strip (s : pystr) : pystr := strip_by is_space s.

(** [s.strip(chars)] *)
Definition strip_chars (chars : pystr) (s : pystr) : pystr :=
  strip_by (fun c => bool_decide (c ∈ chars)) s.

Fixpoint starts_with (p s : pystr) : bool :=
  match p, s with
  | [], _ => true
  | _ :: _, [] => false
  | a :: p', b :: s' => (a =? b)%N && starts_with p' s'
  end.

(** [s.find(sub)]: the lowest index where [sub] occurs, or -1. *)
Fixpoint find_from (sub s : pystr) (i : Z) : Z :=
  if starts_with sub s then i
  else match s with
       | [] => -1
       | _ :: s' => find_from sub s' (i + 1)
       end.

Definition find (s sub : pystr) : Z := find_from sub s 0.

(** [s.split(c)] for a one-character separator. *)
Fixpoint split_char_aux (c : N) (cur : pystr) (s : pystr) : list pystr :=
  match s with
  | [] => [rev cur]
  | x :: s' =>
      if (x =? c)%N then rev cur :: split_char_aux c [] s'
      else split_char_aux c (x :: cur) s'
  end.

Definition split_char (c : N) (s : pystr) : list pystr := split_char_aux c [] s.

(** [s.split(c)[0]] *)
Definition before (c : N) (s : pystr) : pystr :=
  match split_char c s with
  | x :: _ => x
  | [] => []
  end.

(** The longest prefix whose characters satisfy [p], and the rest. *)
Fixpoint span (p : N -> bool) (s : pystr) : pystr * pystr :=
  match s with
  | [] => ([], [])
  | c :: s' =>
      if p c then let '(a, b) := span p s' in (c :: a, b) else ([], s)
  end.

(** [s.split()]: the maximal runs of non-space characters. *)
Fixpoint words_aux (cur : pystr) (s : pystr) : list pystr :=
  match s with
  | [] => match cur with [] => [] | _ => [rev cur] end
  | c :: s' =>
      if is_space c
      then match cur with
           | [] => words_aux [] s'
           | _ => rev cur :: words_aux [] s'
           end
      else words_aux (c :: cur) s'
  end.

Definition words (s : pystr) : list pystr := words_aux [] s.

(** [sep.join(l)] *)
Fixpoint join (sep : pystr) (l : list pystr) : pystr :=
  match l with
  | [] => []
  | [x] => x
  | x :: l' => x ++ sep ++ join sep l'
  end.

(** [re.sub("　", " ", s)] *)
Definition ideographic_space_to_space (s : pystr) : pystr :=
  map (fun c => if (c =? 12288)%N then SP else c) s.

Definition len (s : pystr) : Z := Z.of_nat (length s).

End PyStr.

(** ** Python list indexing *)

Module PyList.

(** [l[i]] with Python's negative indices; out of range raises. *)
Definition get {A} (l : list A) (i : Z) : result A :=
  let n := Z.of_nat (length l) in
  let j := if i <? 0 then i + n else i in
  if (j <? 0) || (n <=? j) then Raise IndexError
  else match l !! Z.to_nat j with
       | Some x => Ok x
       | None => Raise IndexError
       end.

(** [l[:k]] with Python's clamping and negative bound. *)
Definition slice_to {A} (l : list A) (k : Z) : list A :=
  let n := Z.of_nat (length l) in
  let j := if k <? 0 then Z.max 0 (k + n) else Z.min k n in
  take (Z.to_nat j) l.

(** [l[k:]] with Python's clamping and negative bound. *)
Definition slice_from {A} (l : list A) (k : Z) : list A :=
  let n := Z.of_nat (length l) in
  let j := if k <? 0 then Z.max 0 (k + n) else Z.min k n in
  drop (Z.to_nat j) l.

End PyList.

(** ** Regular expressions used for their truth value *)

Module Regex.

Inductive regex :=
| Void
| Eps
| Cls (neg : bool) (ranges : list (N * N))
| Cat (r1 r2 : regex)
| Alt (r1 r2 : regex)
| Star (r : regex).

Definition in_ranges (c : N) (rs : list (N * N)) : bool :=
  existsb (fun '(lo, hi) => (lo <=? c) && (c <=? hi))%N rs.

Definition cls_accepts (neg : bool) (rs : list (N * N)) (c : N) : bool :=
  xorb neg (in_ranges c rs).

Fixpoint nullable (r : regex) : bool :=
  match r with
  | Void => false
  | Eps => true
  | Cls _ _ => false
  | Cat r1 r2 => nullable r1 && nullable r2
  | Alt r1 r2 => nullable r1 || nullable r2
  | Star _ => true
  end.

Definition cat (r1 r2 : regex) : regex :=
  match r1, r2 with
  | Void, _ => Void
  | _, Void => Void
  | Eps, _ => r2
  | _, Eps => r1
  | _, _ => Cat r1 r2
  end.

Definition alt (r1 r2 : regex) : regex :=
  match r1, r2 with
  | Void, _ => r2
  | _, Void => r1
  | _, _ => Alt r1 r2
  end.

Fixpoint deriv (c : N) (r : regex) : regex :=
  match r with
  | Void => Void
  | Eps => Void
  | Cls neg rs => if cls_accepts neg rs c then Eps else Void
  | Cat r1 r2 =>
      if nullable r1
      then alt (cat (deriv c r1) r2) (deriv c r2)
      else cat (deriv c r1) r2
  | Alt r1 r2 => alt (deriv c r1) (deriv c r2)
  | Star r1 => cat (deriv c r1) (Star r1)
  end.

(** [re.fullmatch(r, s)] as a condition. *)
Fixpoint fullmatch (r : regex) (s : pystr) : bool :=
  match s with
  | [] => nullable r
  | c :: s' => fullmatch (deriv c r) s'
  end.

(** [re.match(r, s)] as a condition: some prefix of [s] is in the
    language of [r]. *)
Fixpoint rmatch (r : regex) (s : pystr) : bool :=
  nullable r ||
  match s with
  | [] => false
  | c :: s' => rmatch (deriv c r) s'
  end.

(** [re.search(r, s)] as a condition. *)
Fixpoint search (r : regex) (s : pystr) : bool :=
  rmatch r s ||
  match s with
  | [] => false
  | _ :: s' => search r s'
  end.

(** Pattern syntax. *)
Fixpoint lit (s : pystr) : regex :=
  match s with
  | [] => Eps
  | [c] => Cls false [(c, c)]
  | c :: s' => Cat (Cls false [(c, c)]) (lit s')
  end.

Definition singles (s : pystr) : list (N * N) := map (fun c => (c, c)) s.

Definition plus (r : regex) : regex := Cat r (Star r).
Definition opt (r : regex) : regex := Alt r Eps.

(** [r{,n}] *)
Fixpoint upto (n : nat) (r : regex) : regex :=
  match n with
  | O => Eps
  | S n' => opt (Cat r (upto n' r))
  end.

(** [r{n,}] *)
Fixpoint atleast (n : nat) (r : regex) : regex :=
  match n with
  | O => Star r
  | S n' => Cat r (atleast n' r)
  end.

Fixpoint seq (rs : list regex) : regex :=
  match rs with
  | [] => Eps
  | [r] => r
  | r :: rs' => Cat r (seq rs')
  end.

Fixpoint any_of (rs : list regex) : regex :=
  match rs with
  | [] => Void
  | [r] => r
  | r :: rs' => Alt r (any_of rs')
  end.

(** [.] without DOTALL: any character but a newline. *)
Definition dot : regex := Cls true [(10, 10)%N].

(** [r$] at the end of a pattern given to [re.match]: the end of the
    string, or just before a newline that ends the string. *)
Definition at_end (r : regex) : regex := Cat r (opt (Cls false [(10, 10)%N])).

End Regex.

(** ** Pattern catalog *)

Module Patterns.
Import PyStr Regex.

Definition digit : regex := Cls false [(48, 57)%N].
(** [[零一二三四五六七八九十百]] *)
Definition cn_num : regex := Cls false (singles (u "零一二三四五六七八九十百")).
(** [[零一二三四五六七八九十百0-9]] *)
Definition cn_num_digit : regex :=
  Cls false (singles (u "零一二三四五六七八九十百") ++ [(48, 57)%N]).
(** [[\(（]] and [[\)）]] *)
Definition lparen : regex := Cls false (singles (u "(（")).
Definition rparen : regex := Cls false (singles (u ")）")).

Definition BULLET_PATTERN : list (list regex) :=
  [ [ (* 第[零一二三四五六七八九十百0-9]+(分?编|部分) *)
      seq [lit (u "第"); plus cn_num_digit;
           Alt (Cat (opt (lit (u "分"))) (lit (u "编"))) (lit (u "部分"))];
      (* 第[零一二三四五六七八九十百0-9]+章 *)
      seq [lit (u "第"); plus cn_num_digit; lit (u "章")];
      (* 第[零一二三四五六七八九十百0-9]+节 *)
      seq [lit (u "第"); plus cn_num_digit; lit (u "节")];
      (* 第[零一二三四五六七八九十百0-9]+条 *)
      seq [lit (u "第"); plus cn_num_digit; lit (u "条")];
      (* [\(（][零一二三四五六七八九十百]+[\)）] *)
      seq [lparen; plus cn_num; rparen] ];
    [ (* 第[0-9]+章 *)
      seq [lit (u "第"); plus digit; lit (u "章")];
      (* 第[0-9]+节 *)
      seq [lit (u "第"); plus digit; lit (u "节")];
      (* [0-9]{,2}[\. 、] *)
      seq [upto 2 digit; Cls false (singles (u ". 、"))];
      (* [0-9]{,2}\.[0-9]{,2}[^a-zA-Z/%~-] *)
      seq [upto 2 digit; lit (u "."); upto 2 digit;
           Cls true ([(97, 122); (65, 90)]%N ++ singles (u "/%~-"))];
      (* [0-9]{,2}\.[0-9]{,2}\.[0-9]{,2} *)
      seq [upto 2 digit; lit (u "."); upto 2 digit; lit (u "."); upto 2 digit];
      (* [0-9]{,2}\.[0-9]{,2}\.[0-9]{,2}\.[0-9]{,2} *)
      seq [upto 2 digit; lit (u "."); upto 2 digit; lit (u "."); upto 2 digit;
           lit (u "."); upto 2 digit] ];
    [ (* 第[零一二三四五六七八九十百0-9]+章 *)
      seq [lit (u "第"); plus cn_num_digit; lit (u "章")];
      (* 第[零一二三四五六七八九十百0-9]+节 *)
      seq [lit (u "第"); plus cn_num_digit; lit (u "节")];
      (* [零一二三四五六七八九十百]+[ 、] *)
      seq [plus cn_num; Cls false (singles (u " 、"))];
      (* [\(（][零一二三四五六七八九十百]+[\)）] *)
      seq [lparen; plus cn_num; rparen];
      (* [\(（][0-9]{,2}[\)）] *)
      seq [lparen; upto 2 digit; rparen] ];
    [ (* PART (ONE|TWO|THREE|FOUR|FIVE|SIX|SEVEN|EIGHT|NINE|TEN) *)
      seq [lit (u "PART ");
           any_of (map (fun w => lit (u w))
                     ["ONE"; "TWO"; "THREE"; "FOUR"; "FIVE"; "SIX"; "SEVEN";
                      "EIGHT"; "NINE"; "TEN"]%string)];
      (* Chapter (I+V?|VI*|XI|IX|X) *)
      seq [lit (u "Chapter ");
           any_of [Cat (plus (lit (u "I"))) (opt (lit (u "V")));
                   Cat (lit (u "V")) (Star (lit (u "I")));
                   lit (u "XI"); lit (u "IX"); lit (u "X")]];
      (* Section [0-9]+ *)
      seq [lit (u "Section "); plus digit];
      (* Article [0-9]+ *)
      seq [lit (u "Article "); plus digit] ];
    [ (* ^#[^#] : under re.match the anchor holds at the start *)
      seq [lit (u "#"); Cls true (singles (u "#"))];
      (* ^##[^#] *)
      seq [lit (u "##"); Cls true (singles (u "#"))];
      (* ^###.* *)
      seq [lit (u "###"); Star dot];
      (* ^####.* *)
      seq [lit (u "####"); Star dot];
      (* ^#####.* *)
      seq [lit (u "#####"); Star dot];
      (* ^######.* *)
      seq [lit (u "######"); Star dot] ] ].

(** [not_bullet(line)] *)
Definition not_bullet (line : pystr) : bool :=
  let patt :=
    [ (* 0 *)
      lit (u "0");
      (* [0-9]+ +[0-9~个只-] *)
      seq [plus digit; plus (lit (u " "));
           Cls false ([(48, 57)%N] ++ singles (u "~个只-"))];
      (* [0-9]+\.{2,} *)
      seq [plus digit; atleast 2 (lit (u "."))] ] in
  existsb (fun r => rmatch r line) patt.

(** [not_title(txt)], as the condition it is used for. *)
Definition not_title (txt : pystr) : bool :=
  if rmatch (seq [lit (u "第"); plus cn_num_digit; lit (u "条")]) txt then false
  else if (12 <? Z.of_nat (length (words txt)))
          || ((find txt (u " ") <? 0) && (32 <=? len txt))
  then true
  else search (Cls false (singles (u ",;，。；！!"))) txt.

(** [re.search(r"(title|head)", layout)] *)
Definition title_or_head (layout : pystr) : bool :=
  search (Alt (lit (u "title")) (lit (u "head"))) layout.

End Patterns.

(** ** Style classifier *)

Module StyleClassifier.
Import PyStr Regex Patterns.

(** The innermost loop of [bullets_category]: [for p in pro: if
    re.match(p, sec) and not not_bullet(sec): ...; break]. *)
Fixpoint some_pattern_hits (pro : list regex) (sec : pystr) : bool :=
  match pro with
  | [] => false
  | p :: pro' =>
      if rmatch p sec && negb (not_bullet sec) then true
      else some_pattern_hits pro' sec
  end.

(** [for sec in sections: sec = sec.strip(); ...; hits[i] += 1] *)
Definition scan_sections (i : nat) (pro : list regex) (sections : list pystr)
    (hits : list Z) : list Z :=
  fold_left
    (fun hits sec =>
       let sec := strip sec in
       if some_pattern_hits pro sec
       then <[i := default 0 (hits !! i) + 1]> hits
       else hits)
    sections hits.

(** [hits = [0] * len(BULLET_PATTERN)] and the loop over the styles. *)
Definition count_hits (styles : list (list regex)) (sections : list pystr) : list Z :=
  fold_left
    (fun hits '(i, pro) => scan_sections i pro sections hits)
    (imap (fun i pro => (i, pro)) styles)
    (replicate (length styles) 0).

(** The selection loop: [maximum = 0; res = -1; for i, h in
    enumerate(hits): if h <= maximum: continue; res = i; maximum = h]. *)
Definition select_step (st : Z * Z) (ih : nat * Z) : Z * Z :=
  let '(maximum, res) := st in
  let '(i, h) := ih in
  if h <=? maximum then (maximum, res) else (h, Z.of_nat i).

Definition select_style (hits : list Z) : Z :=
  snd (fold_left select_step (imap (fun i h => (i, h)) hits) (0, -1)).

Definition bullets_category (sections : list pystr) : Z :=
  select_style (count_hits BULLET_PATTERN sections).

(** The number of sample lines that count for a style: trimmed, the line
    matches one of the style's patterns and is not rejected by
    [not_bullet]. *)
Definition counts_for (pro : list regex) (sec : pystr) : bool :=
  existsb (fun p => rmatch p (strip sec)) pro && negb (not_bullet (strip sec)).

Definition style_count (pro : list regex) (sections : list pystr) : Z :=
  Z.of_nat (length (List.filter (counts_for pro) sections)).

(** The state [(maximum, res)] of the selection loop after the counts
    [pre]: nothing positive seen yet, or the first position of the
    greatest count. *)
Definition selected (pre : list Z) (st : Z * Z) : Prop :=
  let '(maximum, res) := st in
  (res = -1 /\ maximum = 0 /\ forall h, h ∈ pre -> h <= 0)
  \/ (exists i, res = Z.of_nat i /\ pre !! i = Some maximum /\ 0 < maximum
        /\ (forall j c, pre !! j = Some c -> c <= maximum)
        /\ (forall j c, (j < i)%nat -> pre !! j = Some c -> c < maximum)).

End StyleClassifier.

(** ** Sections as the mergers receive them *)

(** A merger is given either plain texts or (text, layout-or-position)
    pairs; the code tells them apart by [isinstance(sections[0], str)]. *)
Inductive sections_in :=
| Texts (l : list pystr)
| Tagged (l : list (pystr * pystr)).

Definition sections_empty (s : sections_in) : bool :=
  match s with
  | Texts l => bool_decide (l = [])
  | Tagged l => bool_decide (l = [])
  end.

(** [sections = [(s, "") for s in sections]] when the elements are strings. *)
Definition as_pairs (s : sections_in) : list (pystr * pystr) :=
  match s with
  | Texts l => map (fun t => (t, [])) l
  | Tagged l => l
  end.

(** ** Tree merger *)

Module TreeMerge.
Import PyStr Regex Patterns.

(** [class Node]; the children are references into the arena that owns
    every node, so that the node reached through the stack and the node
    reached through its parent are one object. *)
Record Node := mkNode {
  level : Z;
  depth : Z;
  texts : list pystr;
  children : list nat
}.

(** [Node(level, depth, texts)] *)
Definition new_node (lvl dpt : Z) (txts : list pystr) : Node :=
  mkNode lvl dpt txts [].

Definition get_level_of (h : list Node) (i : nat) : Z :=
  match h !! i with
  | Some n => level n
  | None => 0
  end.

Definition depth_of (h : list Node) (i : nat) : Z :=
  match h !! i with
  | Some n => depth n
  | None => -1
  end.

(** [node.add_text(text)] *)
Definition add_text (i : nat) (text : pystr) (h : list Node) : list Node :=
  alter (fun n => mkNode (level n) (depth n) (texts n ++ [text]) (children n)) i h.

(** [node.add_child(child)] *)
Definition add_child (i child : nat) (h : list Node) : list Node :=
  alter (fun n => mkNode (level n) (depth n) (texts n) (children n ++ [child])) i h.

(** [while len(stack) > 1 and level <= stack[-1].get_level(): stack.pop()];
    the top of the stack is the head of the list. *)
Fixpoint pop_to_parent (h : list Node) (lvl : Z) (stack : list nat) : list nat :=
  match stack with
  | [] => []
  | top :: rest =>
      match rest with
      | [] => stack
      | _ :: _ =>
          if lvl <=? get_level_of h top then pop_to_parent h lvl rest else stack
      end
  end.

(** [self.depth != -1 and level > self.depth]: the line lies beyond the
    depth limit; a depth of -1 sets no limit. *)
Definition beyond_limit (self_depth lvl : Z) : bool :=
  negb (self_depth =? -1) && (self_depth <? lvl).

(** One iteration of the loop of [build_tree]. *)
Definition build_step (self : nat) (st : list Node * list nat) (line : Z * pystr)
    : list Node * list nat :=
  let '(h, stack) := st in
  let '(lvl, text) := line in
  if beyond_limit (depth_of h self) lvl then
    (match stack with
     | top :: _ => add_text top text h
     | [] => h
     end, stack)
  else
    let stack := pop_to_parent h lvl stack in
    let node := length h in
    let h := h ++ [new_node lvl (-1) [text]] in
    let h := match stack with
             | top :: _ => add_child top node h
             | [] => h
             end in
    (h, node :: stack).

(** [self.build_tree(lines)], on the arena that holds [self]. *)
Definition build_tree (self : nat) (lines : list (Z * pystr)) (h : list Node)
    : list Node :=
  fst (fold_left (build_step self) lines (h, [self])).

(** What the loop of [build_tree] maintains for a root at index 0 with
    level [rlevel] and depth limit [rdepth]: the root keeps its level and
    limit, the stack holds nodes of the arena with the root at its bottom,
    child references point into the arena, and a child lies deeper than
    its parent. *)
Definition tree_inv (rlevel rdepth : Z) (st : list Node * list nat) : Prop :=
  let '(h, stack) := st in
  (exists root, h !! 0%nat = Some root /\ level root = rlevel /\ depth root = rdepth)
  /\ (forall i, i ∈ stack -> (i < length h)%nat)
  /\ last stack = Some 0%nat
  /\ (forall i n c, h !! i = Some n -> c ∈ children n -> (c < length h)%nat)
  /\ (forall i n c cn, h !! i = Some n -> c ∈ children n -> h !! c = Some cn ->
        level n < level cn).

(** [self._dfs(node, tree_list, titles)]: the chunks appended to
    [tree_list], in order.  The recursion follows child references, so it
    is bounded by the number of nodes. *)
Fixpoint dfs (fuel : nat) (h : list Node) (self_depth : Z) (node : nat)
    (titles : list pystr) : list pystr :=
  match fuel with
  | O => []
  | S fuel' =>
      match h !! node with
      | None => []
      | Some n =>
          let lvl := level n in
          let txts := texts n in
          let within := (1 <=? lvl) && (lvl <=? self_depth) in
          let root_chunk :=
            if (lvl =? 0) && negb (bool_decide (txts = []))
            then [join [NL] (titles ++ txts)] else [] in
          let path_titles := if within then titles ++ txts else titles in
          let own_chunk :=
            if (self_depth <? lvl) && negb (bool_decide (txts = []))
            then [join [NL] (path_titles ++ txts)]
            else if bool_decide (children n = []) && within
                 then [join [NL] path_titles]
                 else [] in
          root_chunk ++ own_chunk
            ++ flat_map (fun c => dfs fuel' h self_depth c path_titles) (children n)
      end
  end.

(** [self.get_tree()] *)
Definition get_tree (self : nat) (h : list Node) : list pystr :=
  dfs (length h) h (depth_of h self) self [].

(** The visible text of a section: [t.split("@")[0].strip()]. *)
Definition visible (t : pystr) : pystr := strip (before 64%N t).

(** The filter shared by [tree_merge] and [hierarchical_merge]:
    [t and len(t.split("@")[0].strip()) > 1
     and not re.match(r"[0-9]+$", t.split("@")[0].strip())]. *)
Definition keep_section (s : pystr * pystr) : bool :=
  let t := fst s in
  negb (bool_decide (t = []))
  && (1 <? len (visible t))
  && negb (rmatch (at_end (plus digit)) (visible t)).

(** The [for i, title in enumerate(BULLET_PATTERN[bull])] loop of
    [get_level]: the index of the first pattern that matches. *)
Fixpoint first_match (pats : list regex) (text : pystr) (i : nat) : option nat :=
  match pats with
  | [] => None
  | p :: pats' => if rmatch p text then Some i else first_match pats' text (S i)
  end.

(** [get_level(bull, section)], for the pattern list of the style. *)
Definition get_level (pats : list regex) (section : pystr * pystr) : Z * pystr :=
  let '(text, layout) := section in
  let text := strip (ideographic_space_to_space text) in
  match first_match pats (strip text) 0 with
  | Some i => (Z.of_nat i + 1, text)
  | None =>
      if title_or_head layout && negb (not_title text)
      then (Z.of_nat (length pats) + 1, text)
      else (Z.of_nat (length pats) + 2, text)
  end.

(** The loop that fills [lines]: sections whose text is empty once the
    newlines are stripped are skipped. *)
Definition tree_lines (pats : list regex) (sections : list (pystr * pystr))
    : list (Z * pystr) :=
  List.filter
    (fun l => negb (bool_decide (strip_chars [NL] (snd l) = [])))
    (map (get_level pats) sections).

(** [level_set], and [sorted(list(level_set))]. *)
Definition level_set (lines : list (Z * pystr)) : gset Z :=
  list_to_set (map fst lines).

Definition sorted_levels (lines : list (Z * pystr)) : list Z :=
  merge_sort Z.le (elements (level_set lines)).

(** [if depth <= len(sorted_levels): target_level = sorted_levels[depth - 1]
     else: target_level = sorted_levels[-1]] *)
Definition clamp_depth (sl : list Z) (dpt : Z) : result Z :=
  if dpt <=? Z.of_nat (length sl) then PyList.get sl (dpt - 1)
  else PyList.get sl (-1).

(** [if target_level == len(BULLET_PATTERN[bull]) + 2:
      target_level = sorted_levels[-2] if len(sorted_levels) > 1
                     else sorted_levels[0]] *)
Definition step_back (n_patterns : Z) (sl : list Z) (target : Z) : result Z :=
  if target =? n_patterns + 2 then
    if 1 <? Z.of_nat (length sl) then PyList.get sl (-2) else PyList.get sl 0
  else Ok target.

Definition target_level (n_patterns : Z) (sl : list Z) (dpt : Z) : result Z :=
  t ← clamp_depth sl dpt; step_back n_patterns sl t.

Inductive tree_merge_out :=
| Unchanged (s : sections_in)
| Chunks (l : list pystr).

Definition tree_merge (bull : Z) (sections : sections_in) (dpt : Z)
    : result tree_merge_out :=
  if sections_empty sections || (bull <? 0) then Ok (Unchanged sections)
  else
    let sections := List.filter keep_section (as_pairs sections) in
    match BULLET_PATTERN !! Z.to_nat bull with
    | None => Raise IndexError
    | Some pats =>
        let lines := tree_lines pats sections in
        target ← target_level (Z.of_nat (length pats)) (sorted_levels lines) dpt;
        let h := build_tree 0 lines [new_node 0 target []] in
        Ok (Chunks (List.filter (fun e => negb (bool_decide (e = [])))
                      (get_tree 0 h)))
    end.

End TreeMerge.

(** ** Hierarchical bucket merger *)

Module HierarchicalMerge.
Import PyStr Regex Patterns.

(** The bucket of one section: the index of the first pattern that
    matches the trimmed text, else [bullets_size] for a layout-detected
    title, else [bullets_size + 1]. *)
Definition bucket_of (pats : list regex) (s : pystr * pystr) : nat :=
  let '(txt, layout) := s in
  match TreeMerge.first_match pats (strip txt) 0 with
  | Some j => j
  | None =>
      if title_or_head layout && negb (not_title txt)
      then length pats
      else S (length pats)
  end.

(** [levels = [[] for _ in range(bullets_size + 2)]] and the loop
    [levels[j].append(i)]. *)
Definition fill_levels (pats : list regex) (sections : list (pystr * pystr))
    : list (list nat) :=
  fold_left
    (fun levels '(i, s) => alter (fun b => b ++ [i]) (bucket_of pats s) levels)
    (imap (fun i s => (i, s)) sections)
    (replicate (length pats + 2) []).

(** The [while e - s > 1] loop of [binary_search]; every iteration
    shrinks [e - s], so [length arr] iterations are enough. *)
Fixpoint bs_loop (fuel : nat) (arr : list nat) (target : nat) (s e : Z) : result Z :=
  match fuel with
  | O => Ok s
  | S fuel' =>
      if 1 <? e - s then
        let i := (e + s) / 2 in
        match arr !! Z.to_nat i with
        | None => Raise IndexError
        | Some a =>
            if (a <? target)%nat then bs_loop fuel' arr target i e
            else if (target <? a)%nat then bs_loop fuel' arr target s i
            else Raise AssertionError
        end
      else Ok s
  end.

(** [binary_search(arr, target)] *)
Definition binary_search (arr : list nat) (target : nat) : result Z :=
  match arr, last arr with
  | a0 :: _, Some an =>
      if (an <? target)%nat then Ok (Z.of_nat (length arr) - 1)
      else if (target <? a0)%nat then Ok (-1)
      else bs_loop (length arr) arr target 0 (Z.of_nat (length arr))
  | _, _ => Ok (-1)
  end.

(** One iteration of [for ii in range(i + 1, len(levels))] on the group
    under construction [cks[-1]]. *)
Definition extend_step (j : nat) (grp : result (list nat)) (arr : list nat)
    : result (list nat) :=
  g ← grp;
  jj ← binary_search arr j;
  if jj <? 0 then Ok g
  else
    v ← PyList.get arr jj;
    l ← PyList.get g (-1);
    let g := if (l <? v)%nat then removelast g else g in
    Ok (g ++ [v]).

(** [for ii in cks[-1]: readed[ii] = True] *)
Definition mark_read (grp : list nat) (readed : list bool) : list bool :=
  fold_left (fun rd ii => <[ii := true]> rd) grp readed.

(** The body of [for j in arr], for the bucket at position [i] of the
    reversed [levels]. *)
Definition visit (levels : list (list nat)) (i : nat)
    (st : result (list (list nat) * list bool)) (j : nat)
    : result (list (list nat) * list bool) :=
  '(cks, readed) ← st;
  match readed !! j with
  | None => Raise IndexError
  | Some true => Ok (cks, readed)
  | Some false =>
      let readed := <[j := true]> readed in
      if bool_decide (Z.of_nat i + 1 = Z.of_nat (length levels) - 1)
      then Ok (cks ++ [[j]], readed)
      else
        g ← fold_left (extend_step j) (drop (S i) levels) (Ok [j]);
        Ok (cks ++ [g], mark_read g readed)
  end.

(** [levels = levels[::-1]] and the two outer loops: the groups of
    section indices [cks], and [readed]. *)
Definition group_indices (levels : list (list nat)) (n_sections : nat) (dpt : Z)
    : result (list (list nat) * list bool) :=
  let levels := rev levels in
  fold_left
    (fun st '(i, arr) => fold_left (visit levels i) arr st)
    (imap (fun i arr => (i, arr)) (PyList.slice_to levels dpt))
    (Ok ([], replicate n_sections false)).

(** The groups that [hierarchical_merge] builds for its input, as lists
    of section indices in the order they were appended. *)
Definition merge_groups (bull : Z) (sections : sections_in) (dpt : Z)
    : result (list (list nat)) :=
  if sections_empty sections || (bull <? 0) then Ok []
  else
    let sections := List.filter TreeMerge.keep_section (as_pairs sections) in
    match BULLET_PATTERN !! Z.to_nat bull with
    | None => Raise IndexError
    | Some pats =>
        st ← group_indices (fill_levels pats sections) (length sections) dpt;
        Ok (fst st)
    end.

(** The index that started each group. *)
Definition starters (cks : list (list nat)) : list nat := omap head cks.

(** What the two outer loops maintain: every group has the index that
    started it at its head, these indices are marked read, and no two
    groups were started by the same index. *)
Definition groups_inv (st : list (list nat) * list bool) : Prop :=
  let '(cks, readed) := st in
  NoDup (starters cks)
  /\ length (starters cks) = length cks
  /\ forall j, j ∈ starters cks -> readed !! j = Some true.

(** [re.sub(r"@@[0-9]+.*", "", s)]: a match starts at the first [@@]
    that a digit follows and runs to the end of the line, since [.]
    stops at a newline; the scan resumes at that newline. *)
Fixpoint cut_tags (skipping : bool) (s : pystr) : pystr :=
  match s with
  | [] => []
  | c :: s' =>
      if skipping then
        if (c =? NL)%N then c :: cut_tags false s' else cut_tags true s'
      else
        match s with
        | a :: b :: d :: _ =>
            if (a =? 64)%N && (b =? 64)%N && (48 <=? d)%N && (d <=? 57)%N
            then cut_tags true s'
            else c :: cut_tags false s'
        | _ => c :: cut_tags false s'
        end
  end.

Section Merge.
Variable num_tokens_from_string : pystr -> Z.

(** The secondary pass: a singleton group joins the running chunk
    while the running count stays under 218 tokens. *)
Definition coalesce_step (st : list (list pystr) * list Z) (ck : list pystr)
    : list (list pystr) * list Z :=
  let '(res, num) := st in
  match ck with
  | [c0] =>
      let n := num_tokens_from_string (cut_tags false c0) in
      let cur := default 0 (last num) in
      if n + cur <? 218
      then (removelast res ++ [default [] (last res) ++ [c0]],
            removelast num ++ [cur + n])
      else (res ++ [ck], num ++ [n])
  | _ => (res ++ [ck], num ++ [218])
  end.

Definition hierarchical_merge (bull : Z) (sections : sections_in) (dpt : Z)
    : result (list (list pystr)) :=
  cks ← merge_groups bull sections dpt;
  if bool_decide (cks = []) then Ok []
  else
    let texts := map fst (List.filter TreeMerge.keep_section (as_pairs sections)) in
    cks ← mapM_result (fun g => mapM_result (fun j => PyList.get texts (Z.of_nat j)) (rev g)) cks;
    Ok (fst (fold_left coalesce_step cks ([[]], [0]))).

End Merge.

End HierarchicalMerge.

(** ** Position tags *)

Module PositionTag.
Import PyStr.

(** *** Numbers as text *)

Fixpoint chars_of_uint (d : Decimal.uint) : pystr :=
  match d with
  | Decimal.Nil => []
  | Decimal.D0 d' => 48%N :: chars_of_uint d'
  | Decimal.D1 d' => 49%N :: chars_of_uint d'
  | Decimal.D2 d' => 50%N :: chars_of_uint d'
  | Decimal.D3 d' => 51%N :: chars_of_uint d'
  | Decimal.D4 d' => 52%N :: chars_of_uint d'
  | Decimal.D5 d' => 53%N :: chars_of_uint d'
  | Decimal.D6 d' => 54%N :: chars_of_uint d'
  | Decimal.D7 d' => 55%N :: chars_of_uint d'
  | Decimal.D8 d' => 56%N :: chars_of_uint d'
  | Decimal.D9 d' => 57%N :: chars_of_uint d'
  end.

Fixpoint uint_of_chars (s : pystr) : option Decimal.uint :=
  match s with
  | [] => Some Decimal.Nil
  | c :: s' =>
      match uint_of_chars s' with
      | None => None
      | Some d =>
          if (c =? 48)%N then Some (Decimal.D0 d)
          else if (c =? 49)%N then Some (Decimal.D1 d)
          else if (c =? 50)%N then Some (Decimal.D2 d)
          else if (c =? 51)%N then Some (Decimal.D3 d)
          else if (c =? 52)%N then Some (Decimal.D4 d)
          else if (c =? 53)%N then Some (Decimal.D5 d)
          else if (c =? 54)%N then Some (Decimal.D6 d)
          else if (c =? 55)%N then Some (Decimal.D7 d)
          else if (c =? 56)%N then Some (Decimal.D8 d)
          else if (c =? 57)%N then Some (Decimal.D9 d)
          else None
      end
  end.

(** [str(n)] for an [int]. *)
Definition str_N (n : N) : pystr := chars_of_uint (N.to_uint n).

Definition str_int (z : Z) : pystr :=
  if z <? 0 then 45%N :: str_N (Z.to_N (- z)) else str_N (Z.to_N z).

(** [int(s)] on the strings that reach it here, which the tag pattern
    restricts to the digits: a non-empty digit string is its value,
    anything else raises [ValueError]. *)
Definition py_int (s : pystr) : result Z :=
  if bool_decide (s = []) then Raise ValueError
  else match uint_of_chars s with
       | Some d => Ok (Z.of_N (N.of_uint d))
       | None => Raise ValueError
       end.

(** A Python [float] is taken at its exact value, a rational number.
    [float(s)] on the strings that reach it here, which the tag pattern
    restricts to digits and dots: digits with at most one dot and at
    least one digit denote their decimal value, anything else raises
    [ValueError]. *)
Definition py_float (s : pystr) : result Q :=
  match split_char 46%N s with
  | [a] =>
      if bool_decide (a = []) then Raise ValueError
      else match uint_of_chars a with
           | Some d => Ok (Qmake (Z.of_N (N.of_uint d)) 1)
           | None => Raise ValueError
           end
  | [a; b] =>
      if bool_decide (a ++ b = []) then Raise ValueError
      else match uint_of_chars a, uint_of_chars b with
           | Some da, Some db =>
               let scale := Pos.pow 10 (Pos.of_nat (length b)) in
               if bool_decide (b = []) then Ok (Qmake (Z.of_N (N.of_uint da)) 1)
               else Ok (Qmake (Z.of_N (N.of_uint da) * Zpos scale
                               + Z.of_N (N.of_uint db)) scale)
           | _, _ => Raise ValueError
           end
  | _ => Raise ValueError
  end.

(** The number of tenths nearest to [x], ties to even: the digits that
    [format(x, ".1f")] prints. *)
Definition round_tenths (x : Q) : Z :=
  let n := Qnum x * 10 in
  let d := Zpos (Qden x) in
  let q := n / d in
  let r := n mod d in
  if 2 * r <? d then q
  else if d <? 2 * r then q + 1
  else if Z.even q then q else q + 1.

(** [x] rounded to one decimal place: the value that the text written by
    [format(x, ".1f")] denotes. *)
Definition tenths (x : Q) : Q := Qmake (round_tenths x) 10.

(** ["{:.1f}".format(x)] *)
Definition format_1f (x : Q) : pystr :=
  let t := Z.abs (round_tenths x) in
  (if Qnum x <? 0 then [45%N] else [])
    ++ str_N (Z.to_N (t / 10)) ++ [46%N] ++ str_N (Z.to_N (t mod 10)).

(** *** The tag writer *)

(** A content block [bx] of the parser output: [bx["page_idx"]] and
    [bx.get("bbox", (0, 0, 0, 0))], the box being (x0, top, x1, bottom). *)
Record box := mkBox {
  page_idx : Z;
  bbox : option (Q * Q * Q * Q)
}.

(** The coordinates that [_line_tag] writes, in the order it writes them
    (x0, x1, top, bottom); [page_images] holds the (width, height) of the
    loaded page images, if any. *)
Definition emitted (page_images : option (list (Z * Z))) (bx : box)
    : result (Q * Q * Q * Q) :=
  let '(x0, top, x1, bott) := default (0 # 1, 0 # 1, 0 # 1, 0 # 1)%Q (bbox bx) in
  match page_images with
  | Some imgs =>
      if negb (bool_decide (imgs = [])) && (page_idx bx <? Z.of_nat (length imgs))
      then
        '(page_width, page_height) ← PyList.get imgs (page_idx bx);
        let scale (c : Q) (side : Z) : Q :=
          Qmult (Qmult c (Qmake 1 1000)) (Qmake side 1) in
        Ok (scale x0 page_width, scale x1 page_width,
            scale top page_height, scale bott page_height)
      else Ok (x0, x1, top, bott)
  | None => Ok (x0, x1, top, bott)
  end.

(** [self._line_tag(bx)] *)
Definition _line_tag (page_images : option (list (Z * Z))) (bx : box)
    : result pystr :=
  '(x0, x1, top, bott) ← emitted page_images bx;
  let pn := [page_idx bx + 1] in
  Ok (u "@@" ++ join (u "-") (map str_int pn)
        ++ [TAB] ++ format_1f x0 ++ [TAB] ++ format_1f x1
        ++ [TAB] ++ format_1f top ++ [TAB] ++ format_1f bott ++ u "##").

(** The text of a tag with the given page and coordinate fields. *)
Definition tag_text (pn f1 f2 f3 f4 : pystr) : pystr :=
  u "@@" ++ pn ++ [TAB] ++ f1 ++ [TAB] ++ f2 ++ [TAB] ++ f3 ++ [TAB] ++ f4 ++ u "##".

(** *** The tag reader *)

Definition digit_char (c : N) : bool := ((48 <=? c) && (c <=? 57))%N.
Definition field_char (c : N) : bool := (digit_char c || (c =? 46))%N.

Definition page_char (c : N) : bool := ((48 <=? c) && (c <=? 57) || (c =? 45))%N.
Definition coord_char (c : N) : bool :=
  ((48 <=? c) && (c <=? 57) || (c =? 46) || (c =? 9))%N.

(** A match of [@@[0-9-]+\t[0-9.\t]+##] at the start of [s].  A tab is
    not in the first class and [#] is not in the second, so each greedy
    run can only be followed by the next literal when it is maximal: the
    match is the one this function computes. *)
Definition match_tag (s : pystr) : option pystr :=
  if starts_with (u "@@") s then
    let '(pn, s2) := span page_char (drop 2 s) in
    if negb (bool_decide (pn = [])) && starts_with [TAB] s2 then
      let '(co, s4) := span coord_char (drop 1 s2) in
      if negb (bool_decide (co = [])) && starts_with (u "##") s4
      then Some (u "@@" ++ pn ++ [TAB] ++ co ++ u "##")
      else None
    else None
  else None.

(** The scan of [re.findall] and [re.sub]: the text cut at the tags,
    each piece with the tag that follows it.  After a match the scan
    resumes behind it ([skip] counts the characters still inside it). *)
Fixpoint scan_tags (skip : nat) (cur : pystr) (s : pystr)
    : list (pystr * option pystr) :=
  match s with
  | [] => [(rev cur, None)]
  | c :: s' =>
      match skip with
      | S k => scan_tags k cur s'
      | O =>
          match match_tag s with
          | Some tag => (rev cur, Some tag) :: scan_tags (length tag - 1) [] s'
          | None => scan_tags 0 (c :: cur) s'
          end
      end
  end.

(** [re.findall(r"@@[0-9-]+\t[0-9.\t]+##", txt)] *)
Definition findall_tags (txt : pystr) : list pystr :=
  omap snd (scan_tags 0 [] txt).

(** One tag, decoded. *)
Definition parse_tag (tag : pystr) : result (list Z * Q * Q * Q * Q) :=
  match split_char TAB (strip_chars (u "@") (strip_chars (u "#") tag)) with
  | [pn; l; r; t; b] =>
      l ← py_float l;
      r ← py_float r;
      t ← py_float t;
      b ← py_float b;
      pages ← mapM_result (fun p => n ← py_int p; Ok (n - 1)) (split_char 45%N pn);
      Ok (pages, l, r, t, b)
  | _ => Raise ValueError
  end.

(** [MinerUParser.extract_positions(txt)] *)
Definition extract_positions (txt : pystr) : result (list (list Z * Q * Q * Q * Q)) :=
  mapM_result parse_tag (findall_tags txt).

(** Modelled from the spec: [RAGFlowPdfParser.remove_tag] is defined in
    [deepdoc/parser/pdf_parser.py], which is not among the sources; the
    de-tagged text of a chunk is the chunk without the position tags of
    the encoding [@@<pages>\t<left>\t<right>\t<top>\t<bottom>##]. *)
Definition remove_tag (txt : pystr) : pystr :=
  concat (map fst (scan_tags 0 [] txt)).

End PositionTag.

(** ** Budgeted flat merger *)

Module NaiveMerge.
Import PyStr.

(** [sections: str | list] *)
Inductive naive_in :=
| One (s : pystr)
| Many (s : sections_in).

(** [not sections] *)
Definition naive_empty (s : naive_in) : bool :=
  match s with
  | One t => bool_decide (t = [])
  | Many l => sections_empty l
  end.

(** [if isinstance(sections, str): sections = [sections]] and the
    pairing with an empty position. *)
Definition naive_pairs (s : naive_in) : list (pystr * pystr) :=
  match s with
  | One t => [(t, [])]
  | Many l => as_pairs l
  end.

(** [[m.group(1) for m in re.finditer(r"`([^`]+)`", delimiter)]].
    [body] is [None] outside a literal and holds the characters read
    since the opening backtick inside one.  A backtick that directly
    follows an opening backtick cannot close it (the body must not be
    empty) and is tried as an opening backtick itself; a literal that is
    still open at the end of the text yields no match. *)
Fixpoint scan_literals (body : option pystr) (s : pystr) : list pystr :=
  match s with
  | [] => []
  | c :: s' =>
      match body with
      | None =>
          if (c =? 96)%N then scan_literals (Some []) s' else scan_literals None s'
      | Some b =>
          if (c =? 96)%N then
            match b with
            | [] => scan_literals (Some []) s'
            | _ :: _ => rev b :: scan_literals None s'
            end
          else scan_literals (Some (c :: b)) s'
      end
  end.

Definition custom_delimiters (delimiter : pystr) : list pystr :=
  scan_literals None delimiter.

(** [sorted(set(custom_delimiters), key=len, reverse=True)]: the order
    of literals of one length is the iteration order of the set; two
    different literals of one length never match at the same place, so
    it has no effect on the split. *)
Definition longer_first (a b : pystr) : Prop := (length b <= length a)%nat.

#[global] Instance longer_first_dec : RelDecision longer_first :=
  fun a b => decide (length b <= length a)%nat.

Definition ordered_delimiters (customs : list pystr) : list pystr :=
  merge_sort longer_first (remove_dups customs).

(** The alternative of [custom_pattern] that matches at the start of
    [s]: the first literal, longest first, that [s] begins with. *)
Definition delimiter_at (delims : list pystr) (s : pystr) : option pystr :=
  List.find (fun d => starts_with d s) delims.

(** The scan of [re.split]: the text cut at the delimiters, each segment
    with the delimiter that ends it. *)
Fixpoint scan_split (delims : list pystr) (skip : nat) (cur : pystr) (s : pystr)
    : list (pystr * option pystr) :=
  match s with
  | [] => [(rev cur, None)]
  | c :: s' =>
      match skip with
      | S k => scan_split delims k cur s'
      | O =>
          match delimiter_at delims s with
          | Some d => (rev cur, Some d) :: scan_split delims (length d - 1) [] s'
          | None => scan_split delims 0 (c :: cur) s'
          end
      end
  end.

(** [re.split(r"(%s)" % custom_pattern, sec, flags=re.DOTALL)]: the
    segments and, because of the group, the delimiters between them. *)
Definition split_piece (x : pystr * option pystr) : list pystr :=
  let '(seg, d) := x in seg :: match d with Some d => [d] | None => [] end.

Definition re_split (delims : list pystr) (sec : pystr) : list pystr :=
  flat_map split_piece (scan_split delims 0 [] sec).

(** The segments of a section: the texts between the delimiter matches. *)
Definition segments (delims : list pystr) (sec : pystr) : list pystr :=
  map fst (scan_split delims 0 [] sec).

Section Merge.
Variable num_tokens_from_string : pystr -> Z.
Variable remove_tag : pystr -> pystr.

(** The custom-delimiter branch for one section: every piece of the
    split that is not itself a delimiter
    ([re.fullmatch(custom_pattern, sub_sec or "")]) is a chunk. *)
Definition custom_chunk (pos : pystr) (sub_sec : pystr) : pystr :=
  let text := [NL] ++ sub_sec in
  let local_pos := if num_tokens_from_string text <? 8 then [] else pos in
  if negb (bool_decide (local_pos = [])) && (find text local_pos <? 0)
  then text ++ local_pos else text.

Definition custom_section (delims : list pystr) (s : pystr * pystr) : list pystr :=
  let '(sec, pos) := s in
  map (custom_chunk pos)
    (List.filter (fun sub_sec => negb (bool_decide (sub_sec ∈ delims)))
       (re_split delims sec)).

(** [int(len(overlapped) * (100 - overlapped_percent) / 100.)]: the
    quotient truncated towards zero. *)
Definition overlap_start (overlapped : pystr) (overlapped_percent : Z) : Z :=
  Z.quot (len overlapped * (100 - overlapped_percent)) 100.

(** The overlap carry-over:
    [overlapped[int(len(overlapped) * (100 - overlapped_percent) / 100.):]]
    for [overlapped = RAGFlowPdfParser.remove_tag(cks[-1])]. *)
Definition carry_over (overlapped_percent : Z) (last_ck : pystr) : pystr :=
  let overlapped := remove_tag last_ck in
  PyList.slice_from overlapped (overlap_start overlapped overlapped_percent).

(** [add_chunk(t, pos)] on the state [(cks, tk_nums)].  The test
    [tk_nums[-1] > chunk_token_num * (100 - overlapped_percent) / 100.]
    compares exact values.  [cks] is never empty here: it starts as
    [[""]] and only grows. *)
Definition add_chunk (chunk_token_num overlapped_percent : Z)
    (st : list pystr * list Z) (t pos : pystr) : list pystr * list Z :=
  let '(cks, tk_nums) := st in
  let tnum := num_tokens_from_string t in
  let pos := if tnum <? 8 then [] else pos in
  let last_ck := default [] (last cks) in
  let last_tk := default 0 (last tk_nums) in
  if bool_decide (last_ck = [])
     || (chunk_token_num * (100 - overlapped_percent) <? last_tk * 100)
  then
    let t :=
      if bool_decide (cks = []) then t
      else carry_over overlapped_percent last_ck ++ t in
    let t := if find t pos <? 0 then t ++ pos else t in
    (cks ++ [t], tk_nums ++ [tnum])
  else
    let t := if find last_ck pos <? 0 then t ++ pos else t in
    (removelast cks ++ [last_ck ++ t], removelast tk_nums ++ [last_tk + tnum]).

(** The loop [for sec, pos in sections: add_chunk("\n"+sec, pos)]. *)
Definition default_run (chunk_token_num overlapped_percent : Z)
    (sections : list (pystr * pystr)) (st : list pystr * list Z)
    : list pystr * list Z :=
  fold_left
    (fun st '(sec, pos) =>
       add_chunk chunk_token_num overlapped_percent st ([NL] ++ sec) pos)
    sections st.

Definition naive_merge (sections : naive_in) (chunk_token_num : Z)
    (delimiter : pystr) (overlapped_percent : Z) : list pystr :=
  if naive_empty sections then []
  else
    let sections := naive_pairs sections in
    let customs := custom_delimiters delimiter in
    if negb (bool_decide (customs = [])) then
      flat_map (custom_section (ordered_delimiters customs)) sections
    else
      fst (default_run chunk_token_num overlapped_percent sections ([[]], [0])).

(** The relation between neighbouring chunks that the default mode
    maintains: every chunk begins with the carry-over of the chunk before
    it, and every chunk but the initial one contains a newline. *)
Definition overlap_inv (overlapped_percent : Z) (cks : list pystr) : Prop :=
  (forall i prev next, cks !! i = Some prev -> cks !! S i = Some next ->
     carry_over overlapped_percent prev `prefix_of` next)
  /\ (forall i c, (1 <= i)%nat -> cks !! i = Some c -> NL ∈ c).

End Merge.

(** The default delimiter ["\n。；！？"]. *)
Definition default_delimiter : pystr := [NL] ++ u "。；！？".

(** The section ["a\n\nb\n\nc"] and the delimiter specification that
    quotes ["\n\n"] in backticks. *)
Definition abc_section : pystr := u "a" ++ [NL; NL] ++ u "b" ++ [NL; NL] ++ u "c".
Definition blank_line_delimiter : pystr := u "`" ++ [NL; NL] ++ u "`".

(** What the overlap property would be if the carried tail were the
    [(100 - p)/100] share of the de-tagged previous chunk: a non-empty
    tail of that text, of that length up to rounding, that the next chunk
    begins with. *)
Definition complement_share_carried (remove_tag : pystr -> pystr) (p : Z)
    (prev next : pystr) : Prop :=
  exists tail : pystr,
    tail <> []
    /\ tail `prefix_of` next
    /\ tail `suffix_of` remove_tag prev
    /\ (100 - p) * len (remove_tag prev) - 100 < 100 * len tail
        < (100 - p) * len (remove_tag prev) + 100.

(** A token counter for the examples: one token per character. *)
Definition one_token_per_char (s : pystr) : Z := len s.

End NaiveMerge.

(** ** Image concatenation *)

Module ConcatImg.

(** A PIL image in RGB mode: the identity of the object, its size and its
    pixels by column and row. *)
Record Image := mkImage {
  ident : nat;
  width : nat;
  height : nat;
  pixel : nat -> nat -> N * N * N
}.

(** [img.tobytes()]: the pixels row by row. *)
Definition tobytes (img : Image) : list N :=
  flat_map
    (fun y => flat_map (fun x => let '(r, g, b) := pixel img x y in [r; g; b])
                (seq 0 (width img)))
    (seq 0 (height img)).

(** [Image.new('RGB', (w, h))]: a black canvas; [fresh] is the identity
    of the new object. *)
Definition image_new (fresh w h : nat) : Image :=
  mkImage fresh w h (fun _ _ => (0, 0, 0)%N).

(** [canvas.paste(img, (ox, oy))] *)
Definition paste (canvas img : Image) (ox oy : nat) : Image :=
  mkImage (ident canvas) (width canvas) (height canvas)
    (fun x y =>
       if bool_decide ((ox <= x < ox + width img)%nat
                       /\ (oy <= y < oy + height img)%nat
                       /\ (x < width canvas)%nat /\ (y < height canvas)%nat)
       then pixel img (x - ox) (y - oy)
       else pixel canvas x y).

(** [img1 is img2] *)
Definition same_object (a b : Image) : bool := (ident a =? ident b)%nat.

(** [img1.tobytes() == img2.tobytes()] *)
Definition pixel_identical (a b : Image) : bool :=
  bool_decide (tobytes a = tobytes b).

(** [concat_img(img1, img2)]; an absent image is [None]. *)
Definition concat_img (fresh : nat) (img1 img2 : option Image) : option Image :=
  match img1, img2 with
  | Some a, None => Some a
  | None, Some b => Some b
  | None, None => None
  | Some a, Some b =>
      if same_object a b then Some a
      else if pixel_identical a b then Some a
      else
        let new_width := Nat.max (width a) (width b) in
        let new_height := (height a + height b)%nat in
        let new_image := image_new fresh new_width new_height in
        let new_image := paste new_image a 0 0 in
        let new_image := paste new_image b 0 (height a) in
        Some new_image
  end.

(** Two small images for the examples: a red pixel and a blue bar. *)
Definition red_dot : Image := mkImage 1 1 1 (fun _ _ => (255, 0, 0)%N).
Definition blue_bar : Image := mkImage 2 2 1 (fun _ _ => (0, 0, 255)%N).

End ConcatImg.

(** ** Media context attacher *)

Module MediaContext.
Import PyStr.

(** A value stored under a text key of a chunk dictionary. *)
Inductive field :=
| Absent
| NotStr
| Str (s : pystr).

#[global] Instance field_eq_dec : EqDecision field.
Proof. solve_decision. Defined.

(** The keys of a chunk that [attach_media_context] reads or writes. *)
Record chunk := mkChunk {
  doc_type_kwd : option pystr;
  content_with_weight : field;
  text : field;
  image : option ConcatImg.Image;
  page_num_int : list Z;
  page_number : option Z;
  top_int : list Z;
  top : option Z;
  position_int : list (Z * Z * Z * Z * Z);
  x0 : option Z;
  content_ltks : option pystr;
  content_sm_ltks : option pystr
}.

Definition is_str (f : field) : bool :=
  match f with Str _ => true | _ => false end.

Definition present (f : field) : bool :=
  match f with Absent => false | _ => true end.

Definition is_image_chunk (ck : chunk) : bool :=
  if bool_decide (doc_type_kwd ck = Some (u "image")) then true
  else
    let text_val := if is_str (content_with_weight ck) then content_with_weight ck
                    else text ck in
    let has_text := match text_val with
                    | Str s => negb (bool_decide (strip s = []))
                    | _ => false
                    end in
    bool_decide (image ck <> None) && negb has_text.

Definition is_table_chunk (ck : chunk) : bool :=
  bool_decide (doc_type_kwd ck = Some (u "table")).

Definition is_text_chunk (ck : chunk) : bool :=
  negb (is_image_chunk ck) && negb (is_table_chunk ck).

Definition get_text (ck : chunk) : pystr :=
  match content_with_weight ck, text ck with
  | Str s, _ => s
  | _, Str s => s
  | _, _ => []
  end.

(** The characters of the split pattern [([.。！？!?；;：:\n])]. *)
Definition sentence_end (c : N) : bool :=
  bool_decide (c ∈ NL :: u ".。！？!?；;：:").

(** [split_sentences(text)]: [re.split] yields the texts between the
    sentence ends and, because of the group, each sentence end on its
    own; the loop glues a sentence end to the text before it. *)
Fixpoint split_sentences_aux (buf : pystr) (s : pystr) : list pystr :=
  match s with
  | [] => match buf with [] => [] | _ => [rev buf] end
  | c :: s' =>
      if sentence_end c then rev (c :: buf) :: split_sentences_aux [] s'
      else split_sentences_aux (c :: buf) s'
  end.

Definition split_sentences (s : pystr) : list pystr := split_sentences_aux [] s.

(** [extract_position(ck)]: (page, top, left), each possibly [None]. *)
Definition extract_position (ck : chunk) : option Z * option Z * option Z :=
  let pn := match page_num_int ck with
            | p :: _ => Some p
            | [] => page_number ck
            end in
  let tp := match top_int ck with
            | t :: _ => Some t
            | [] => top ck
            end in
  let lft := match position_int ck with
             | (_, l, _, _, _) :: _ => Some l
             | [] => x0 ck
             end in
  (pn, tp, lft).

(** The sort key [(int(x[1]), int(x[2]), int(x[3]), x[0])] of an entry
    [(idx, pn, top, left)]. *)
Definition key_le (a b : nat * Z * Z * Z) : Prop :=
  let '(ia, pa, ta, la) := a in
  let '(ib, pb, tb, lb) := b in
  pa < pb \/ (pa = pb /\ (ta < tb \/ (ta = tb /\ (la < lb \/ (la = lb /\ (ia <= ib)%nat))))).

#[global] Instance key_le_dec : RelDecision key_le.
Proof. intros [[[ia pa] ta] la] [[[ib pb] tb] lb]. unfold key_le. apply _. Defined.

(** The first step: the indices of the chunks in position order. *)
Definition ordered_indices (chunks : list chunk) : list nat * bool :=
  let indexed := imap (fun idx ck => (idx, ck)) chunks in
  let positioned :=
    omap (fun '(idx, ck) =>
            match extract_position ck with
            | (Some pn, Some tp, lft) => Some (idx, pn, tp, default 0 lft)
            | _ => None
            end) indexed in
  let unpositioned :=
    omap (fun '(idx, ck) =>
            match extract_position ck with
            | (Some pn, Some tp, _) => None
            | _ => Some idx
            end) indexed in
  match positioned with
  | [] => (map fst indexed, false)
  | _ :: _ =>
      (map (fun '(idx, _, _, _) => idx) (merge_sort key_le positioned) ++ unpositioned,
       true)
  end.

Section Attach.
Variable num_tokens_from_string : pystr -> Z.
Variable tokenize : pystr -> pystr.
Variable fine_grained_tokenize : pystr -> pystr.

(** The loop of [trim_to_tokens]: whole sentences while the budget
    lasts; the sentence that exceeds it is still taken, and ends the loop. *)
Fixpoint collect_sentences (seq : list pystr) (remaining : Z) : list pystr :=
  match seq with
  | [] => []
  | s :: seq' =>
      let tks := num_tokens_from_string s in
      if tks <=? 0 then collect_sentences seq' remaining
      else if remaining <? tks then [s]
      else s :: collect_sentences seq' (remaining - tks)
  end.

Definition trim_to_tokens (txt : pystr) (token_budget : Z) (from_tail : bool) : pystr :=
  if (token_budget <=? 0) || bool_decide (txt = []) then []
  else
    let sentences := split_sentences txt in
    if from_tail
    then concat (rev (collect_sentences (rev sentences) token_budget))
    else concat (collect_sentences sentences token_budget).

(** One direction of the scan: the texts collected from the neighbours,
    nearest first, until the budget is spent or a neighbour is not a text
    chunk.  The neighbours are read from [chunks] as it is at the time of
    the scan. *)
Fixpoint scan_context (from_tail : bool) (chunks : list chunk)
    (neighbours : list nat) (remaining : Z) : list pystr :=
  match neighbours with
  | [] => []
  | nb :: rest =>
      if remaining <=? 0 then []
      else
        match chunks !! nb with
        | None => []
        | Some c =>
            if negb (is_text_chunk c) then []
            else
              let txt := get_text c in
              if bool_decide (txt = []) then scan_context from_tail chunks rest remaining
              else
                let tks := num_tokens_from_string txt in
                if tks <=? 0 then scan_context from_tail chunks rest remaining
                else
                  let txt' := if remaining <? tks
                              then trim_to_tokens txt remaining from_tail else txt in
                  let tks' := if remaining <? tks
                              then num_tokens_from_string txt' else tks in
                  txt' :: scan_context from_tail chunks rest (remaining - tks')
        end
  end.

(** [prev_ctx] and [next_ctx] of the chunk at [sorted_pos]. *)
Definition prev_ctx (chunks : list chunk) (ordered : list nat) (sorted_pos : nat)
    (token_budget : Z) : list pystr :=
  rev (scan_context true chunks (rev (take sorted_pos ordered)) token_budget).

Definition next_ctx (chunks : list chunk) (ordered : list nat) (sorted_pos : nat)
    (token_budget : Z) : list pystr :=
  scan_context false chunks (drop (S sorted_pos) ordered) token_budget.

(** The update of the chunk with the combined text. *)
Definition store_combined (ck : chunk) (combined : pystr) : chunk :=
  let original :=
    if present (content_with_weight ck) then content_with_weight ck
    else if present (text ck) then text ck
    else content_with_weight ck in
  let cww := if present (content_with_weight ck) then Str combined
             else content_with_weight ck in
  let txt := if negb (present (content_with_weight ck)) && present (text ck)
             then Str combined else text ck in
  let changed := negb (bool_decide (original = Str combined)) in
  let ltks := if changed
              then match content_ltks ck with
                   | Some _ => Some (tokenize combined)
                   | None => None
                   end
              else content_ltks ck in
  let sm_ltks := if changed
                 then match content_sm_ltks ck with
                      | Some _ =>
                          Some (fine_grained_tokenize
                                  (default (tokenize combined) ltks))
                      | None => None
                      end
                 else content_sm_ltks ck in
  mkChunk (doc_type_kwd ck) cww txt (image ck) (page_num_int ck) (page_number ck)
    (top_int ck) (top ck) (position_int ck) (x0 ck) ltks sm_ltks.

(** One iteration of the second step, on the chunk at [sorted_pos] of the
    order; the chunk is updated in place in [chunks]. *)
Definition attach_step (table_context_size image_context_size : Z)
    (ordered : list nat) (chunks : list chunk) (entry : nat * nat) : list chunk :=
  let '(sorted_pos, idx) := entry in
  match chunks !! idx with
  | None => chunks
  | Some ck =>
      let token_budget :=
        if is_image_chunk ck then image_context_size
        else if is_table_chunk ck then table_context_size else 0 in
      if token_budget <=? 0 then chunks
      else
        let before := prev_ctx chunks ordered sorted_pos token_budget in
        let after := next_ctx chunks ordered sorted_pos token_budget in
        if bool_decide (before = []) && bool_decide (after = []) then chunks
        else
          let self_text := get_text ck in
          let pieces :=
            before ++ (if bool_decide (self_text = []) then [] else [self_text]) ++ after in
          <[idx := store_combined ck (join [NL] pieces)]> chunks
  end.

Definition attach_media_context (chunks : list chunk)
    (table_context_size image_context_size : Z) : list chunk :=
  if bool_decide (chunks = []) || ((table_context_size <=? 0) && (image_context_size <=? 0))
  then chunks
  else
    let '(ordered, positioned) := ordered_indices chunks in
    let chunks :=
      fold_left (attach_step table_context_size image_context_size ordered)
        (imap (fun sorted_pos idx => (sorted_pos, idx)) ordered) chunks in
    if positioned then omap (fun i => chunks !! i) ordered else chunks.

End Attach.

(** Chunks for the examples: a text chunk, and a chunk that holds an
    image and an empty text. *)
Definition text_only (t : pystr) : chunk :=
  mkChunk None Absent (Str t) None [] None [] None [] None None None.

Definition bare_image (img : ConcatImg.Image) : chunk :=
  mkChunk None Absent (Str []) (Some img) [] None [] None [] None None None.

(** A token counter for the examples: one token per sentence. *)
Definition one_token_per_sentence (s : pystr) : Z :=
  Z.of_nat (length (split_sentences s)).

End MediaContext.

(** ** Token sums of merged sections *)

Module NaiveBudget.
Import PyStr.

(** The tokens that [add_chunk] counts for the sections merged into one
    chunk: the sum of [num_tokens_from_string("\n" + sec)]. *)
Definition section_tokens (num_tokens_from_string : pystr -> Z)
    (g : list (pystr * pystr)) : Z :=
  foldr (fun s acc => num_tokens_from_string ([NL] ++ fst s) + acc) 0 g.

(** [tk > chunk_token_num * (100 - overlapped_percent) / 100.] *)
Definition over_budget (chunk_token_num overlapped_percent tk : Z) : Prop :=
  chunk_token_num * (100 - overlapped_percent) < tk * 100.

(** What one section contributes to its chunk: ["\n" + sec], followed by
    the position tag where [add_chunk] appends it. *)
Definition piece_of (s : pystr * pystr) (piece : pystr) : Prop :=
  piece = [NL] ++ fst s \/ piece = ([NL] ++ fst s) ++ snd s.

(** A chunk made of the sections [g]: some carried text, then the pieces
    of the sections in order. *)
Definition chunk_of (g : list (pystr * pystr)) (c : pystr) : Prop :=
  exists carry pieces, c = carry ++ concat pieces /\ Forall2 piece_of g pieces.

(** The state of the default mode after some sections: the chunks after
    the initial one are made of consecutive groups of the sections read,
    a group is closed only when its tokens exceed the budget share, and a
    section joins a group only while the tokens of the group do not. *)
Definition budget_inv (num_tokens_from_string : pystr -> Z) (ctn p : Z) (groups : list (list (pystr * pystr)))
    (cs : list pystr) (tk : Z) : Prop :=
  Forall2 chunk_of groups cs
  /\ Forall (fun c => c <> []) cs
  /\ Forall (fun g => g <> []) groups
  /\ (forall g pre x post, g ∈ groups -> g = pre ++ x :: post -> pre <> [] ->
        ~ over_budget ctn p (section_tokens num_tokens_from_string pre))
  /\ (forall i g, groups !! i = Some g -> (S i < length groups)%nat ->
        over_budget ctn p (section_tokens num_tokens_from_string g))
  /\ tk = section_tokens num_tokens_from_string (default [] (last groups)).

(** [sub in s] *)
Definition occurs_in (sub s : pystr) : Prop := exists a b, s = a ++ sub ++ b.

End NaiveBudget.

(** ** Budgeted flat merger with images *)

Module NaiveMergeImages.
Import PyStr NaiveMerge ConcatImg.

Section Merge.
Variable num_tokens_from_string : pystr -> Z.
Variable remove_tag : pystr -> pystr.

(** [cks], [result_images], [tk_nums], and the identity that the next
    image object created by [concat_img] receives. *)
Definition merge_state : Type := list pystr * list (option Image) * list Z * nat.

(** [add_chunk(t, image, pos)].  The three lists are never empty here:
    they start with one element each and only grow. *)
Definition add_chunk (chunk_token_num overlapped_percent : Z)
    (st : merge_state) (t : pystr) (image : option Image) (pos : pystr) : merge_state :=
  let '(cks, result_images, tk_nums, fresh) := st in
  let tnum := num_tokens_from_string t in
  let pos := if tnum <? 8 then [] else pos in
  let last_ck := default [] (last cks) in
  let last_tk := default 0 (last tk_nums) in
  if bool_decide (last_ck = [])
     || (chunk_token_num * (100 - overlapped_percent) <? last_tk * 100)
  then
    let t :=
      if bool_decide (cks = []) then t
      else carry_over remove_tag overlapped_percent last_ck ++ t in
    let t := if find t pos <? 0 then t ++ pos else t in
    (cks ++ [t], result_images ++ [image], tk_nums ++ [tnum], fresh)
  else
    let t := if find last_ck pos <? 0 then t ++ pos else t in
    let last_image := default None (last result_images) in
    match last_image with
    | None =>
        (removelast cks ++ [last_ck ++ t], removelast result_images ++ [image],
         removelast tk_nums ++ [last_tk + tnum], fresh)
    | Some _ =>
        (removelast cks ++ [last_ck ++ t],
         removelast result_images ++ [concat_img fresh last_image image],
         removelast tk_nums ++ [last_tk + tnum], S fresh)
    end.

(** The inner loop of the custom-delimiter branch for one section: every
    piece of the split that is not a delimiter is a chunk of its own and
    receives the image of the section. *)
Definition custom_section (delims : list pystr)
    (st : list pystr * list (option Image)) (x : pystr * pystr * option Image)
    : list pystr * list (option Image) :=
  let '(sec, pos, image) := x in
  fold_left
    (fun '(cks, result_images) sub_sec =>
       (cks ++ [custom_chunk num_tokens_from_string pos sub_sec],
        result_images ++ [image]))
    (List.filter (fun sub_sec => negb (bool_decide (sub_sec ∈ delims)))
       (re_split delims sec))
    st.

(** [naive_merge_with_images(texts, images, ...)].  [texts] holds plain
    strings or (text, position) pairs; [zip(texts, images)] pairs them
    with the images. *)
Definition naive_merge_with_images (texts : sections_in) (images : list (option Image))
    (chunk_token_num : Z) (delimiter : pystr) (overlapped_percent : Z) (fresh : nat)
    : list pystr * list (option Image) :=
  if sections_empty texts
     || negb (bool_decide (length (as_pairs texts) = length images))
  then ([], [])
  else
    let customs := custom_delimiters delimiter in
    if negb (bool_decide (customs = [])) then
      fold_left (custom_section (ordered_delimiters customs))
        (zip (as_pairs texts) images) ([], [])
    else
      let '(cks, result_images, _, _) :=
        fold_left
          (fun st '(sec, pos, image) =>
             add_chunk chunk_token_num overlapped_percent st ([NL] ++ sec) image pos)
          (zip (as_pairs texts) images)
          ([[]], [None], [0], fresh) in
      (cks, result_images).

End Merge.
End NaiveMergeImages.

(** ** Budgeted flat merger for DOCX sections *)

Module NaiveMergeDocx.
Import PyStr NaiveMerge ConcatImg.

Section Merge.
Variable num_tokens_from_string : pystr -> Z.

Definition merge_state : Type := list pystr * list (option Image) * list Z * nat.

(** [add_chunk(t, image, pos="")]: every call passes the empty position,
    so that [if pos and ...] never appends anything. *)
Definition add_chunk (chunk_token_num : Z)
    (st : merge_state) (t : pystr) (image : option Image) : merge_state :=
  let '(cks, images, tk_nums, fresh) := st in
  let tnum := num_tokens_from_string t in
  if bool_decide (cks = []) || (chunk_token_num <? default 0 (last tk_nums))
  then (cks ++ [t], images ++ [image], tk_nums ++ [tnum], fresh)
  else
    (removelast cks ++ [default [] (last cks) ++ t],
     removelast images ++ [concat_img fresh (default None (last images)) image],
     removelast tk_nums ++ [default 0 (last tk_nums) + tnum],
     S fresh).

(** The custom-delimiter branch for one section: the empty pieces and
    the delimiters are skipped. *)
Definition custom_section (delims : list pystr)
    (st : list pystr * list (option Image)) (x : pystr * option Image)
    : list pystr * list (option Image) :=
  let '(sec, image) := x in
  fold_left
    (fun '(cks, images) sub_sec => (cks ++ [[NL] ++ sub_sec], images ++ [image]))
    (List.filter
       (fun sub_sec => negb (bool_decide (sub_sec = []) || bool_decide (sub_sec ∈ delims)))
       (re_split delims sec))
    st.

(** [naive_merge_docx(sections, chunk_token_num, delimiter)] on
    (text, image) pairs. *)
Definition naive_merge_docx (sections : list (pystr * option Image))
    (chunk_token_num : Z) (delimiter : pystr) (fresh : nat)
    : list pystr * list (option Image) :=
  if bool_decide (sections = []) then ([], [])
  else
    let customs := custom_delimiters delimiter in
    if negb (bool_decide (customs = [])) then
      fold_left (custom_section (ordered_delimiters customs)) sections ([], [])
    else
      let '(cks, images, _, _) :=
        fold_left
          (fun st '(sec, image) => add_chunk chunk_token_num st ([NL] ++ sec) image)
          sections ([], [], [], fresh) in
      (cks, images).

(** The tokens counted for the sections merged into one chunk. *)
Definition docx_tokens (g : list (pystr * option Image)) : Z :=
  foldr (fun s acc => num_tokens_from_string ([NL] ++ fst s) + acc) 0 g.

(** The text of a chunk that merges the sections [g]. *)
Definition docx_text (g : list (pystr * option Image)) : pystr :=
  concat (map (fun s => [NL] ++ fst s) g).

(** The state of the default mode after some sections: the chunks are
    the texts of consecutive groups of the sections read, with one image
    entry and one token count per group. *)
Definition docx_inv (ctn : Z) (groups : list (list (pystr * option Image)))
    (images : list (option Image)) (tk_nums : list Z) : Prop :=
  length images = length groups
  /\ last tk_nums = docx_tokens <$> last groups
  /\ Forall (fun g => g <> []) groups
  /\ (forall g pre x post, g ∈ groups -> g = pre ++ x :: post -> pre <> [] ->
        docx_tokens pre <= ctn)
  /\ (forall i g, groups !! i = Some g -> (S i < length groups)%nat ->
        ctn < docx_tokens g).

End Merge.
End NaiveMergeDocx.

(** ** Buckets of the hierarchical merger *)

Module HierarchicalBuckets.
Import PyStr Patterns HierarchicalMerge.

(** The indices of the sections whose bucket is [b], in ascending order. *)
Definition bucket_indices (pats : list Regex.regex) (sections : list (pystr * pystr))
    (b : nat) : list nat :=
  List.filter (fun i => bool_decide (bucket_of pats <$> sections !! i = Some b))
    (seq 0 (length sections)).

(** A strictly ascending list of indices. *)
Definition ascending (arr : list nat) : Prop :=
  forall i j a b, (i < j)%nat -> arr !! i = Some a -> arr !! j = Some b -> (a < b)%nat.

(** A group of [n] sections as the two outer loops build it: the index
    that started it, then indices below it. *)
Definition group_ok (n : nat) (g : list nat) : Prop :=
  exists j rest, g = j :: rest /\ (j < n)%nat /\ Forall (fun v => (v < j)%nat) rest.

(** The reversed bucket list as the outer loops see it: ascending
    buckets of section indices, disjoint from one another. *)
Definition levels_ok (n : nat) (levels : list (list nat)) : Prop :=
  (forall i arr, levels !! i = Some arr ->
     ascending arr /\ forall x, x ∈ arr -> (x < n)%nat)
  /\ (forall i1 i2 a1 a2 x, levels !! i1 = Some a1 -> levels !! i2 = Some a2 ->
        i1 <> i2 -> x ∈ a1 -> x ∉ a2).

(** The state of the outer loops. *)
Definition state_ok (n : nat) (st : list (list nat) * list bool) : Prop :=
  length (snd st) = n /\ Forall (group_ok n) (fst st).

End HierarchicalBuckets.

(** ** What the media context attacher leaves alone *)

Module MediaContextKept.
Import PyStr MediaContext.

(** The keys of a chunk that tell its kind and its place. *)
Definition same_media (c c' : chunk) : Prop :=
  doc_type_kwd c' = doc_type_kwd c
  /\ image c' = image c
  /\ page_num_int c' = page_num_int c
  /\ page_number c' = page_number c
  /\ top_int c' = top_int c
  /\ top c' = top c
  /\ position_int c' = position_int c
  /\ x0 c' = x0 c.

(** A chunk after the attacher: a text chunk is as it was, every other
    chunk keeps its kind, image and place. *)
Definition kept (c c' : chunk) : Prop :=
  (is_text_chunk c = true -> c' = c) /\ same_media c c'.

(** A sentence as [split_sentences] cuts it: characters that do not end
    a sentence, then possibly one that does. *)
Definition sentence_shape (x : pystr) : Prop :=
  x <> []
  /\ exists body,
       Forall (fun c => sentence_end c = false) body
       /\ (x = body \/ exists c, sentence_end c = true /\ x = body ++ [c]).

(** The position by which the attacher orders a chunk: page, top and
    left (0 when absent); [None] for a chunk without page or top. *)
Definition position_key (ck : chunk) : option (Z * Z * Z) :=
  match extract_position ck with
  | (Some pn, Some tp, lft) => Some (pn, tp, default 0 lft)
  | _ => None
  end.

(** The order of Python tuples on position keys. *)
Definition position_le (a b : Z * Z * Z) : Prop :=
  let '(pa, ta, la) := a in
  let '(pb, tb, lb) := b in
  pa < pb \/ (pa = pb /\ (ta < tb \/ (ta = tb /\ la <= lb))).

End MediaContextKept.

(** Chunks for the examples: a text chunk and a table chunk at a page
    and a top coordinate. *)
Module MediaContextSamples.
Import PyStr MediaContext.

Definition text_at (t : pystr) (page top : Z) : chunk :=
  mkChunk None Absent (Str t) None [page] None [top] None [] None None None.

Definition table_at (t : pystr) (page top : Z) : chunk :=
  mkChunk (Some (u "table")) (Str t) Absent None [page] None [top] None [] None None None.

End MediaContextSamples.

(** ** What the tree holds *)

Module TreeCover.
Import PyStr TreeMerge.

(** What the loop of [build_tree] maintains, besides [tree_inv], for a
    root at index 0 with level 0 and the lines [seen] so far: a child is
    created after its parent, every node but the root is the child of a
    node, has a text, a level of 1 or more and lies within the depth
    limit, and every text seen is a text of some node. *)
Definition arena_inv (rdepth : Z) (seen : list pystr) (st : list Node * list nat) : Prop :=
  let '(h, stack) := st in
  (exists root, h !! 0%nat = Some root /\ level root = 0 /\ depth root = rdepth)
  /\ stack <> []
  /\ (forall i, i ∈ stack -> (i < length h)%nat)
  /\ (forall i n c, h !! i = Some n -> c ∈ children n -> (i < c < length h)%nat)
  /\ (forall j, (1 <= j < length h)%nat -> exists i n, h !! i = Some n /\ j ∈ children n)
  /\ (forall j n, (1 <= j)%nat -> h !! j = Some n ->
        texts n <> [] /\ 1 <= level n /\ beyond_limit rdepth (level n) = false)
  /\ (forall t, t ∈ seen -> exists i n, h !! i = Some n /\ t ∈ texts n).

(** The titles that [_dfs] hands to the children of a node. *)
Definition path_titles (self_depth : Z) (n : Node) (titles : list pystr) : list pystr :=
  if (1 <=? level n) && (level n <=? self_depth) then titles ++ texts n else titles.

End TreeCover.

(** ** From parser blocks to sections *)

Module TransferSections.
Import PyStr PositionTag.

(** What [_transfer_to_sections] can raise: a missing key of a block,
    the local [section] read before any block has set it, and what
    [_line_tag] raises. *)
Inductive transfer_exn :=
| KeyError (key : pystr)
| UnboundLocalError
| TagError (e : exn).

Inductive outcome (A : Type) :=
| Returns (a : A)
| Raises (e : transfer_exn).
Arguments Returns {A} a.
Arguments Raises {A} e.

#[global] Instance outcome_bind : MBind outcome := fun _ _ f m =>
  match m with
  | Returns a => f a
  | Raises e => Raises e
  end.

(** A block of the parser output: its type, the keys that the function
    reads (a key may be absent), and its page and box. *)
Record output := mkOutput {
  otype : pystr;
  otext : option pystr;
  table_body : option pystr;
  table_caption : option (list pystr);
  table_footnote : option (list pystr);
  image_caption : option (list pystr);
  image_footnote : option (list pystr);
  code_body : option pystr;
  code_caption : option (list pystr);
  list_items : option (list pystr);
  place : box
}.

(** [output[key]] *)
Definition required (key : pystr) (v : option pystr) : outcome pystr :=
  match v with
  | Some s => Returns s
  | None => Raises (KeyError key)
  end.

(** The [match output["type"]] statement: the value of the local
    [section] after it, [None] while the local is unbound.  The case
    [DISCARDED] and a type that no case names leave it as it is. *)
Definition section_of (section : option pystr) (o : output) : outcome (option pystr) :=
  if bool_decide (otype o = u "text") then
    s ← required (u "text") (otext o); Returns (Some s)
  else if bool_decide (otype o = u "table") then
    let s := default [] (table_body o)
             ++ join [NL] (default [] (table_caption o))
             ++ join [NL] (default [] (table_footnote o)) in
    Returns (Some (if bool_decide (strip s = []) then u "FAILED TO PARSE TABLE" else s))
  else if bool_decide (otype o = u "image") then
    Returns (Some (concat (default [] (image_caption o)) ++ [NL]
                   ++ concat (default [] (image_footnote o))))
  else if bool_decide (otype o = u "equation") then
    s ← required (u "text") (otext o); Returns (Some s)
  else if bool_decide (otype o = u "code") then
    b ← required (u "code_body") (code_body o);
    Returns (Some (b ++ join [NL] (default [] (code_caption o))))
  else if bool_decide (otype o = u "list") then
    Returns (Some (join [NL] (default [] (list_items o))))
  else Returns section.

(** An element of the result: the three shapes of tuple. *)
Inductive section_entry :=
| Manual (section type tag : pystr)
| Paper (section_with_tag type : pystr)
| Plain (section tag : pystr).

(** The entry appended for a block. *)
Definition entry_of (parse_method : option pystr) (section type tag : pystr)
    : section_entry :=
  if negb (bool_decide (section = [])) && bool_decide (parse_method = Some (u "manual"))
  then Manual section type tag
  else if negb (bool_decide (section = [])) && bool_decide (parse_method = Some (u "paper"))
  then Paper (section ++ tag) type
  else Plain section tag.

(** One iteration of the loop, on [sections] and the local [section]. *)
Definition transfer_step (page_images : option (list (Z * Z)))
    (parse_method : option pystr)
    (st : outcome (list section_entry * option pystr)) (o : output)
    : outcome (list section_entry * option pystr) :=
  '(sections, section) ← st;
  section ← section_of section o;
  match section with
  | None => Raises UnboundLocalError
  | Some s =>
      match _line_tag page_images (place o) with
      | Raise e => Raises (TagError e)
      | Ok tag =>
          Returns (sections ++ [entry_of parse_method s (otype o) tag], Some s)
      end
  end.

(** [self._transfer_to_sections(outputs, parse_method)] *)
Definition _transfer_to_sections (page_images : option (list (Z * Z)))
    (outputs : list output) (parse_method : option pystr)
    : outcome (list section_entry) :=
  st ← fold_left (transfer_step page_images parse_method) outputs (Returns ([], None));
  Returns (fst st).

(** The types that set the local [section]. *)
Definition sets_section (o : output) : bool :=
  bool_decide (otype o ∈ [u "text"; u "table"; u "image"; u "equation"; u "code"; u "list"]).

(** Blocks for the examples. *)
Definition text_block (t : pystr) (page : Z) : output :=
  mkOutput (u "text") (Some t) None None None None None None None None
    (mkBox page (Some (1 # 2, 3 # 1, 10 # 1, 1 # 4)%Q)).

Definition discarded_block (page : Z) : output :=
  mkOutput (u "discarded") None None None None None None None None None
    (mkBox page (Some (0 # 1, 0 # 1, 10 # 1, 1 # 1)%Q)).

End TransferSections.

(** ** Colon titles *)

Module ColonTitle.
Import PyStr NaiveMerge.

(** The alternatives of [([。？！!?;；]| \.)]: one of seven characters,
    or a space and a dot.  A space is not one of the seven, so at most one
    alternative matches at a place. *)
Definition colon_delimiters : list pystr :=
  map (fun c => [c]) (u "。？！!?;；") ++ [u " ."].

(** [sections.insert(k, x)] *)
Definition insert_at {A} (k : nat) (x : A) (l : list A) : list A :=
  take k l ++ x :: drop k l.

(** The [while i < len(sections)] loop, on [sections] and [i]; every
    iteration brings [i] nearer to the length, so as many iterations as
    there are sections are enough. *)
Fixpoint colon_loop (fuel : nat) (sections : list (pystr * pystr)) (i : nat)
    : list (pystr * pystr) * nat :=
  match fuel with
  | O => (sections, i)
  | S fuel' =>
      match sections !! i with
      | None => (sections, i)
      | Some (txt, layout) =>
          let i := S i in
          let txt := strip (before 64%N txt) in
          if bool_decide (txt = []) then colon_loop fuel' sections i
          else if negb (bool_decide (default 0%N (last txt) ∈ u ":："))
          then colon_loop fuel' sections i
          else
            let txt := rev txt in
            let arr := re_split colon_delimiters txt in
            if (length arr <? 2)%nat || (len (default [] (arr !! 1%nat)) <? 32)
            then colon_loop fuel' sections i
            else
              colon_loop fuel'
                (insert_at (i - 1) (rev (default [] (arr !! 0%nat)), u "title") sections)
                (S i)
      end
  end.

(** [make_colon_as_title(sections)]: the value returned ([None] when the
    function falls off its end) and the list as the call leaves it. *)
Definition make_colon_as_title (sections : sections_in)
    : option sections_in * sections_in :=
  if sections_empty sections then (Some (Texts []), sections)
  else
    match sections with
    | Texts _ => (Some sections, sections)
    | Tagged l => (None, Tagged (fst (colon_loop (length l) l 0)))
    end.

End ColonTitle.

(** ** Question bullets *)

Module QuestionBullets.
Import PyStr Regex Patterns StyleClassifier.

Definition QUESTION_PATTERN : list regex :=
  [ (* 第([零一二三四五六七八九十百0-9]+)问 *)
    seq [lit (u "第"); plus cn_num_digit; lit (u "问")];
    (* 第([零一二三四五六七八九十百0-9]+)条 *)
    seq [lit (u "第"); plus cn_num_digit; lit (u "条")];
    (* [\(（]([零一二三四五六七八九十百]+)[\)）] *)
    seq [lparen; plus cn_num; rparen];
    (* 第([0-9]+)问 *)
    seq [lit (u "第"); plus digit; lit (u "问")];
    (* 第([0-9]+)条 *)
    seq [lit (u "第"); plus digit; lit (u "条")];
    (* ([0-9]{1,2})[\. 、] *)
    seq [digit; opt digit; Cls false (singles (u ". 、"))];
    (* ([零一二三四五六七八九十百]+)[ 、] *)
    seq [plus cn_num; Cls false (singles (u " 、"))];
    (* [\(（]([0-9]{1,2})[\)）] *)
    seq [lparen; digit; opt digit; rparen];
    (* QUESTION (ONE|TWO|THREE|FOUR|FIVE|SIX|SEVEN|EIGHT|NINE|TEN) *)
    seq [lit (u "QUESTION ");
         any_of (map (fun w => lit (u w))
                   ["ONE"; "TWO"; "THREE"; "FOUR"; "FIVE"; "SIX"; "SEVEN";
                    "EIGHT"; "NINE"; "TEN"]%string)];
    (* QUESTION (I+V?|VI*|XI|IX|X) *)
    seq [lit (u "QUESTION ");
         any_of [Cat (plus (lit (u "I"))) (opt (lit (u "V")));
                 Cat (lit (u "V")) (Star (lit (u "I")));
                 lit (u "XI"); lit (u "IX"); lit (u "X")]];
    (* QUESTION ([0-9]+) *)
    seq [lit (u "QUESTION "); plus digit] ].

(** [for sec in sections: if re.match(pro, sec) and not not_bullet(sec):
    hits[i] += 1; break] *)
Fixpoint scan_question (i : nat) (pro : regex) (sections : list pystr)
    (hits : list Z) : list Z :=
  match sections with
  | [] => hits
  | sec :: rest =>
      if rmatch pro sec && negb (not_bullet sec)
      then <[i := default 0 (hits !! i) + 1]> hits
      else scan_question i pro rest hits
  end.

Definition question_hits (patterns : list regex) (sections : list pystr) : list Z :=
  fold_left
    (fun hits '(i, pro) => scan_question i pro sections hits)
    (imap (fun i pro => (i, pro)) patterns)
    (replicate (length patterns) 0).

(** [qbullets_category(sections)]: the index and [QUESTION_PATTERN[res]],
    with Python's negative index. *)
Definition qbullets_category (sections : list pystr) : result (Z * regex) :=
  let res := select_style (question_hits QUESTION_PATTERN sections) in
  pat ← PyList.get QUESTION_PATTERN res;
  Ok (res, pat).

(** Some section matches the pattern and is not rejected by
    [not_bullet]. *)
Definition question_hit (pro : regex) (sections : list pystr) : bool :=
  existsb (fun sec => rmatch pro sec && negb (not_bullet sec)) sections.

(** The count a pattern ends with. *)
Definition hit_count (sections : list pystr) (pro : regex) : Z :=
  if question_hit pro sections then 1 else 0.

End QuestionBullets.

(** ** Chunk dictionaries for the index *)

Module TokenizeChunks.
Import PyStr Regex MediaContext.

(** [</?(table|td|caption|tr|th)( [^<>]{0,12})?>] *)
Definition table_tag : regex :=
  seq [lit (u "<"); opt (lit (u "/"));
       any_of (map (fun w => lit (u w)) ["table"; "td"; "caption"; "tr"; "th"]%string);
       opt (Cat (lit (u " ")) (upto 12 (Cls true (singles (u "<>")))));
       lit (u ">")].

(** The number of characters up to and with the first [>]. *)
Fixpoint index_gt (s : pystr) : option nat :=
  match s with
  | [] => None
  | c :: s' => if (c =? 62)%N then Some 1%nat else S <$> index_gt s'
  end.

(** The length of the match of [table_tag] at the start of [s].  A text
    the pattern matches has one [>], its last character, so the match can
    only be the text up to the first [>]. *)
Definition tag_at (s : pystr) : option nat :=
  n ← index_gt s;
  if fullmatch table_tag (take n s) then Some n else None.

(** [re.sub(table_tag, " ", txt)]: the matches are replaced from the
    left, each scan starting after the last match. *)
Fixpoint blank_tags (skip : nat) (s : pystr) : pystr :=
  match s with
  | [] => []
  | c :: s' =>
      match skip with
      | S k => blank_tags k s'
      | O =>
          match tag_at s with
          | Some n => SP :: blank_tags (n - 1) s'
          | None => c :: blank_tags 0 s'
          end
      end
  end.

(** [add_positions(d, poss)], for numbers [int] is defined on;
    [add_one] is [pn + 1]. *)
Section Positions.
Context {number : Type}.
Variable py_int : number -> Z.
Variable add_one : number -> number.

Definition add_positions (d : chunk)
    (poss : list (number * number * number * number * number)) : chunk :=
  match poss with
  | [] => d
  | _ :: _ =>
      mkChunk (doc_type_kwd d) (content_with_weight d) (text d) (image d)
        (map (fun '(pn, lft, rgt, tp, bottom) => py_int (add_one pn)) poss)
        (page_number d)
        (map (fun '(pn, lft, rgt, tp, bottom) => py_int tp) poss)
        (top d)
        (map (fun '(pn, lft, rgt, tp, bottom) =>
                (py_int (add_one pn), py_int lft, py_int rgt, py_int tp,
                 py_int bottom)) poss)
        (x0 d) (content_ltks d) (content_sm_ltks d)
  end.

End Positions.

(** [rows] of a table: one text, or a list of texts. *)
Inductive rows_in :=
| RowsStr (s : pystr)
| RowsList (l : list pystr).

(** [range(0, n, step)] *)
Definition range_step (n : nat) (step : Z) : result (list nat) :=
  if step =? 0 then Raise ValueError
  else if step <? 0 then Ok []
  else
    let b := Z.to_nat step in
    Ok (map (fun k => (k * b)%nat) (List.seq 0 ((n + b - 1) / b))).

Section Tokenize.
Variable rag_tokenize : pystr -> pystr.
Variable fine_grained_tokenize : pystr -> pystr.

(** [tokenize(d, txt, eng)] *)
Definition tokenize (d : chunk) (txt : pystr) : chunk :=
  let t := blank_tags 0 txt in
  let ltks := rag_tokenize t in
  mkChunk (doc_type_kwd d) (Str txt) (text d) (image d) (page_num_int d)
    (page_number d) (top_int d) (top d) (position_int d) (x0 d)
    (Some ltks) (Some (fine_grained_tokenize ltks)).

(** [d["doc_type_kwd"] = "table"; if img: d["image"] = img;
    d["doc_type_kwd"] = "image"] *)
Definition set_media (d : chunk) (img : option ConcatImg.Image) : chunk :=
  mkChunk (Some (match img with Some _ => u "image" | None => u "table" end))
    (content_with_weight d) (text d)
    (match img with Some _ => img | None => image d end)
    (page_num_int d) (page_number d) (top_int d) (top d) (position_int d) (x0 d)
    (content_ltks d) (content_sm_ltks d).

Section Tables.
Context {number : Type}.
Variable py_int : number -> Z.
Variable add_one : number -> number.

Definition table : Type :=
  (option ConcatImg.Image * rows_in)
  * list (number * number * number * number * number).

Definition table_chunk (doc : chunk) (img : option ConcatImg.Image)
    (poss : list (number * number * number * number * number)) (txt : pystr)
    : chunk :=
  add_positions py_int add_one (set_media (tokenize doc txt) img) poss.

(** The body of the loop of [tokenize_table] for one table. *)
Definition table_chunks (doc : chunk) (eng : bool) (batch_size : Z) (t : table)
    : result (list chunk) :=
  let '((img, rows), poss) := t in
  match rows with
  | RowsStr s =>
      if bool_decide (s = []) then Ok []
      else Ok [table_chunk doc img poss s]
  | RowsList l =>
      if bool_decide (l = []) then Ok []
      else
        let de := if eng then u "; " else u "； " in
        starts ← range_step (length l) batch_size;
        Ok (map (fun i =>
                   table_chunk doc img poss
                     (join de (take (Z.to_nat batch_size) (drop i l))))
              starts)
  end.

(** [tokenize_table(tbls, doc, eng, batch_size)] *)
Fixpoint tokenize_table (tbls : list table) (doc : chunk) (eng : bool)
    (batch_size : Z) : result (list chunk) :=
  match tbls with
  | [] => Ok []
  | t :: tbls' =>
      cs ← table_chunks doc eng batch_size t;
      res ← tokenize_table tbls' doc eng batch_size;
      Ok (cs ++ res)
  end.

End Tables.

(** [add_positions(d, [[ii]*5])] *)
Definition index_position (d : chunk) (ii : nat) : chunk :=
  let i := Z.of_nat ii in
  add_positions (fun n : Z => n) (fun n : Z => n + 1) d [(i, i, i, i, i)].

(** [tokenize_chunks(chunks, doc, eng)], with no parser and no child
    delimiters. *)
Definition tokenize_chunks (chunks : list pystr) (doc : chunk) : list chunk :=
  omap (fun '(ii, ck) =>
          if bool_decide (strip ck = []) then None
          else Some (tokenize (index_position doc ii) ck))
    (imap (fun ii ck => (ii, ck)) chunks).

(** [tokenize_chunks_with_images(chunks, doc, eng, images)], with no
    child delimiters. *)
Definition with_image (d : chunk) (image : option ConcatImg.Image) : chunk :=
  mkChunk (doc_type_kwd d) (content_with_weight d) (text d) image
    (page_num_int d) (page_number d) (top_int d) (top d) (position_int d) (x0 d)
    (content_ltks d) (content_sm_ltks d).

Definition tokenize_chunks_with_images (chunks : list pystr) (doc : chunk)
    (images : list (option ConcatImg.Image)) : list chunk :=
  omap (fun '(ii, (ck, image)) =>
          if bool_decide (strip ck = []) then None
          else Some (tokenize (index_position (with_image doc image) ii) ck))
    (imap (fun ii x => (ii, x)) (zip chunks images)).

End Tokenize.

(** The rows of the batches of a table. *)
Definition batch_ok (batch_size : Z) (b : list pystr) : Prop :=
  (0 < length b)%nat /\ Z.of_nat (length b) <= batch_size.

(** The document has no media type of its own. *)
Definition plain_doc (doc : chunk) : Prop :=
  doc_type_kwd doc <> Some (u "image") /\ doc_type_kwd doc <> Some (u "table").

End TokenizeChunks.

(** ** Language of a text *)

Module LanguageGuess.
Import PyStr Regex.

(** The argument of [is_english]: a text, a list whose items are texts or
    something else ([None]), or another value. *)
Inductive texts_in :=
| OneText (s : pystr)
| TextList (l : list (option pystr))
| OtherValue.

(** The character class of [is_english]: the backquote, the ASCII letters
    and digits, white space, and the punctuation marks full stop, comma,
    apostrophe, colon, semicolon, slash, double quote, question mark, angle
    brackets, exclamation mark, round brackets and hyphen. *)
Definition english_char (c : N) : bool :=
  in_ranges c ([(96, 96); (97, 122); (65, 90); (48, 57)]%N
                 ++ singles (u ".,':;/") ++ [(34, 34)%N] ++ singles (u "?<>!()-"))
  || is_space c.

(** [pattern.fullmatch(t)]: the text is one character of the class. *)
Definition english_text (t : pystr) : bool :=
  match t with
  | [c] => english_char c
  | _ => false
  end.

(** [eng = sum(1 for t in texts if pattern.fullmatch(t.strip()));
    return (eng / len(texts)) > 0.8], the quotient compared as a
    fraction: below 2^50 texts the rounded quotient is above the rounded
    0.8 exactly when the fraction is above four fifths. *)
Definition mostly_english (texts : list pystr) : bool :=
  let eng := Z.of_nat (length (List.filter (fun t => english_text (strip t)) texts)) in
  4 * Z.of_nat (length texts) <? 5 * eng.

Definition is_english (texts : texts_in) : bool :=
  match texts with
  | OneText s =>
      if bool_decide (s = []) then false
      else mostly_english (map (fun c => [c]) s)
  | TextList l =>
      if bool_decide (l = []) then false
      else
        let texts :=
          omap (fun t => match t with
                         | Some t => if bool_decide (strip t = []) then None else Some t
                         | None => None
                         end) l in
        if bool_decide (texts = []) then false else mostly_english texts
  | OtherValue => false
  end.

End LanguageGuess.

(** ** Title levels and their frequency *)

Module TitleFrequency.
Import PyStr Regex Patterns.

(** The level [title_frequency] gives a section: the index of the first
    pattern of the style that the trimmed text matches, unless [not_bullet]
    rejects the text; failing that the number of patterns for a title or
    head layout whose text may be a title, and one more otherwise. *)
Definition title_level (pats : list regex) (section : pystr * pystr) : Z :=
  let '(txt, layout) := section in
  let bullets_size := Z.of_nat (length pats) in
  match (if not_bullet txt then None else TreeMerge.first_match pats (strip txt) 0) with
  | Some j => Z.of_nat j
  | None =>
      if title_or_head layout && negb (not_title (before 64%N txt))
      then bullets_size else bullets_size + 1
  end.

Definition occurrences (x : Z) (l : list Z) : nat :=
  length (List.filter (fun y => bool_decide (y = x)) l).

(** The different values of a list, in the order of their first
    occurrence. *)
Fixpoint distinct (seen : list Z) (l : list Z) : list Z :=
  match l with
  | [] => []
  | x :: l' =>
      if bool_decide (x ∈ seen) then distinct seen l'
      else x :: distinct (x :: seen) l'
  end.

(** [Counter(levels).items()] *)
Definition counter (levels : list Z) : list (Z * nat) :=
  map (fun x => (x, occurrences x levels)) (distinct [] levels).

(** [sorted(items, key=lambda x: x[1] * -1)]: the greater counts first,
    items of one count in the order they had. *)
Fixpoint insert_by_count (x : Z * nat) (l : list (Z * nat)) : list (Z * nat) :=
  match l with
  | [] => [x]
  | y :: l' =>
      if (snd y <=? snd x)%nat then x :: l else y :: insert_by_count x l'
  end.

Definition sorted_by_count (items : list (Z * nat)) : list (Z * nat) :=
  foldr insert_by_count [] items.

(** The order of the sorted items. *)
Definition by_count (a b : Z * nat) : Prop := (snd b <= snd a)%nat.

(** The last loop: the first level of the sorted items that is a title
    level. *)
Definition most_level (bullets_size : Z) (items : list (Z * nat)) : Z :=
  match List.find (fun item => fst item <=? bullets_size) items with
  | Some item => fst item
  | None => bullets_size + 1
  end.

(** [title_frequency(bull, sections)] *)
Definition title_frequency (bull : Z) (sections : list (pystr * pystr))
    : result (Z * list Z) :=
  pats ← PyList.get BULLET_PATTERN bull;
  let bullets_size := Z.of_nat (length pats) in
  if bool_decide (sections = []) || (bull <? 0)
  then Ok (bullets_size + 1, replicate (length sections) (bullets_size + 1))
  else
    let levels := map (title_level pats) sections in
    Ok (most_level bullets_size (sorted_by_count (counter levels)), levels).

End TitleFrequency.

(** * Properties *)

(** ** Helper lemmas on Python strings and lists *)

Section PyFacts.
Import PyStr.

Lemma starts_with_app (p s : pystr) : starts_with p (p ++ s) = true.
Proof.
  induction p as [|a p IH]; simpl; [done|].
  by rewrite N.eqb_refl, IH.
Qed.

Lemma starts_with_prefix (p s : pystr) : starts_with p s = true -> exists r, s = p ++ r.
Proof.
  revert s. induction p as [|a p IH]; intros s H; simpl in *.
  - by exists s.
  - destruct s as [|b s]; [done|].
    apply andb_prop in H as [Hab Hp].
    apply N.eqb_eq in Hab as ->.
    destruct (IH _ Hp) as [r ->]. by exists r.
Qed.

Lemma slice_from_drop {A} (l : list A) (k : Z) :
  0 <= k <= Z.of_nat (length l) -> PyList.slice_from l k = drop (Z.to_nat k) l.
Proof.
  intros Hk. unfold PyList.slice_from.
  destruct (k <? 0) eqn:E; [apply Z.ltb_lt in E; lia|].
  by rewrite Z.min_l by lia.
Qed.

Lemma fold_left_cons {A B} (f : A -> B -> A) (x : B) (l : list B) (a : A) :
  fold_left f (x :: l) a = fold_left f l (f a x).
Proof. reflexivity. Qed.

Lemma omap_length_le {A B} (f : A -> option B) (l : list A) :
  (length (omap f l) <= length l)%nat.
Proof.
  induction l as [|x l IH]; csimpl; [lia|]. destruct (f x); csimpl; lia.
Qed.

Lemma snoc_cases {A} (l : list A) : l = [] \/ exists init lst, l = init ++ [lst].
Proof.
  induction l as [|x l _] using rev_ind; [by left|right; eauto].
Qed.

End PyFacts.

(** ** Budgeted flat merger *)

Section NaiveMergeFacts.
Import PyStr NaiveMerge.

Variable num_tokens_from_string : pystr -> Z.
Variable remove_tag : pystr -> pystr.

Local Abbreviation add_chunk := (add_chunk num_tokens_from_string remove_tag).
Local Abbreviation naive_merge := (naive_merge num_tokens_from_string remove_tag).
Local Abbreviation carry_over := (carry_over remove_tag).
Local Abbreviation default_run := (default_run num_tokens_from_string remove_tag).
Local Abbreviation overlap_inv := (overlap_inv remove_tag).

(** The two outcomes of [add_chunk] on a non-empty chunk list: a new chunk
    that starts with the carry-over of the last one, or the last chunk
    extended. *)
Lemma add_chunk_snoc ctn p init lst tks t pos :
  exists t' tks',
    (t = t' \/ exists pos', t' = t ++ pos') /\
    (add_chunk ctn p (init ++ [lst], tks) t pos
       = (init ++ [lst; carry_over p lst ++ t'], tks')
     \/ add_chunk ctn p (init ++ [lst], tks) t pos = (init ++ [lst ++ t'], tks')).
Proof.
  unfold NaiveMerge.add_chunk.
  rewrite last_snoc, removelast_last. simpl.
  rewrite (bool_decide_eq_false_2 (init ++ [lst] = [])) by (destruct init; simpl; discriminate).
  set (pos0 := if num_tokens_from_string t <? 8 then [] else pos).
  destruct (bool_decide (lst = []) || _).
  - destruct (find (carry_over p lst ++ t) pos0 <? 0).
    + exists (t ++ pos0). eexists. split; [right; eauto|left].
      by rewrite <- !app_assoc.
    + exists t. eexists. split; [by left|left].
      by rewrite <- !app_assoc.
  - destruct (find lst pos0 <? 0).
    + exists (t ++ pos0). eexists. split; [right; eauto|by right].
    + exists t. eexists. split; [by left|by right].
Qed.

Lemma default_run_cons ctn p sec pos sections st :
  default_run ctn p ((sec, pos) :: sections) st
    = default_run ctn p sections (add_chunk ctn p st ([NL] ++ sec) pos).
Proof. reflexivity. Qed.

Lemma naive_merge_default sections ctn delimiter p :
  naive_empty sections = false ->
  custom_delimiters delimiter = [] ->
  naive_merge sections ctn delimiter p
    = fst (default_run ctn p (naive_pairs sections) ([[]], [0])).
Proof.
  intros Hne Hd. unfold NaiveMerge.naive_merge. by rewrite Hne, Hd.
Qed.

Lemma naive_pairs_nonempty sections :
  naive_empty sections = false -> naive_pairs sections <> [].
Proof.
  destruct sections as [t|[l|l]]; simpl; [done| |];
    intros H%bool_decide_eq_false; by destruct l.
Qed.

(** An invariant of the chunk list that every [add_chunk] preserves. *)
Lemma default_run_invariant (I : list pystr -> Prop) ctn p :
  (forall init lst t, I (init ++ [lst]) -> NL ∈ t ->
     I (init ++ [lst; carry_over p lst ++ t])) ->
  (forall init lst t, I (init ++ [lst]) -> NL ∈ t -> I (init ++ [lst ++ t])) ->
  forall sections init lst tks,
    I (init ++ [lst]) ->
    exists init' lst',
      fst (default_run ctn p sections (init ++ [lst], tks)) = init' ++ [lst']
      /\ I (init' ++ [lst']).
Proof.
  intros Hnew Hext sections.
  induction sections as [|[sec pos] sections IH]; intros init lst tks HI.
  - simpl. eauto.
  - rewrite default_run_cons.
    destruct (add_chunk_snoc ctn p init lst tks ([NL] ++ sec) pos)
      as (t' & tks' & Ht' & [E|E]); rewrite E.
    + assert (NL ∈ t') by (destruct Ht' as [<-|[pos' ->]]; set_solver).
      replace (init ++ [lst; carry_over p lst ++ t'])
        with ((init ++ [lst]) ++ [carry_over p lst ++ t'])
        by (by rewrite <- app_assoc).
      apply IH. rewrite <- app_assoc. by apply Hnew.
    + assert (NL ∈ t') by (destruct Ht' as [<-|[pos' ->]]; set_solver).
      apply IH. by apply Hext.
Qed.

(** On an empty running chunk [add_chunk] always opens a new chunk. *)
Lemma add_chunk_opens ctn p init tks t pos :
  exists t' tks',
    add_chunk ctn p (init ++ [[]], tks) t pos
      = (init ++ [[]; carry_over p [] ++ t'], tks').
Proof.
  unfold NaiveMerge.add_chunk.
  rewrite last_snoc. simpl.
  rewrite (bool_decide_eq_false_2 (init ++ [[]] = [])) by (destruct init; simpl; discriminate).
  destruct (find _ _ <? 0); do 2 eexists; by rewrite <- !app_assoc.
Qed.

Lemma carry_over_bounds p (last_ck : pystr) :
  0 < p < 100 ->
  let overlapped := remove_tag last_ck in
  let k := len overlapped * (100 - p) / 100 in
  carry_over p last_ck = drop (Z.to_nat k) overlapped
  /\ 0 <= k <= len overlapped
  /\ p * len overlapped <= 100 * (len overlapped - k) < p * len overlapped + 100.
Proof.
  intros Hp overlapped k. unfold NaiveMerge.carry_over, overlap_start.
  fold overlapped.
  assert (HL : 0 <= len overlapped) by (unfold len; lia).
  rewrite Z.quot_div_nonneg by nia. fold k.
  assert (Hk : 100 * k <= len overlapped * (100 - p) < 100 * k + 100).
  { unfold k. pose proof (Z.mul_div_le (len overlapped * (100 - p)) 100 ltac:(lia)).
    pose proof (Z.mul_succ_div_gt (len overlapped * (100 - p)) 100 ltac:(lia)). lia. }
  assert (0 <= k) by (unfold k; apply Z.div_pos; nia).
  assert (k <= len overlapped) by nia.
  split; [|split; [lia|nia]].
  apply slice_from_drop. unfold len in *. lia.
Qed.

Lemma overlap_inv_new p init lst t :
  overlap_inv p (init ++ [lst]) -> NL ∈ t ->
  overlap_inv p (init ++ [lst; carry_over p lst ++ t]).
Proof.
  intros [Hadj Hnl] Ht.
  replace (init ++ [lst; carry_over p lst ++ t])
    with ((init ++ [lst]) ++ [carry_over p lst ++ t]) by (by rewrite <- app_assoc).
  assert (Hlen : length (init ++ [lst]) = S (length init))
    by (rewrite length_app; simpl; lia).
  split.
  - intros i prev next Hi HSi.
    destruct (decide (S i < length (init ++ [lst]))%nat) as [Hlt|Hge].
    + rewrite lookup_app_l in Hi by lia. rewrite lookup_app_l in HSi by lia. eauto.
    + pose proof (lookup_lt_Some _ _ _ HSi) as Hb. rewrite length_app in Hb. simpl in Hb.
      assert (i = length init) as -> by lia.
      rewrite lookup_app_l in Hi by lia.
      rewrite lookup_app_r in Hi by lia. rewrite Nat.sub_diag in Hi. simpl in Hi.
      rewrite lookup_app_r in HSi by lia.
      rewrite Hlen, Nat.sub_diag in HSi. simpl in HSi.
      simplify_eq. by apply prefix_app_r.
  - intros i c Hi Hc.
    destruct (decide (i < length (init ++ [lst]))%nat) as [Hlt|Hge].
    + rewrite lookup_app_l in Hc by lia. eauto.
    + pose proof (lookup_lt_Some _ _ _ Hc) as Hb. rewrite length_app in Hb. simpl in Hb.
      rewrite lookup_app_r in Hc by lia.
      assert (i - length (init ++ [lst]) = 0)%nat as E by lia.
      rewrite E in Hc. simpl in Hc. simplify_eq. set_solver.
Qed.

Lemma overlap_inv_extend p init lst t :
  overlap_inv p (init ++ [lst]) -> NL ∈ t -> overlap_inv p (init ++ [lst ++ t]).
Proof.
  intros [Hadj Hnl] Ht. split.
  - intros i prev next Hi HSi.
    pose proof (lookup_lt_Some _ _ _ HSi) as Hb. rewrite length_app in Hb. simpl in Hb.
    rewrite lookup_app_l in Hi by lia.
    destruct (decide (S i < length init)%nat) as [Hlt|Hge].
    + rewrite lookup_app_l in HSi by lia.
      apply (Hadj i); rewrite lookup_app_l by lia; done.
    + rewrite lookup_app_r in HSi by lia.
      assert (S i - length init = 0)%nat as E by lia.
      rewrite E in HSi. simpl in HSi. simplify_eq.
      apply prefix_app_r. apply (Hadj i).
      * rewrite lookup_app_l by lia. done.
      * rewrite lookup_app_r by lia. by rewrite E.
  - intros i c Hi Hc.
    pose proof (lookup_lt_Some _ _ _ Hc) as Hb. rewrite length_app in Hb. simpl in Hb.
    destruct (decide (i < length init)%nat) as [Hlt|Hge].
    + rewrite lookup_app_l in Hc by lia.
      apply (Hnl i); [done|]. by rewrite lookup_app_l by lia.
    + rewrite lookup_app_r in Hc by lia.
      assert (i - length init = 0)%nat as E by lia.
      rewrite E in Hc. simpl in Hc. simplify_eq. set_solver.
Qed.

(** C1 (as amended). In the default mode with [0 < overlapped_percent < 100],
    every chunk begins with the carry-over of the chunk before it: the
    tail of that chunk's de-tagged text from offset
    [len * (100 - p) / 100] on.  Its length is the de-tagged length minus
    that offset, hence between [p/100] of the de-tagged length and one
    character more; it is not empty when the de-tagged text is not, which
    is the case for every chunk after the initial one when de-tagging
    keeps newlines. *)
Theorem overlap_carry_over sections ctn delimiter p i prev next :
  custom_delimiters delimiter = [] ->
  0 < p < 100 ->
  naive_merge sections ctn delimiter p !! i = Some prev ->
  naive_merge sections ctn delimiter p !! S i = Some next ->
  let overlapped := remove_tag prev in
  let tail := carry_over p prev in
  tail `prefix_of` next
  /\ tail `suffix_of` overlapped
  /\ len tail = len overlapped - len overlapped * (100 - p) / 100
  /\ p * len overlapped <= 100 * len tail < p * len overlapped + 100
  /\ (overlapped <> [] -> tail <> [])
  /\ ((forall s, NL ∈ s -> remove_tag s <> []) -> (1 <= i)%nat -> tail <> []).
Proof.
  intros Hd Hp Hi HSi overlapped tail.
  destruct (naive_empty sections) eqn:Hne.
  { unfold NaiveMerge.naive_merge in Hi. by rewrite Hne in Hi. }
  rewrite naive_merge_default in Hi, HSi by done.
  destruct (default_run_invariant (overlap_inv p) ctn p
              (overlap_inv_new p) (overlap_inv_extend p)
              (naive_pairs sections) [] [] [0]) as (init' & lst' & E & [Hadj Hnl]).
  { split.
    - intros j ? ? _ H. by destruct j.
    - intros j ? Hj H. destruct j as [|j]; [lia|by destruct j]. }
  simpl in E. rewrite E in Hi, HSi.
  destruct (carry_over_bounds p prev Hp) as (Hdrop & Hk & Hlen).
  fold overlapped in Hdrop, Hk, Hlen. fold tail in Hdrop.
  set (k := len overlapped * (100 - p) / 100) in *.
  assert (Htl : len tail = len overlapped - k).
  { rewrite Hdrop. unfold len in *. rewrite length_drop. lia. }
  assert (Hne' : overlapped <> [] -> tail <> []).
  { intros Ho Ht. rewrite Ht in Htl.
    assert (0 < len overlapped)
      by (unfold len; destruct (decide (length overlapped = 0%nat)) as [E0|];
          [by apply nil_length_inv in E0|lia]).
    assert (0 < p * len overlapped) by (apply Z.mul_pos_pos; lia).
    unfold len in Htl at 1. simpl in Htl. lia. }
  split; [by eapply Hadj|].
  split; [rewrite Hdrop; apply suffix_drop|].
  split; [done|].
  split; [lia|].
  split; [done|].
  intros Hrt Hi1. apply Hne'. apply Hrt. by eapply Hnl.
Qed.

(** C10. In the default mode the result for a non-empty input starts with
    the empty string, the initial running chunk, followed by the chunks
    opened for the input. *)
Theorem naive_merge_first_chunk_empty sections ctn delimiter p :
  naive_empty sections = false ->
  custom_delimiters delimiter = [] ->
  exists rest, naive_merge sections ctn delimiter p = [] :: rest /\ rest <> [].
Proof.
  intros Hne Hd. rewrite naive_merge_default by done.
  pose proof (naive_pairs_nonempty _ Hne) as Hp.
  destruct (naive_pairs sections) as [|[sec pos] l]; [done|].
  rewrite default_run_cons.
  destruct (add_chunk_opens ctn p [] [0] ([NL] ++ sec) pos) as (t' & tks' & E).
  rewrite (E : add_chunk ctn p ([[]], [0]) ([NL] ++ sec) pos
                = ([[]; carry_over p [] ++ t'], tks')).
  set (I := fun cks : list pystr => exists rest, cks = [] :: rest /\ rest <> []).
  destruct (default_run_invariant I ctn p) with
    (sections := l) (init := [@nil N]) (lst := carry_over p [] ++ t') (tks := tks')
    as (init' & lst' & E' & rest & HI & Hrest).
  - intros init lst t (rest & Hc & Hr) _. exists (rest ++ [carry_over p lst ++ t]).
    split; [|by destruct rest].
    replace (init ++ [lst; carry_over p lst ++ t])
      with ((init ++ [lst]) ++ [carry_over p lst ++ t]) by (by rewrite <- app_assoc).
    by rewrite Hc.
  - intros init lst t (rest & Hc & Hr) _.
    destruct init as [|c init]; simpl in Hc; simplify_eq; try done.
    exists (init ++ [lst ++ t]). split; [done|by destruct init].
  - exists [carry_over p [] ++ t']. done.
  - simpl in E'. exists rest. split; [|done]. by rewrite <- HI, <- E'.
Qed.

(** *** Custom-delimiter mode *)

Lemma scan_literals_nonempty body s d :
  d ∈ scan_literals body s -> d <> [].
Proof.
  revert body. induction s as [|c s IH]; intros body; simpl; [set_solver|].
  destruct body as [b|].
  - destruct (c =? 96)%N.
    + destruct b as [|x b]; [apply IH|].
      intros [->|H]%elem_of_cons; [|by eapply IH].
      simpl. by destruct (rev b).
    + apply IH.
  - destruct (c =? 96)%N; apply IH.
Qed.

Lemma ordered_delimiters_nonempty delimiter d :
  d ∈ ordered_delimiters (custom_delimiters delimiter) -> d <> [].
Proof.
  unfold ordered_delimiters. rewrite merge_sort_Permutation, elem_of_remove_dups.
  apply scan_literals_nonempty.
Qed.

(** The pieces of the split that [re.fullmatch] does not recognise as a
    delimiter are exactly the segments: a segment cannot be a delimiter,
    since the delimiter would have matched where the segment starts. *)
Lemma scan_split_filter delims :
  (forall d, d ∈ delims -> d <> []) ->
  forall s skip cur,
    (skip <> 0%nat -> cur = []) ->
    (forall d, d ∈ delims -> cur <> [] -> starts_with d (rev cur ++ s) = false) ->
    List.filter (fun x => negb (bool_decide (x ∈ delims)))
      (flat_map split_piece (scan_split delims skip cur s))
    = map fst (scan_split delims skip cur s).
Proof.
  intros Hne.
  assert (Hseg : forall cur s,
    (forall d, d ∈ delims -> cur <> [] -> starts_with d (rev cur ++ s) = false) ->
    rev cur ∉ delims).
  { intros cur s Hinv Hin.
    destruct cur as [|c cur]; [by apply (Hne [])|].
    specialize (Hinv _ Hin ltac:(done)). by rewrite starts_with_app in Hinv. }
  induction s as [|c s IH]; intros skip cur Hskip Hinv; simpl.
  - rewrite bool_decide_eq_false_2 by eauto. done.
  - destruct skip as [|k].
    + destruct (delimiter_at delims (c :: s)) as [d|] eqn:Ed.
      * apply find_some in Ed as [Hd%list_elem_of_In _].
        simpl. rewrite bool_decide_eq_false_2 by eauto.
        rewrite (bool_decide_eq_true_2 (d ∈ delims)) by done. simpl.
        f_equal. apply IH; [done|]. by intros.
      * apply IH; [done|].
        intros d Hd _. simpl. rewrite <- app_assoc. simpl.
        destruct cur as [|x cur].
        -- simpl. eapply find_none in Ed; [exact Ed|by apply list_elem_of_In].
        -- by apply Hinv.
    + apply IH.
      * intros _. by apply Hskip.
      * intros d Hd Hcur. by rewrite Hskip in Hcur.
Qed.

Lemma custom_section_segments delims sec pos :
  (forall d, d ∈ delims -> d <> []) ->
  custom_section num_tokens_from_string delims (sec, pos)
    = map (custom_chunk num_tokens_from_string pos) (segments delims sec).
Proof.
  intros Hne. unfold custom_section, re_split, segments. f_equal.
  apply (scan_split_filter delims Hne sec 0 []); done.
Qed.

Lemma custom_chunk_no_pos sub_sec :
  custom_chunk num_tokens_from_string [] sub_sec = [NL] ++ sub_sec.
Proof.
  unfold custom_chunk. by destruct (num_tokens_from_string _ <? 8).
Qed.

Lemma naive_merge_custom sections ctn delimiter p :
  custom_delimiters delimiter <> [] ->
  naive_merge sections ctn delimiter p
    = if naive_empty sections then []
      else flat_map
             (fun s => map (custom_chunk num_tokens_from_string (snd s))
                         (segments (ordered_delimiters (custom_delimiters delimiter)) (fst s)))
             (naive_pairs sections).
Proof.
  intros Hd. unfold NaiveMerge.naive_merge.
  destruct (naive_empty sections); [done|].
  rewrite bool_decide_eq_false_2 by done. simpl.
  apply flat_map_ext. intros [sec pos]. simpl.
  apply custom_section_segments. intros d. apply ordered_delimiters_nonempty.
Qed.

(** C2. With the delimiter [`\n\n`], or any delimiter specification
    whose only backtick-quoted literal is ["\n\n"], the section
    ["a\n\nb\n\nc"] gives exactly the chunks ["\na"], ["\nb"], ["\nc"],
    whatever the token budget (and the token counter); and in
    custom-delimiter mode in general the chunks are, section by section,
    one chunk per segment between the delimiter matches, the same for
    every token budget and overlap. *)
Theorem custom_delimiter_hard_split :
  (forall ctn p,
     naive_merge (One abc_section) ctn blank_line_delimiter p
       = [[NL] ++ u "a"; [NL] ++ u "b"; [NL] ++ u "c"]
     /\ naive_merge (Many (Texts [abc_section])) ctn blank_line_delimiter p
       = [[NL] ++ u "a"; [NL] ++ u "b"; [NL] ++ u "c"])
  /\ (forall delimiter ctn p,
        custom_delimiters delimiter = [[NL; NL]] ->
        naive_merge (One abc_section) ctn delimiter p
          = [[NL] ++ u "a"; [NL] ++ u "b"; [NL] ++ u "c"])
  /\ (forall sections ctn delimiter p,
        custom_delimiters delimiter <> [] ->
        let delims := ordered_delimiters (custom_delimiters delimiter) in
        naive_merge sections ctn delimiter p
          = (if naive_empty sections then []
             else flat_map
                    (fun s => map (custom_chunk num_tokens_from_string (snd s))
                                (segments delims (fst s)))
                    (naive_pairs sections))
        /\ (Z.of_nat (length (naive_merge sections ctn delimiter p))
            = if naive_empty sections then 0
              else Z.of_nat (length (flat_map (fun s => segments delims (fst s))
                                       (naive_pairs sections))))
        /\ forall ctn' p',
             naive_merge sections ctn' delimiter p' = naive_merge sections ctn delimiter p).
Proof.
  split.
  - intros ctn p.
    assert (Hd : custom_delimiters blank_line_delimiter <> []) by (vm_compute; discriminate).
    split; rewrite naive_merge_custom by done; simpl;
      rewrite !custom_chunk_no_pos; reflexivity.
  - split.
    { intros delimiter ctn p Hd.
      rewrite naive_merge_custom by (rewrite Hd; discriminate).
      rewrite Hd. simpl. rewrite !custom_chunk_no_pos. reflexivity. }
    intros sections ctn delimiter p Hd delims.
    split; [by apply naive_merge_custom|]. split.
    + rewrite naive_merge_custom by done. fold delims.
      destruct (naive_empty sections); [done|]. f_equal.
      induction (naive_pairs sections) as [|s l IH]; [done|].
      simpl. rewrite !length_app, length_map. by rewrite IH.
    + intros ctn' p'. by rewrite !naive_merge_custom.
Qed.

End NaiveMergeFacts.

Section NaiveMergeExamples.
Import PyStr NaiveMerge.

Lemma naive_merge_first_chunk_empty_witness :
  naive_empty (Many (Texts [u "abc"])) = false
  /\ custom_delimiters default_delimiter = []
  /\ exists rest,
       naive_merge one_token_per_char PositionTag.remove_tag
         (Many (Texts [u "abc"])) 128 default_delimiter 0 = [] :: rest
       /\ rest <> [].
Proof.
  split; [reflexivity|]. split; [reflexivity|].
  apply (naive_merge_first_chunk_empty one_token_per_char PositionTag.remove_tag
           (Many (Texts [u "abc"])) 128 default_delimiter 0); reflexivity.
Defined.

Lemma overlap_carry_over_witness :
  let cks := naive_merge one_token_per_char PositionTag.remove_tag
               (Many (Texts [u "012345678"; u "abc"])) 5 default_delimiter 10 in
  let prev := [NL] ++ u "012345678" in
  let next := u "8" ++ [NL] ++ u "abc" in
  custom_delimiters default_delimiter = []
  /\ 0 < 10 < 100
  /\ cks !! 1%nat = Some prev
  /\ cks !! 2%nat = Some next
  /\ carry_over PositionTag.remove_tag 10 prev `prefix_of` next
  /\ len (carry_over PositionTag.remove_tag 10 prev) = 1.
Proof.
  intros cks prev next.
  split; [reflexivity|]. split; [lia|]. split; [reflexivity|]. split; [reflexivity|].
  destruct (overlap_carry_over one_token_per_char PositionTag.remove_tag
              (Many (Texts [u "012345678"; u "abc"])) 5 default_delimiter 10
              1%nat prev next)
    as (Hpre & _ & Hlen & _); [reflexivity|lia|reflexivity|reflexivity|].
  split; [exact Hpre|exact Hlen].
Defined.

(** C1 (as stated) fails: with [overlapped_percent = 10] the chunk after
    ["\n012345678"] is ["8\nabc"]; it carries one character, not the nine
    that nine tenths of the previous chunk would be. *)
Lemma overlap_tail_is_not_the_complement_share :
  let cks := naive_merge one_token_per_char PositionTag.remove_tag
               (Many (Texts [u "012345678"; u "abc"])) 5 default_delimiter 10 in
  cks = [[]; [NL] ++ u "012345678"; u "8" ++ [NL] ++ u "abc"]
  /\ ~ complement_share_carried PositionTag.remove_tag 10
        ([NL] ++ u "012345678") (u "8" ++ [NL] ++ u "abc").
Proof.
  split; [reflexivity|].
  intros (tail & _ & Hpre & _ & Hlen).
  apply prefix_length in Hpre.
  replace (len (PositionTag.remove_tag ([NL] ++ u "012345678"))) with 10 in Hlen
    by reflexivity.
  unfold len in Hlen. simpl in Hpre. lia.
Qed.

Lemma custom_delimiter_hard_split_witness :
  custom_delimiters blank_line_delimiter <> []
  /\ forall ctn' p',
       naive_merge one_token_per_char PositionTag.remove_tag
         (One abc_section) ctn' blank_line_delimiter p'
       = naive_merge one_token_per_char PositionTag.remove_tag
           (One abc_section) 128 blank_line_delimiter 0.
Proof.
  assert (H : custom_delimiters blank_line_delimiter <> []) by discriminate.
  split; [exact H|].
  apply (proj2 (proj2 (custom_delimiter_hard_split one_token_per_char
                         PositionTag.remove_tag))
           (One abc_section) 128 blank_line_delimiter 0 H).
Defined.

End NaiveMergeExamples.

(** ** Style classifier *)

Section StyleClassifierFacts.
Import PyStr Regex Patterns StyleClassifier.

Lemma some_pattern_hits_counts pro sec :
  some_pattern_hits pro (strip sec) = counts_for pro sec.
Proof.
  unfold counts_for. induction pro as [|p pro IH]; simpl; [done|].
  rewrite IH. destruct (rmatch p (strip sec)), (not_bullet (strip sec)); simpl; try done.
  by rewrite andb_false_r.
Qed.

Lemma style_count_cons pro sec sections :
  style_count pro (sec :: sections)
    = (if counts_for pro sec then 1 else 0) + style_count pro sections.
Proof.
  unfold style_count. simpl. destruct (counts_for pro sec); simpl; lia.
Qed.

(** The inner loops add to [hits[i]] the number of lines that count for
    the style. *)
Lemma scan_sections_count i pro sections (hits : list Z) :
  (i < length hits)%nat ->
  scan_sections i pro sections hits
    = <[i := default 0 (hits !! i) + style_count pro sections]> hits.
Proof.
  unfold scan_sections. revert hits.
  induction sections as [|sec sections IH]; intros hits Hi; simpl.
  - destruct (lookup_lt_is_Some_2 hits i Hi) as [h Hh].
    rewrite Hh. simpl. unfold style_count. simpl.
    rewrite Z.add_0_r. by rewrite list_insert_id.
  - rewrite some_pattern_hits_counts, style_count_cons.
    destruct (counts_for pro sec).
    + rewrite IH by (by rewrite length_insert).
      rewrite list_lookup_insert_eq by done. simpl.
      rewrite list_insert_insert_eq. f_equal. lia.
    + rewrite IH by done. f_equal.
Qed.

Lemma count_hits_from styles sections (pre : list Z) :
  fold_left
    (fun hits '(i, pro) => scan_sections i pro sections hits)
    (imap (fun i pro => ((length pre + i)%nat, pro)) styles)
    (pre ++ replicate (length styles) 0)
  = pre ++ map (fun pro => style_count pro sections) styles.
Proof.
  revert pre. induction styles as [|pro styles IH]; intros pre; [done|].
  rewrite imap_cons. simpl.
  rewrite scan_sections_count by (rewrite length_app; simpl; lia).
  rewrite Nat.add_0_r.
  rewrite list_lookup_middle by done. simpl.
  rewrite insert_app_r_alt by lia. rewrite Nat.sub_diag. simpl.
  specialize (IH (pre ++ [style_count pro sections])).
  rewrite <- !app_assoc in IH. simpl in IH. rewrite <- IH.
  f_equal. apply imap_ext. intros j x _. simpl.
  rewrite length_app. simpl. f_equal. lia.
Qed.

Lemma count_hits_counts styles sections :
  count_hits styles sections = map (fun pro => style_count pro sections) styles.
Proof. apply (count_hits_from styles sections []). Qed.

Lemma select_step_selected pre st h :
  selected pre st -> selected (pre ++ [h]) (select_step st (length pre, h)).
Proof.
  destruct st as [m r]. unfold select_step.
  assert (Hlook : forall j c, (pre ++ [h]) !! j = Some c ->
            pre !! j = Some c \/ (j = length pre /\ c = h)).
  { intros j c Hj. apply lookup_app_Some in Hj as [?|[? Hj]]; [by left|right].
    apply list_lookup_singleton_Some in Hj as [? ->]. split; [lia|done]. }
  intros Hsel.
  destruct (h <=? m) eqn:E; [apply Z.leb_le in E|apply Z.leb_gt in E];
    destruct Hsel as [(-> & -> & Hall)|(i & -> & Hi & Hpos & Hmax & Hfirst)].
  - left. split; [done|]. split; [done|].
    intros x [?|Hx%list_elem_of_singleton]%elem_of_app; [eauto|by subst].
  - right. exists i. split; [done|].
    split; [by apply lookup_app_l_Some|]. split; [done|]. split.
    + intros j c [Hj|[-> ->]]%Hlook; [eauto|done].
    + intros j c Hlt [Hj|[-> ->]]%Hlook; [eauto|].
      apply lookup_lt_Some in Hi. lia.
  - right. exists (length pre). split; [done|].
    split; [by rewrite list_lookup_middle|]. split; [lia|]. split.
    + intros j c [Hj|[-> ->]]%Hlook; [|lia].
      assert (c <= 0) by (apply Hall; by eapply list_elem_of_lookup_2). lia.
    + intros j c Hlt [Hj|[-> ->]]%Hlook; [|lia].
      assert (c <= 0) by (apply Hall; by eapply list_elem_of_lookup_2). lia.
  - right. exists (length pre). split; [done|].
    split; [by rewrite list_lookup_middle|]. split; [lia|]. split.
    + intros j c [Hj|[-> ->]]%Hlook; [|lia]. specialize (Hmax _ _ Hj). lia.
    + intros j c Hlt [Hj|[-> ->]]%Hlook; [|lia]. specialize (Hmax _ _ Hj). lia.
Qed.

Lemma select_fold_selected rest pre st :
  selected pre st ->
  selected (pre ++ rest)
    (fold_left select_step (imap (fun i h => ((length pre + i)%nat, h)) rest) st).
Proof.
  revert pre st. induction rest as [|h rest IH]; intros pre st Hst.
  - by rewrite app_nil_r.
  - rewrite imap_cons. simpl. rewrite Nat.add_0_r.
    apply (select_step_selected pre st h) in Hst.
    apply IH in Hst. rewrite <- app_assoc in Hst. simpl in Hst.
    erewrite imap_ext; [exact Hst|].
    intros j x _. simpl. rewrite length_app. simpl. f_equal. lia.
Qed.

Lemma select_style_selected hits :
  exists maximum, selected hits (maximum, select_style hits).
Proof.
  unfold select_style.
  pose proof (select_fold_selected hits [] (0, -1)) as H. simpl in H.
  destruct (fold_left _ _ _) as [m r]. exists m. apply H.
  left. split; [done|]. split; [done|]. intros h Hh. by apply not_elem_of_nil in Hh.
Qed.

Lemma style_count_nonneg pro sections : 0 <= style_count pro sections.
Proof. unfold style_count. lia. Qed.

Lemma style_count_zero pro sections :
  style_count pro sections = 0 <-> forall sec, sec ∈ sections -> counts_for pro sec = false.
Proof.
  induction sections as [|sec sections IH].
  - split; [intros _ sec Hs; by apply not_elem_of_nil in Hs|done].
  - rewrite style_count_cons.
    pose proof (style_count_nonneg pro sections).
    split.
    + intros H0 x [->|Hx]%elem_of_cons.
      * destruct (counts_for pro sec); [lia|done].
      * apply IH; [|done]. destruct (counts_for pro sec); lia.
    + intros Hall. rewrite (Hall sec) by apply list_elem_of_here.
      rewrite (proj2 IH); [done|]. intros x Hx. by apply Hall, list_elem_of_further.
Qed.

Lemma style_count_perm pro sections sections' :
  sections ≡ₚ sections' -> style_count pro sections' = style_count pro sections.
Proof.
  intros Hp. unfold style_count.
  induction Hp as [|x l l' Hp IH|x y l|l l' l'' Hp1 IH1 Hp2 IH2]; simpl.
  - done.
  - destruct (counts_for pro x); simpl; lia.
  - destruct (counts_for pro x), (counts_for pro y); simpl; lia.
  - lia.
Qed.

(** C5. [bullets_category] returns -1 when no sample line counts for any
    of the five styles (trimmed, it matches a pattern of the style and
    passes [not_bullet]); otherwise it returns the index of a style whose
    count is the greatest, and among such styles the first; the result
    does not depend on the order of the sample. *)
Theorem bullets_category_spec sections :
  let counts := map (fun pro => style_count pro sections) BULLET_PATTERN in
  length counts = 5%nat
  /\ ((forall pro sec, pro ∈ BULLET_PATTERN -> sec ∈ sections ->
         counts_for pro sec = false) ->
      bullets_category sections = -1)
  /\ ((exists pro sec, pro ∈ BULLET_PATTERN /\ sec ∈ sections
         /\ counts_for pro sec = true) ->
      exists i c,
        bullets_category sections = Z.of_nat i
        /\ counts !! i = Some c /\ 0 < c
        /\ (forall j c', counts !! j = Some c' -> c' <= c)
        /\ (forall j c', (j < i)%nat -> counts !! j = Some c' -> c' < c))
  /\ (forall sections', sections ≡ₚ sections' ->
        bullets_category sections' = bullets_category sections).
Proof.
  intros counts. split; [reflexivity|].
  unfold bullets_category. rewrite count_hits_counts. fold counts.
  destruct (select_style_selected counts) as [m Hsel].
  assert (Hcount : forall i c, counts !! i = Some c ->
            exists pro, pro ∈ BULLET_PATTERN /\ c = style_count pro sections).
  { intros i c Hi. unfold counts in Hi. rewrite list_lookup_fmap in Hi.
    destruct (BULLET_PATTERN !! i) as [pro|] eqn:Ep; simplify_eq/=.
    exists pro. split; [by eapply list_elem_of_lookup_2|done]. }
  split; [|split].
  - intros Hnone.
    destruct Hsel as [(-> & _)|(i & _ & Hi & Hpos & _)]; [done|].
    destruct (Hcount _ _ Hi) as (pro & Hpro & ->).
    rewrite (proj2 (style_count_zero pro sections)) in Hpos; [lia|eauto].
  - intros (pro & sec & Hpro & Hsec & Hc).
    destruct Hsel as [(_ & _ & Hall)|(i & -> & Hi & Hpos & Hmax & Hfirst)].
    + assert (Hin : style_count pro sections ∈ counts)
        by (unfold counts; apply list_elem_of_fmap; eauto).
      apply Hall in Hin.
      assert (style_count pro sections = 0)
        by (pose proof (style_count_nonneg pro sections); lia).
      rewrite (proj1 (style_count_zero pro sections) ltac:(done) sec Hsec) in Hc. done.
    + exists i, m. eauto.
  - intros sections' Hp. rewrite count_hits_counts. f_equal.
    apply map_ext. intros pro. by apply style_count_perm.
Qed.

End StyleClassifierFacts.

Section StyleClassifierExamples.
Import PyStr Patterns StyleClassifier.

Lemma bullets_category_spec_witness :
  let sections := [u "# A"; u "## B"; u "hello"] in
  (exists pro sec, pro ∈ BULLET_PATTERN /\ sec ∈ sections /\ counts_for pro sec = true)
  /\ sections ≡ₚ [u "hello"; u "# A"; u "## B"]
  /\ bullets_category sections = 4
  /\ bullets_category [u "hello"; u "# A"; u "## B"] = bullets_category sections.
Proof.
  intros sections.
  assert (H : exists pro sec,
             pro ∈ BULLET_PATTERN /\ sec ∈ sections /\ counts_for pro sec = true).
  { exists (nth 4 BULLET_PATTERN []), (u "# A").
    split; [apply list_elem_of_lookup; exists 4%nat; reflexivity|].
    split; [apply list_elem_of_here|reflexivity]. }
  assert (Hp : sections ≡ₚ [u "hello"; u "# A"; u "## B"]).
  { unfold sections.
    etrans; [apply Permutation_skip, Permutation_swap|apply Permutation_swap]. }
  split; [exact H|]. split; [exact Hp|]. split; [reflexivity|].
  apply (proj2 (proj2 (proj2 (bullets_category_spec sections))) _ Hp).
Defined.

End StyleClassifierExamples.

(** ** Tree merger: the grouping level *)

Section TargetLevelFacts.
Import PyStr Regex Patterns TreeMerge.

Lemma get_at {A} (l : list A) (i : Z) (j : nat) (x : A) :
  l !! j = Some x ->
  Z.of_nat j = (if i <? 0 then i + Z.of_nat (length l) else i) ->
  PyList.get l i = Ok x.
Proof.
  intros Hj Hi. unfold PyList.get. rewrite <- Hi.
  pose proof (lookup_lt_Some _ _ _ Hj).
  destruct (Z.of_nat j <? 0) eqn:E1; [apply Z.ltb_lt in E1; lia|].
  destruct (Z.of_nat (length l) <=? Z.of_nat j) eqn:E2; [apply Z.leb_le in E2; lia|].
  simpl. by rewrite Nat2Z.id, Hj.
Qed.

Lemma get_elem_of {A} (l : list A) (i : Z) (x : A) :
  PyList.get l i = Ok x -> x ∈ l.
Proof.
  unfold PyList.get. destruct (_ || _); [done|].
  destruct (l !! _) eqn:E; [|done]. intros [= <-]. by eapply list_elem_of_lookup_2.
Qed.

Lemma get_last_snoc {A} (init : list A) (x : A) : PyList.get (init ++ [x]) (-1) = Ok x.
Proof.
  apply get_at with (j := length init); [by rewrite list_lookup_middle|].
  rewrite length_app. simpl. lia.
Qed.

Lemma get_second_last_snoc {A} (init : list A) (a b : A) :
  PyList.get (init ++ [a; b]) (-2) = Ok a.
Proof.
  apply get_at with (j := length init); [by rewrite list_lookup_middle|].
  rewrite length_app. simpl. lia.
Qed.

Lemma first_match_range pats text i j :
  first_match pats text i = Some j -> (i <= j < i + length pats)%nat.
Proof.
  revert i. induction pats as [|p pats IH]; intros i; simpl; [done|].
  destruct (rmatch p text); [intros [= <-]; lia|].
  intros H%IH. lia.
Qed.

Lemma get_level_range pats section :
  1 <= fst (get_level pats section) <= Z.of_nat (length pats) + 2.
Proof.
  destruct section as [text layout]. unfold get_level.
  destruct (first_match _ _ _) as [j|] eqn:E.
  - apply first_match_range in E. simpl. lia.
  - destruct (_ && _); simpl; lia.
Qed.

Lemma tree_lines_range pats sections l :
  l ∈ tree_lines pats sections ->
  1 <= fst l <= Z.of_nat (length pats) + 2.
Proof.
  unfold tree_lines. intros Hl%list_elem_of_In%filter_In.
  destruct Hl as [Hl%in_map_iff _]. destruct Hl as (s & <- & _).
  apply get_level_range.
Qed.

Lemma sorted_levels_elem_of lines l :
  l ∈ sorted_levels lines <-> l ∈ map fst lines.
Proof.
  unfold sorted_levels, level_set.
  by rewrite merge_sort_Permutation, elem_of_elements, elem_of_list_to_set.
Qed.

Lemma strictly_sorted (l : list Z) :
  StronglySorted Z.le l -> NoDup l -> StronglySorted Z.lt l.
Proof.
  induction 1 as [|a l Hs IH Hall]; intros Hnd; constructor.
  - apply IH. by apply NoDup_cons in Hnd as [_ ?].
  - apply NoDup_cons in Hnd as [Ha _].
    apply Forall_forall. intros x Hx.
    assert (a <= x) by (eapply Forall_forall in Hall; [exact Hall|done]).
    assert (a <> x) by (intros ->; by apply Ha, list_elem_of_In).
    lia.
Qed.

Lemma sorted_levels_sorted lines : StronglySorted Z.lt (sorted_levels lines).
Proof.
  unfold sorted_levels. apply strictly_sorted.
  - apply StronglySorted_merge_sort; [apply _|]. intros x y. lia.
  - rewrite merge_sort_Permutation. apply NoDup_elements.
Qed.

Lemma clamp_depth_elem_of sl dpt t : clamp_depth sl dpt = Ok t -> t ∈ sl.
Proof. unfold clamp_depth. destruct (dpt <=? _); apply get_elem_of. Qed.

(** C3. For a non-empty set of assigned levels: a [depth] beyond the
    number of distinct levels resolves to the deepest level present; a
    resolved level equal to the plain-body sentinel [pattern_count + 2] is
    stepped back to the deepest level present below the sentinel, unless
    the sentinel is the only level present, in which case it stays the
    grouping level; any other resolved level is kept. *)
Theorem tree_merge_target_level pats sections dpt :
  let lines := tree_lines pats sections in
  let n := Z.of_nat (length pats) in
  let sl := sorted_levels lines in
  lines <> [] ->
  (forall l, l ∈ sl <-> l ∈ map fst lines)
  /\ (Z.of_nat (length sl) < dpt ->
      exists deepest,
        clamp_depth sl dpt = Ok deepest
        /\ deepest ∈ sl /\ forall l, l ∈ sl -> l <= deepest)
  /\ (forall t, clamp_depth sl dpt = Ok t -> t = n + 2 -> sl <> [n + 2] ->
      exists t',
        target_level n sl dpt = Ok t'
        /\ t' ∈ sl /\ t' < n + 2
        /\ forall l, l ∈ sl -> l < n + 2 -> l <= t')
  /\ (forall t, clamp_depth sl dpt = Ok t -> sl = [n + 2] ->
      target_level n sl dpt = Ok (n + 2))
  /\ (forall t, clamp_depth sl dpt = Ok t -> t <> n + 2 ->
      target_level n sl dpt = Ok t).
Proof.
  intros lines n sl Hne.
  pose proof (sorted_levels_sorted lines) as Hsorted. fold sl in Hsorted.
  assert (Hrange : forall l, l ∈ sl -> 1 <= l <= n + 2).
  { intros l Hl%sorted_levels_elem_of%list_elem_of_In%in_map_iff.
    destruct Hl as (x & <- & Hx). by apply (tree_lines_range pats sections), list_elem_of_In. }
  assert (Hsl : sl <> []).
  { intros E. destruct lines as [|x lines'] eqn:El; [done|].
    assert (fst x ∈ sl) as Hx by (apply sorted_levels_elem_of; simpl; apply list_elem_of_here).
    rewrite E in Hx. by apply not_elem_of_nil in Hx. }
  destruct (snoc_cases sl) as [?|(init & deepest & Esl)]; [done|].
  assert (Hmax : forall l, l ∈ sl -> l <= deepest).
  { rewrite Esl. intros l [Hl|Hl%list_elem_of_singleton]%elem_of_app; [|lia].
    rewrite Esl in Hsorted.
    pose proof (StronglySorted_app_1_elem_of _ _ _ l deepest Hsorted Hl
                  ltac:(apply list_elem_of_here)). lia. }
  assert (Hdeep : deepest ∈ sl) by (rewrite Esl; apply elem_of_app; right; apply list_elem_of_here).
  split; [apply sorted_levels_elem_of|].
  split; [|split; [|split]].
  - intros Hd. exists deepest. split; [|done].
    unfold clamp_depth. destruct (dpt <=? _) eqn:E; [apply Z.leb_le in E; lia|].
    rewrite Esl. apply get_last_snoc.
  - intros t Ht -> Hnot.
    unfold target_level. rewrite Ht. simpl. unfold step_back.
    rewrite Z.eqb_refl.
    destruct (snoc_cases init) as [->|(init' & t' & ->)].
    + (* a single level: it is the sentinel *)
      exfalso. apply Hnot. rewrite Esl. simpl. f_equal.
      apply clamp_depth_elem_of in Ht. rewrite Esl in Ht. simpl in Ht.
      by apply list_elem_of_singleton in Ht.
    + rewrite <- app_assoc in Esl. simpl in Esl.
      assert (Hlen : (1 <? Z.of_nat (length sl)) = true).
      { apply Z.ltb_lt. rewrite Esl, length_app. simpl. lia. }
      rewrite Hlen. exists t'.
      assert (Ht' : t' < deepest).
      { rewrite Esl in Hsorted. apply StronglySorted_app_1_r in Hsorted.
        inversion Hsorted as [|? ? _ Hall]; subst.
        by inversion Hall. }
      assert (deepest <= n + 2) by (apply Hrange; done).
      split; [rewrite Esl; apply get_second_last_snoc|].
      split; [rewrite Esl; apply elem_of_app; right; apply list_elem_of_here|].
      split; [lia|].
      intros l Hl Hlt. rewrite Esl in Hl.
      apply elem_of_app in Hl as [Hl|Hl].
      * rewrite Esl in Hsorted.
        pose proof (StronglySorted_app_1_elem_of _ _ _ l t' Hsorted Hl
                      ltac:(apply list_elem_of_here)). lia.
      * apply elem_of_cons in Hl as [->|Hl]; [lia|].
        apply list_elem_of_singleton in Hl as ->.
        apply clamp_depth_elem_of, Hmax in Ht. lia.
  - intros t Ht E.
    assert (t = n + 2) as ->.
    { apply clamp_depth_elem_of in Ht. rewrite E in Ht. by apply list_elem_of_singleton in Ht. }
    unfold target_level. rewrite Ht. simpl. unfold step_back.
    rewrite Z.eqb_refl, E. reflexivity.
  - intros t Ht Hne'. unfold target_level. rewrite Ht. simpl. unfold step_back.
    destruct (t =? n + 2) eqn:E; [apply Z.eqb_eq in E; lia|done].
Qed.

End TargetLevelFacts.

(** ** Tree merger: the tree *)

Section BuildTreeFacts.
Import PyStr TreeMerge.

Lemma add_text_lookup top text h j n' :
  add_text top text h !! j = Some n' ->
  exists n, h !! j = Some n /\ level n' = level n /\ depth n' = depth n
            /\ children n' = children n.
Proof.
  unfold add_text. rewrite list_lookup_alter.
  destruct (decide (top = j)) as [->|_].
  - destruct (h !! j) as [n|]; [|done]. intros [= <-]. by exists n.
  - intros H. by exists n'.
Qed.

Lemma add_child_lookup top c h j n' :
  add_child top c h !! j = Some n' ->
  exists n, h !! j = Some n /\ level n' = level n /\ depth n' = depth n
            /\ (children n' = children n \/ (j = top /\ children n' = children n ++ [c])).
Proof.
  unfold add_child. rewrite list_lookup_alter.
  destruct (decide (top = j)) as [->|_].
  - destruct (h !! j) as [n|]; [|done]. intros [= <-]. exists n. simpl. eauto 10.
  - intros H. exists n'. eauto.
Qed.

Lemma pop_to_parent_spec h lvl stack :
  stack <> [] ->
  exists top rest,
    pop_to_parent h lvl stack = top :: rest
    /\ (forall i, i ∈ top :: rest -> i ∈ stack)
    /\ last (top :: rest) = last stack
    /\ (rest = [] \/ get_level_of h top < lvl).
Proof.
  induction stack as [|top stack IH]; [done|]. intros _. simpl.
  destruct stack as [|x stack].
  - exists top, []. eauto.
  - destruct (lvl <=? get_level_of h top) eqn:E.
    + destruct IH as (top' & rest' & -> & Hin & Hlast & Hlvl); [done|].
      exists top', rest'. split; [done|].
      split; [intros i Hi; by apply list_elem_of_further, Hin|]. split; [|done].
      by rewrite Hlast.
    + apply Z.leb_gt in E. exists top, (x :: stack). eauto.
Qed.

Lemma tree_inv_step rlevel rdepth st lvl text :
  tree_inv rlevel rdepth st ->
  (beyond_limit rdepth lvl = false -> rlevel < lvl) ->
  tree_inv rlevel rdepth (build_step 0 st (lvl, text))
  /\ length (fst (build_step 0 st (lvl, text)))
     = (length (fst st) + if beyond_limit rdepth lvl then 0 else 1)%nat.
Proof.
  destruct st as [h stack].
  intros ((root & Hroot & Hrl & Hrd) & Hstack & Hlast & Hvalid & Hlevels) Hlvl.
  unfold build_step.
  assert (Hd : depth_of h 0 = rdepth) by (unfold depth_of; by rewrite Hroot).
  rewrite Hd.
  assert (Hne : stack <> []) by (by destruct stack).
  destruct (beyond_limit rdepth lvl) eqn:Eb.
  - (* folded into the node on top of the stack *)
    destruct stack as [|top rest]; [done|]. simpl.
    split; [|unfold add_text; rewrite length_alter; lia].
    split; [|split; [|split; [|split]]].
    + unfold add_text. rewrite list_lookup_alter.
      destruct (decide (top = 0%nat)) as [->|]; rewrite ?Hroot; simpl; eauto.
    + intros i Hi. unfold add_text. rewrite length_alter. eauto.
    + done.
    + intros i n' c (n & Hn & _ & _ & Hc)%add_text_lookup Hin.
      unfold add_text. rewrite length_alter. rewrite Hc in Hin. eauto.
    + intros i n' c cn' (n & Hn & Hl & _ & Hc)%add_text_lookup Hin
        (cn & Hcn & Hl' & _)%add_text_lookup.
      rewrite Hl, Hl'. rewrite Hc in Hin. eauto.
  - (* a new node under the nearest shallower node of the stack *)
    specialize (Hlvl eq_refl).
    destruct (pop_to_parent_spec h lvl stack Hne)
      as (top & rest & -> & Hin & Hlast' & Hparent).
    simpl fst.
    assert (Htop : (top < length h)%nat) by (apply Hstack, Hin, list_elem_of_here).
    assert (Hlen : length (add_child top (length h) (h ++ [new_node lvl (-1) [text]]))
                   = S (length h)).
    { unfold add_child. rewrite length_alter, length_app. simpl. lia. }
    split; [|rewrite Hlen; lia].
    assert (Hback : forall j n', add_child top (length h) (h ++ [new_node lvl (-1) [text]]) !! j
                = Some n' ->
              exists n, level n' = level n /\ depth n' = depth n
                /\ ((h !! j = Some n
                      /\ (children n' = children n
                          \/ (j = top /\ children n' = children n ++ [length h])))
                    \/ (j = length h /\ n = new_node lvl (-1) [text]
                        /\ children n' = []))).
    { intros j n' (n & Hn & Hl & Hdp & Hc)%add_child_lookup. exists n.
      split; [done|]. split; [done|].
      apply lookup_app_Some in Hn as [Hn|[Hge Hn]].
      - left. eauto.
      - right. apply list_lookup_singleton_Some in Hn as [Hj <-].
        assert (j = length h) as -> by lia. split; [done|]. split; [done|].
        destruct Hc as [Hc|[E _]]; [done|lia]. }
    split; [|split; [|split; [|split]]].
    + destruct (lookup_lt_is_Some_2
                  (add_child top (length h) (h ++ [new_node lvl (-1) [text]])) 0%nat
                  ltac:(lia)) as [r' Hr'].
      exists r'. split; [done|].
      destruct (Hback _ _ Hr') as (n & Hl & Hdp & [[Hn _]|[Hj _]]).
      * rewrite Hroot in Hn. injection Hn as <-. by rewrite Hl, Hdp.
      * apply lookup_lt_Some in Hroot. lia.
    + intros i Hi. rewrite Hlen.
      apply elem_of_cons in Hi as [->|Hi]; [lia|].
      apply Hin, Hstack in Hi. lia.
    + rewrite <- Hlast, <- Hlast'. done.
    + intros i n' c Hn' Hc. rewrite Hlen.
      destruct (Hback _ _ Hn') as (n & _ & _ & [[Hn [E|[_ E]]]|(_ & _ & E)]);
        rewrite E in Hc.
      * specialize (Hvalid _ _ _ Hn Hc). lia.
      * apply elem_of_app in Hc as [Hc|Hc%list_elem_of_singleton]; [|lia].
        specialize (Hvalid _ _ _ Hn Hc). lia.
      * by apply not_elem_of_nil in Hc.
    + intros i n' c cn' Hn' Hc Hcn'.
      destruct (Hback _ _ Hn') as (n & Hl & _ & Hcase).
      destruct (Hback _ _ Hcn') as (cn & Hl' & _ & Hcase').
      rewrite Hl, Hl'.
      assert (Hold : c ∈ children n -> h !! i = Some n -> level n < level cn).
      { intros Hc0 Hn. pose proof (Hvalid _ _ _ Hn Hc0) as Hlt.
        destruct Hcase' as [[Hcn _]|[-> _]]; [eauto|lia]. }
      destruct Hcase as [[Hn [E|[-> E]]]|(_ & _ & E)]; rewrite E in Hc.
      * by apply Hold.
      * apply elem_of_app in Hc as [Hc|Hc%list_elem_of_singleton]; [by apply Hold|].
        subst c.
        destruct Hcase' as [[Hcn _]|(_ & -> & _)];
          [apply lookup_lt_Some in Hcn; lia|].
        simpl.
        destruct Hparent as [->|Hp].
        -- simpl in Hlast'. rewrite <- Hlast' in Hlast. injection Hlast as ->.
           rewrite Hroot in Hn. injection Hn as <-. lia.
        -- unfold get_level_of in Hp. by rewrite Hn in Hp.
      * by apply not_elem_of_nil in Hc.
Qed.

Lemma tree_inv_fold rlevel rdepth lines st :
  tree_inv rlevel rdepth st ->
  (forall l, l ∈ lines -> beyond_limit rdepth (fst l) = false -> rlevel < fst l) ->
  tree_inv rlevel rdepth (fold_left (build_step 0) lines st)
  /\ length (fst (fold_left (build_step 0) lines st))
     = (length (fst st)
        + length (List.filter (fun l => negb (beyond_limit rdepth (fst l))) lines))%nat.
Proof.
  revert st. induction lines as [|[lvl text] lines IH]; intros st Hst Hl.
  - simpl. split; [done|lia].
  - simpl fold_left.
    destruct (tree_inv_step rlevel rdepth st lvl text Hst) as [Hst' Hlen].
    { apply (Hl (lvl, text)), list_elem_of_here. }
    destruct (IH _ Hst') as [Hfin Hlen'].
    { intros l Hin. by apply Hl, list_elem_of_further. }
    split; [done|]. rewrite Hlen', Hlen. simpl.
    destruct (beyond_limit rdepth lvl); simpl; lia.
Qed.

(** C4 (as amended). For lines whose levels are all greater than the
    level of the root, every child of the tree that [build_tree] builds
    lies deeper than its parent.  A line whose level exceeds the depth
    limit of the root (a limit is set when [depth] is not -1) creates no
    node, so the tree has one node per line within the limit besides the
    root; the text of such a line is appended to the texts of the node on
    top of the stack. *)
Theorem build_tree_child_levels rlevel rdepth rtexts lines :
  (forall l, l ∈ lines -> rlevel < fst l) ->
  let h := build_tree 0 lines [new_node rlevel rdepth rtexts] in
  (forall i n c cn,
     h !! i = Some n -> c ∈ children n -> h !! c = Some cn -> level n < level cn)
  /\ length h
     = S (length (List.filter (fun l => negb (beyond_limit rdepth (fst l))) lines))
  /\ (forall h0 top rest lvl text,
        beyond_limit (depth_of h0 0) lvl = true ->
        build_step 0 (h0, top :: rest) (lvl, text) = (add_text top text h0, top :: rest)).
Proof.
  intros Hl h.
  destruct (tree_inv_fold rlevel rdepth lines ([new_node rlevel rdepth rtexts], [0%nat]))
    as [Hinv Hlen].
  { split; [by eexists|]. split.
    - intros i Hi%list_elem_of_singleton. subst. simpl. lia.
    - split; [done|]. split.
      + intros [|i] n c Hn Hc; simplify_eq/=. by apply not_elem_of_nil in Hc.
      + intros [|i] n c cn Hn Hc; simplify_eq/=. by apply not_elem_of_nil in Hc. }
  { intros l Hin _. by apply Hl. }
  unfold h, build_tree.
  destruct (fold_left _ _ _) as [hf stack] eqn:E.
  destruct Hinv as (_ & _ & _ & _ & Hlevels).
  split; [exact Hlevels|]. split; [exact Hlen|].
  intros h0 top rest lvl text Hb. unfold build_step. by rewrite Hb.
Qed.

End BuildTreeFacts.

Section TreeMergeExamples.
Import PyStr Patterns TreeMerge.

Lemma tree_merge_target_level_witness :
  let pats := default [] (BULLET_PATTERN !! 4%nat) in
  let sections := [(u "# Heading", []); (u "plain body text", [])] in
  let lines := tree_lines pats sections in
  lines <> []
  /\ sorted_levels lines = [1; 8]
  /\ clamp_depth (sorted_levels lines) 5 = Ok 8
  /\ exists t',
       target_level 6 (sorted_levels lines) 5 = Ok t'
       /\ t' ∈ sorted_levels lines /\ t' < 6 + 2
       /\ forall l, l ∈ sorted_levels lines -> l < 6 + 2 -> l <= t'.
Proof.
  intros pats sections lines.
  assert (Hne : lines <> []) by discriminate.
  split; [exact Hne|]. split; [reflexivity|]. split; [reflexivity|].
  apply (proj1 (proj2 (proj2 (tree_merge_target_level pats sections 5 Hne))) 8);
    [reflexivity|reflexivity|discriminate].
Defined.

Lemma build_tree_child_levels_witness :
  let lines := [(1, u "a"); (2, u "b"); (3, u "c"); (1, u "d")] in
  (forall l, l ∈ lines -> 0 < fst l)
  /\ length (build_tree 0 lines [new_node 0 2 []]) = 4%nat.
Proof.
  intros lines.
  assert (H : forall l, l ∈ lines -> 0 < fst l).
  { intros l Hl. unfold lines in Hl.
    repeat (apply elem_of_cons in Hl as [->|Hl]; [simpl; lia|]).
    by apply not_elem_of_nil in Hl. }
  split; [exact H|].
  apply (proj1 (proj2 (build_tree_child_levels 0 2 [] lines H))).
Defined.

(** C4 (as stated) fails for a line at the level of the root: the root is
    never popped, so the line becomes a child of the root at the same
    level. *)
Lemma build_tree_child_at_root_level :
  let h := build_tree 0 [(0, u "x")] [new_node 0 3 []] in
  exists i n c cn,
    h !! i = Some n /\ c ∈ children n /\ h !! c = Some cn
    /\ ~ level n < level cn.
Proof.
  exists 0%nat, (mkNode 0 3 [] [1%nat]), 1%nat, (mkNode 0 (-1) [u "x"] []).
  split; [reflexivity|]. split; [apply list_elem_of_here|]. split; [reflexivity|].
  simpl. lia.
Qed.

End TreeMergeExamples.

(** ** Hierarchical bucket merger *)

Section HierarchicalMergeFacts.
Import PyStr Patterns HierarchicalMerge.

Lemma bs_loop_le fuel arr target s e jj :
  0 <= s ->
  (exists a, arr !! Z.to_nat s = Some a /\ (a <= target)%nat) ->
  bs_loop fuel arr target s e = Ok jj ->
  0 <= jj /\ exists v, arr !! Z.to_nat jj = Some v /\ (v <= target)%nat.
Proof.
  revert s e. induction fuel as [|fuel IH]; intros s e Hs Ha; simpl.
  - intros [= <-]. eauto.
  - destruct (1 <? e - s) eqn:E; [|intros [= <-]; eauto].
    apply Z.ltb_lt in E.
    destruct (arr !! Z.to_nat ((e + s) `div` 2)) as [a|] eqn:Ei; [|done].
    assert (0 <= (e + s) `div` 2) by (apply Z.div_pos; lia).
    destruct (a <? target)%nat eqn:E1.
    + apply Nat.ltb_lt in E1. apply IH; [done|]. exists a. split; [done|lia].
    + destruct (target <? a)%nat; [|done]. by apply IH.
Qed.

(** Whatever [binary_search] finds is not greater than the target. *)
Lemma binary_search_le arr target jj :
  binary_search arr target = Ok jj -> 0 <= jj ->
  exists v, PyList.get arr jj = Ok v /\ (v <= target)%nat.
Proof.
  unfold binary_search. destruct arr as [|a0 arr']; [intros [= <-]; lia|].
  destruct (last (a0 :: arr')) as [an|] eqn:El; [|intros [= <-]; lia].
  destruct (an <? target)%nat eqn:E1.
  - apply Nat.ltb_lt in E1. intros [= <-] _. exists an. split; [|lia].
    rewrite last_lookup in El.
    eapply get_at; [exact El|]. simpl length.
    destruct (_ <? 0) eqn:E; [apply Z.ltb_lt in E; lia|]. simpl. lia.
  - destruct (target <? a0)%nat eqn:E2; [intros [= <-]; lia|].
    apply Nat.ltb_ge in E2.
    intros Hloop _. apply bs_loop_le in Hloop as (Hjj & v & Hv & Hle); [|lia|].
    + exists v. split; [|done]. eapply get_at; [exact Hv|].
      destruct (jj <? 0) eqn:E; [apply Z.ltb_lt in E; lia|]. lia.
    + exists a0. split; [done|lia].
Qed.

Lemma extend_step_raise j e arrs :
  fold_left (extend_step j) arrs (Raise e) = Raise e.
Proof. induction arrs as [|arr arrs IH]; [done|]. simpl. apply IH. Qed.

(** Extending a group never removes the index that started it. *)
Lemma extend_step_head j rest arr g :
  extend_step j (Ok (j :: rest)) arr = Ok g -> exists rest', g = j :: rest'.
Proof.
  unfold extend_step. simpl.
  destruct (binary_search arr j) as [jj|] eqn:Ebs; [|done]. simpl.
  destruct (jj <? 0) eqn:E; [intros [= <-]; eauto|].
  apply Z.ltb_ge in E.
  destruct (binary_search_le _ _ _ Ebs E) as (v & -> & Hv). simpl.
  destruct (PyList.get (j :: rest) (-1)) as [l|] eqn:El; [|done]. simpl.
  intros [= <-].
  destruct (l <? v)%nat eqn:Elv; [|eauto].
  apply Nat.ltb_lt in Elv.
  destruct rest as [|x rest]; [|simpl; eauto].
  apply get_elem_of, list_elem_of_singleton in El. lia.
Qed.

Lemma extend_fold_head j arrs rest g :
  fold_left (extend_step j) arrs (Ok (j :: rest)) = Ok g -> exists rest', g = j :: rest'.
Proof.
  revert rest. induction arrs as [|arr arrs IH]; intros rest.
  - simpl. intros [= <-]. eauto.
  - change (fold_left (extend_step j) (arr :: arrs) (Ok (j :: rest)))
      with (fold_left (extend_step j) arrs (extend_step j (Ok (j :: rest)) arr)).
    destruct (extend_step j (Ok (j :: rest)) arr) as [g'|e] eqn:E.
    + apply extend_step_head in E as [rest' ->]. apply IH.
    + by rewrite extend_step_raise.
Qed.

Lemma mark_read_keeps grp readed k :
  readed !! k = Some true -> mark_read grp readed !! k = Some true.
Proof.
  unfold mark_read. revert readed.
  induction grp as [|i grp IH]; intros readed Hk; simpl; [done|].
  apply IH. destruct (decide (i = k)) as [->|Hne].
  - rewrite list_lookup_insert_eq; [done|]. by eapply lookup_lt_Some.
  - by rewrite list_lookup_insert_ne.
Qed.

Lemma starters_snoc cks g : starters (cks ++ [g]) = starters cks ++ from_option (fun j => [j]) [] (head g).
Proof.
  unfold starters. rewrite omap_app. simpl. by destruct (head g).
Qed.

Lemma starters_full cks :
  length (starters cks) = length cks ->
  forall g, g ∈ cks -> exists j rest, g = j :: rest.
Proof.
  unfold starters. induction cks as [|g cks IH]; intros Hlen x Hx.
  - by apply not_elem_of_nil in Hx.
  - pose proof (omap_length_le head cks) as Hle.
    destruct g as [|j rest]; csimpl in Hlen; [lia|].
    apply elem_of_cons in Hx as [->|Hx]; [eauto|].
    apply IH; [lia|done].
Qed.

Lemma visit_raise levels i e arr :
  fold_left (visit levels i) arr (Raise e) = Raise e.
Proof. induction arr as [|j arr IH]; [done|]. simpl. apply IH. Qed.

Lemma visit_inv levels i st j st' :
  groups_inv st -> visit levels i (Ok st) j = Ok st' -> groups_inv st'.
Proof.
  destruct st as [cks readed]. intros (Hnd & Hlen & Hread). unfold visit. simpl.
  destruct (readed !! j) as [[|]|] eqn:Ej; [intros [= <-]; done| |done].
  assert (Hj : j ∉ starters cks).
  { intros Hin. apply Hread in Hin. congruence. }
  assert (Hnew : forall g readed',
            (exists rest, g = j :: rest) ->
            readed' !! j = Some true ->
            (forall k, readed !! k = Some true -> readed' !! k = Some true) ->
            groups_inv (cks ++ [g], readed')).
  { intros g readed' [rest ->] Hjr Hkeep. unfold groups_inv.
    rewrite starters_snoc. simpl. split; [|split].
    - apply NoDup_app. split; [done|]. split; [|apply NoDup_singleton].
      intros x Hx Hx'%list_elem_of_singleton. by subst.
    - rewrite !length_app, Hlen. done.
    - intros k [Hk|Hk%list_elem_of_singleton]%elem_of_app; [eauto|by subst]. }
  assert (Hset : <[j:=true]> readed !! j = Some true)
    by (apply list_lookup_insert_eq; by eapply lookup_lt_Some).
  assert (Hkeep : forall k, readed !! k = Some true -> <[j:=true]> readed !! k = Some true).
  { intros k Hk. destruct (decide (j = k)) as [->|]; [done|].
    by rewrite list_lookup_insert_ne. }
  destruct (bool_decide _).
  - intros [= <-]. apply Hnew; eauto.
  - destruct (fold_left _ _ _) as [g|] eqn:Eg; [|done]. simpl. intros [= <-].
    apply Hnew.
    + by eapply extend_fold_head.
    + by apply mark_read_keeps.
    + intros k Hk. by apply mark_read_keeps, Hkeep.
Qed.

Lemma visit_fold_inv levels i arr st st' :
  groups_inv st -> fold_left (visit levels i) arr (Ok st) = Ok st' -> groups_inv st'.
Proof.
  revert st. induction arr as [|j arr IH]; intros st Hst.
  - simpl. by intros [= <-].
  - rewrite fold_left_cons.
    destruct (visit levels i (Ok st) j) as [st1|e] eqn:E.
    + apply IH. by eapply visit_inv.
    + by rewrite visit_raise.
Qed.

Lemma buckets_fold_inv levels (buckets : list (nat * list nat)) st st' :
  groups_inv st ->
  fold_left (fun st '(i, arr) => fold_left (visit levels i) arr st) buckets (Ok st)
    = Ok st' ->
  groups_inv st'.
Proof.
  revert st. induction buckets as [|[i arr] buckets IH]; intros st Hst.
  - simpl. by intros [= <-].
  - rewrite fold_left_cons. cbv beta iota.
    destruct (fold_left (visit levels i) arr (Ok st)) as [st1|e] eqn:E.
    + apply IH. by eapply visit_fold_inv.
    + intros H. exfalso. revert H. clear.
      induction buckets as [|[i' arr'] buckets IH]; [done|].
      rewrite fold_left_cons. cbv beta iota. by rewrite visit_raise.
Qed.


End HierarchicalMergeFacts.

Section HierarchicalMergeExamples.
Import PyStr Patterns HierarchicalMerge.



End HierarchicalMergeExamples.

(** ** Image concatenation *)

Section ConcatImgFacts.
Import ConcatImg.


End ConcatImgFacts.

Section ConcatImgExamples.
Import ConcatImg.


End ConcatImgExamples.

(** ** Media context attacher *)

Section MediaContextFacts.
Import PyStr MediaContext.

Variable num_tokens_from_string : pystr -> Z.
Variable tokenize : pystr -> pystr.
Variable fine_grained_tokenize : pystr -> pystr.

Local Abbreviation scan_context := (scan_context num_tokens_from_string).
Local Abbreviation trim_to_tokens := (trim_to_tokens num_tokens_from_string).
Local Abbreviation attach_step :=
  (attach_step num_tokens_from_string tokenize fine_grained_tokenize).
Local Abbreviation attach_media_context :=
  (attach_media_context num_tokens_from_string tokenize fine_grained_tokenize).
Local Abbreviation store_combined := (store_combined tokenize fine_grained_tokenize).

Hypothesis hello_has_tokens : 0 < num_tokens_from_string (u "hello").

Lemma trim_hello budget :
  0 < budget -> trim_to_tokens (u "hello") budget true = u "hello".
Proof.
  intros Hb. unfold MediaContext.trim_to_tokens.
  destruct (budget <=? 0) eqn:E; [apply Z.leb_le in E; lia|].
  change (bool_decide (u "hello" = [])) with false. cbv beta iota. simpl orb. cbv iota.
  change (rev (split_sentences (u "hello"))) with [u "hello"].
  unfold collect_sentences.
  destruct (num_tokens_from_string (u "hello") <=? 0) eqn:E0;
    [apply Z.leb_le in E0; lia|].
  destruct (budget <? _); reflexivity.
Qed.

Lemma scan_context_spent from_tail chunks neighbours remaining :
  remaining <= 0 -> scan_context from_tail chunks neighbours remaining = [].
Proof.
  intros H. destruct neighbours as [|nb rest]; [done|]. simpl.
  destruct (remaining <=? 0) eqn:E; [done|apply Z.leb_gt in E; lia].
Qed.

Lemma scan_context_stops from_tail chunks nb rest remaining c :
  chunks !! nb = Some c -> is_text_chunk c = false ->
  scan_context from_tail chunks (nb :: rest) remaining = [].
Proof.
  intros Hc Ht. simpl. destruct (remaining <=? 0); [done|]. by rewrite Hc, Ht.
Qed.

Lemma scan_context_hello chunks nb rest remaining c :
  chunks !! nb = Some c -> is_text_chunk c = true -> get_text c = u "hello" ->
  0 < remaining ->
  scan_context true chunks (nb :: rest) remaining
    = u "hello"
        :: scan_context true chunks rest (remaining - num_tokens_from_string (u "hello")).
Proof.
  intros Hc Ht Hg Hr.
  change (scan_context true chunks (nb :: rest) remaining)
    with (if remaining <=? 0 then []
          else match chunks !! nb with
               | None => []
               | Some c =>
                   if negb (is_text_chunk c) then []
                   else
                     let txt := get_text c in
                     if bool_decide (txt = []) then scan_context true chunks rest remaining
                     else
                       let tks := num_tokens_from_string txt in
                       if tks <=? 0 then scan_context true chunks rest remaining
                       else
                         let txt' := if remaining <? tks
                                     then trim_to_tokens txt remaining true else txt in
                         let tks' := if remaining <? tks
                                     then num_tokens_from_string txt' else tks in
                         txt' :: scan_context true chunks rest (remaining - tks')
               end).
  destruct (remaining <=? 0) eqn:E; [apply Z.leb_le in E; lia|].
  rewrite Hc, Ht. cbv beta iota zeta. simpl negb. cbv iota. rewrite Hg.
  change (bool_decide (u "hello" = [])) with false. cbv iota.
  destruct (num_tokens_from_string (u "hello") <=? 0) eqn:E0;
    [apply Z.leb_le in E0; lia|].
  destruct (remaining <? _); [|done].
  by rewrite trim_hello.
Qed.

Lemma attach_step_image ordered chunks sorted_pos idx ck before after :
  chunks !! idx = Some ck ->
  is_image_chunk ck = true ->
  prev_ctx num_tokens_from_string chunks ordered sorted_pos 10 = before ->
  next_ctx num_tokens_from_string chunks ordered sorted_pos 10 = after ->
  before <> [] ->
  attach_step 0 10 ordered chunks (sorted_pos, idx)
    = <[idx := store_combined ck
                 (join [NL]
                    (before
                       ++ (if bool_decide (get_text ck = []) then [] else [get_text ck])
                       ++ after))]> chunks.
Proof.
  intros Hck Himg Hb Ha Hne. unfold MediaContext.attach_step.
  rewrite Hck, Himg, Hb, Ha. simpl Z.leb. cbv iota.
  by rewrite (bool_decide_eq_false_2 (before = [])) by done.
Qed.

(** C7, at an input where the code departs from it.  The context of an
    image chunk should hold only text chunks that lie between it and the
    first chunk in that direction that is not a text chunk.  On a text
    chunk followed by two chunks that hold an image and no text, with a
    budget of 10 tokens for images: once the first image chunk has
    received the text before it, the attacher takes it for a text chunk;
    the second image chunk receives the text of the first and, when
    budget remains, the text that lies before the first. *)
Theorem attach_media_context_reads_past_image :
  let chunks := [text_only (u "hello");
                 bare_image ConcatImg.red_dot;
                 bare_image ConcatImg.blue_bar] in
  is_text_chunk (text_only (u "hello")) = true
  /\ is_image_chunk (bare_image ConcatImg.red_dot) = true
  /\ is_image_chunk (bare_image ConcatImg.blue_bar) = true
  /\ map get_text (attach_media_context chunks 0 10)
     = [u "hello"; u "hello";
        if 10 - num_tokens_from_string (u "hello") <=? 0
        then u "hello" else u "hello" ++ [NL] ++ u "hello"].
Proof.
  intros chunks. split; [reflexivity|]. split; [reflexivity|]. split; [reflexivity|].
  unfold MediaContext.attach_media_context.
  change (bool_decide (chunks = []) || ((0 <=? 0) && (10 <=? 0))) with false. cbv iota.
  change (ordered_indices chunks) with ([0; 1; 2]%nat, false). cbv beta iota.
  change (imap (fun sorted_pos idx : nat => (sorted_pos, idx)) [0; 1; 2]%nat)
    with [(0, 0); (1, 1); (2, 2)]%nat.
  rewrite !fold_left_cons.
  change (attach_step 0 10 [0; 1; 2]%nat chunks (0%nat, 0%nat)) with chunks.
  rewrite (attach_step_image [0; 1; 2]%nat chunks 1 1 (bare_image ConcatImg.red_dot)
             [u "hello"] []); [|reflexivity|reflexivity| |reflexivity|discriminate].
  2: { unfold prev_ctx. simpl rev at 2. simpl take.
       rewrite (scan_context_hello chunks 0 [] 10 (text_only (u "hello")));
         [reflexivity|reflexivity|reflexivity|reflexivity|lia]. }
  set (chunks1 := <[1%nat := _]> chunks).
  assert (Hc1 : chunks1 !! 1%nat
                = Some (store_combined (bare_image ConcatImg.red_dot) (u "hello")))
    by reflexivity.
  assert (Hprev : prev_ctx num_tokens_from_string chunks1 [0; 1; 2]%nat 2 10
                  = if 10 - num_tokens_from_string (u "hello") <=? 0
                    then [u "hello"] else [u "hello"; u "hello"]).
  { unfold prev_ctx. change (rev (take 2 [0; 1; 2]%nat)) with [1; 0]%nat.
    rewrite (scan_context_hello chunks1 1 [0%nat] 10 _ Hc1);
      [|reflexivity|reflexivity|lia].
    destruct (_ <=? 0) eqn:E.
    - apply Z.leb_le in E. by rewrite scan_context_spent.
    - apply Z.leb_gt in E.
      rewrite (scan_context_hello chunks1 0 [] _ (text_only (u "hello")));
        [reflexivity|reflexivity|reflexivity|reflexivity|lia]. }
  rewrite (attach_step_image [0; 1; 2]%nat chunks1 2 2 (bare_image ConcatImg.blue_bar)
             _ [] eq_refl eq_refl Hprev eq_refl);
    [|destruct (_ <=? 0); discriminate].
  simpl fold_left. destruct (_ <=? 0); reflexivity.
Qed.

End MediaContextFacts.

Section MediaContextExamples.
Import PyStr MediaContext.

Lemma attach_media_context_reads_past_image_witness :
  0 < one_token_per_sentence (u "hello")
  /\ map get_text
       (attach_media_context one_token_per_sentence (fun s => s) (fun s => s)
          [text_only (u "hello");
           bare_image ConcatImg.red_dot;
           bare_image ConcatImg.blue_bar] 0 10)
     = [u "hello"; u "hello"; u "hello" ++ [NL] ++ u "hello"].
Proof.
  assert (H : 0 < one_token_per_sentence (u "hello")) by reflexivity.
  split; [exact H|].
  destruct (attach_media_context_reads_past_image one_token_per_sentence
              (fun s => s) (fun s => s) H) as (_ & _ & _ & E).
  exact E.
Defined.

End MediaContextExamples.

(** ** Position tags *)

Section PositionTagFacts.
Import PyStr PositionTag.

Lemma digit_is_page c : digit_char c = true -> page_char c = true.
Proof. intros H. unfold page_char. unfold digit_char in H. by rewrite H. Qed.

Lemma field_is_coord c : field_char c = true -> coord_char c = true.
Proof.
  unfold field_char, coord_char, digit_char.
  intros [H| ->]%orb_true_iff; [by rewrite H|]. by rewrite orb_true_r.
Qed.

Lemma digit_is_field c : digit_char c = true -> field_char c = true.
Proof. unfold field_char. by intros ->. Qed.

Lemma field_char_neq c d :
  field_char c = true -> d = 9%N \/ d = 35%N \/ d = 64%N -> c <> d.
Proof.
  unfold field_char, digit_char.
  intros [[H1%N.leb_le H2%N.leb_le]%andb_true_iff|H%N.eqb_eq]%orb_true_iff; lia.
Qed.

Lemma digit_char_neq c d :
  digit_char c = true -> d = 45%N \/ d = 46%N -> c <> d.
Proof.
  unfold digit_char. intros [H1%N.leb_le H2%N.leb_le]%andb_true_iff. lia.
Qed.

(** *** Scanning *)

Lemma span_app (p : N -> bool) a c rest :
  Forall (fun x => p x = true) a -> p c = false ->
  span p (a ++ c :: rest) = (a, c :: rest).
Proof.
  intros Ha Hc. induction Ha as [|x a Hx _ IH]; simpl.
  - by rewrite Hc.
  - by rewrite Hx, IH.
Qed.

Lemma split_char_aux_last c cur a :
  Forall (fun x => x <> c) a -> split_char_aux c cur a = [rev cur ++ a].
Proof.
  intros Ha. revert cur. induction Ha as [|x a Hx _ IH]; intros cur; simpl.
  - by rewrite app_nil_r.
  - rewrite (proj2 (N.eqb_neq x c)) by done.
    rewrite IH. simpl. by rewrite <- app_assoc.
Qed.

Lemma split_char_aux_app c cur a rest :
  Forall (fun x => x <> c) a ->
  split_char_aux c cur (a ++ c :: rest) = (rev cur ++ a) :: split_char_aux c [] rest.
Proof.
  intros Ha. revert cur. induction Ha as [|x a Hx _ IH]; intros cur; simpl.
  - by rewrite N.eqb_refl, app_nil_r.
  - rewrite (proj2 (N.eqb_neq x c)) by done.
    rewrite IH. simpl. by rewrite <- app_assoc.
Qed.

Lemma split_char_aux_field c cur a rest :
  Forall (fun x => x <> c) a ->
  split_char_aux c cur (a ++ [c] ++ rest) = (rev cur ++ a) :: split_char_aux c [] rest.
Proof. apply split_char_aux_app. Qed.

Lemma lstrip_by_app (p : N -> bool) a s :
  Forall (fun x => p x = true) a -> lstrip_by p (a ++ s) = lstrip_by p s.
Proof. intros Ha. induction Ha as [|x a Hx _ IH]; simpl; [done|]. by rewrite Hx. Qed.

Lemma lstrip_by_none (p : N -> bool) s :
  Forall (fun x => p x = false) s -> lstrip_by p s = s.
Proof. intros Hs. destruct Hs as [|x s Hx _]; simpl; [done|]. by rewrite Hx. Qed.

Lemma lstrip_by_all (p : N -> bool) s :
  Forall (fun x => p x = true) s -> lstrip_by p s = [].
Proof. intros Hs. induction Hs as [|x s Hx _ IH]; simpl; [done|]. by rewrite Hx. Qed.

Lemma strip_by_core (p : N -> bool) a body b :
  Forall (fun x => p x = true) a ->
  Forall (fun x => p x = true) b ->
  Forall (fun x => p x = false) body ->
  strip_by p (a ++ body ++ b) = body.
Proof.
  intros Ha Hb Hbody. unfold strip_by, rstrip_by.
  rewrite lstrip_by_app by done.
  destruct body as [|c body].
  - simpl. rewrite (lstrip_by_all p b) by done. reflexivity.
  - replace (lstrip_by p ((c :: body) ++ b)) with ((c :: body) ++ b)
      by (simpl; apply Forall_cons in Hbody as [-> _]; done).
    rewrite rev_app_distr.
    rewrite lstrip_by_app by (by apply Forall_rev).
    rewrite lstrip_by_none by (by apply Forall_rev).
    apply rev_involutive.
Qed.

Lemma scan_tags_skip_all s k cur :
  (length s <= k)%nat -> scan_tags k cur s = [(rev cur, None)].
Proof.
  revert k. induction s as [|c s IH]; intros k Hk; simpl; [done|].
  destruct k as [|k]; [simpl in Hk; lia|]. apply IH. simpl in Hk. lia.
Qed.

(** *** Numbers *)

Lemma chars_of_uint_digits d : Forall (fun c => digit_char c = true) (chars_of_uint d).
Proof. induction d; simpl; constructor; done. Qed.

Lemma uint_of_chars_of_uint d : uint_of_chars (chars_of_uint d) = Some d.
Proof. induction d; simpl; rewrite ?IHd; reflexivity. Qed.

Lemma to_uint_nonnil n : N.to_uint n <> Decimal.Nil.
Proof.
  intros E. pose proof (DecimalN.Unsigned.of_to n) as H. rewrite E in H.
  simpl in H. subst n. discriminate E.
Qed.

Lemma str_N_nonempty n : str_N n <> [].
Proof.
  unfold str_N. pose proof (to_uint_nonnil n). by destruct (N.to_uint n).
Qed.

Lemma str_N_digits n : Forall (fun c => digit_char c = true) (str_N n).
Proof. apply chars_of_uint_digits. Qed.

Lemma str_N_value n :
  uint_of_chars (str_N n) = Some (N.to_uint n) /\ N.of_uint (N.to_uint n) = n.
Proof. split; [apply uint_of_chars_of_uint|apply DecimalN.Unsigned.of_to]. Qed.

Lemma py_int_str_N n : py_int (str_N n) = Ok (Z.of_N n).
Proof.
  unfold py_int. rewrite (bool_decide_eq_false_2 _ (str_N_nonempty n)).
  by destruct (str_N_value n) as [-> ->].
Qed.

Lemma str_N_one_digit d : (d < 10)%N -> length (str_N d) = 1%nat.
Proof.
  intros H.
  assert (d = 0 \/ d = 1 \/ d = 2 \/ d = 3 \/ d = 4 \/ d = 5 \/ d = 6 \/ d = 7
          \/ d = 8 \/ d = 9)%N as Hd by lia.
  repeat (destruct Hd as [->|Hd]; [reflexivity|]). by subst.
Qed.

Lemma py_float_decimal a d :
  (d < 10)%N ->
  py_float (str_N a ++ [46%N] ++ str_N d) = Ok (Qmake (Z.of_N a * 10 + Z.of_N d) 10).
Proof.
  intros Hd. unfold py_float, split_char.
  assert (Hno : forall n, Forall (fun x => x <> 46%N) (str_N n)).
  { intros n. eapply Forall_impl; [apply str_N_digits|].
    intros c Hc. apply (digit_char_neq c); auto. }
  change ([46%N] ++ str_N d) with (46%N :: str_N d).
  rewrite split_char_aux_app by apply Hno.
  rewrite split_char_aux_last by apply Hno. simpl rev. simpl app.
  pose proof (str_N_nonempty a) as Ha.
  pose proof (str_N_nonempty d) as Hdn.
  rewrite (bool_decide_eq_false_2 (str_N a ++ str_N d = []))
    by (by destruct (str_N a)).
  destruct (str_N_value a) as [-> ->]. destruct (str_N_value d) as [-> ->].
  cbv zeta. rewrite (bool_decide_eq_false_2 _ Hdn).
  by rewrite (str_N_one_digit d Hd).
Qed.

Lemma round_tenths_nonneg x : 0 <= Qnum x -> 0 <= round_tenths x.
Proof.
  intros Hx. unfold round_tenths.
  assert (0 <= (Qnum x * 10) `div` Z.pos (Qden x)) by (apply Z.div_pos; lia).
  repeat destruct (_ <? _); try destruct (Z.even _); lia.
Qed.

Lemma format_1f_shape x :
  0 <= Qnum x ->
  exists a d,
    (d < 10)%N
    /\ format_1f x = str_N a ++ [46%N] ++ str_N d
    /\ Z.of_N a * 10 + Z.of_N d = round_tenths x.
Proof.
  intros Hx. pose proof (round_tenths_nonneg x Hx) as Ht.
  unfold format_1f. rewrite Z.abs_eq by done.
  destruct (Qnum x <? 0) eqn:E; [apply Z.ltb_lt in E; lia|].
  exists (Z.to_N (round_tenths x `div` 10)), (Z.to_N (round_tenths x `mod` 10)).
  pose proof (Z.mod_pos_bound (round_tenths x) 10 ltac:(lia)).
  pose proof (Z.div_pos (round_tenths x) 10 Ht ltac:(lia)).
  pose proof (Z.div_mod (round_tenths x) 10 ltac:(lia)).
  split; [lia|]. split; [done|]. rewrite !Z2N.id by lia. lia.
Qed.

Lemma format_1f_field x :
  0 <= Qnum x ->
  format_1f x <> [] /\ Forall (fun c => field_char c = true) (format_1f x).
Proof.
  intros Hx. destruct (format_1f_shape x Hx) as (a & d & _ & -> & _). split.
  - pose proof (str_N_nonempty a). by destruct (str_N a).
  - apply Forall_app. split; [|apply Forall_cons; split; [done|]];
      (eapply Forall_impl; [apply str_N_digits|]; apply digit_is_field).
Qed.

Lemma py_float_format_1f x :
  0 <= Qnum x -> py_float (format_1f x) = Ok (tenths x).
Proof.
  intros Hx. destruct (format_1f_shape x Hx) as (a & d & Hd & -> & E).
  rewrite py_float_decimal by done. unfold tenths. by rewrite E.
Qed.

(** *** One tag *)

Lemma tag_text_split pn f1 f2 f3 f4 :
  tag_text pn f1 f2 f3 f4
    = u "@@" ++ pn ++ TAB :: (f1 ++ [TAB] ++ f2 ++ [TAB] ++ f3 ++ [TAB] ++ f4) ++ u "##".
Proof.
  unfold tag_text. simpl. repeat (rewrite <- app_assoc; simpl). reflexivity.
Qed.

Section OneTag.
Variables pn f1 f2 f3 f4 : pystr.
Hypothesis pn_nonempty : pn <> [].
Hypothesis pn_digits : Forall (fun c => digit_char c = true) pn.
Hypothesis f1_field : f1 <> [] /\ Forall (fun c => field_char c = true) f1.
Hypothesis f2_field : f2 <> [] /\ Forall (fun c => field_char c = true) f2.
Hypothesis f3_field : f3 <> [] /\ Forall (fun c => field_char c = true) f3.
Hypothesis f4_field : f4 <> [] /\ Forall (fun c => field_char c = true) f4.

Let coords : pystr := f1 ++ [TAB] ++ f2 ++ [TAB] ++ f3 ++ [TAB] ++ f4.

Lemma coords_chars : coords <> [] /\ Forall (fun c => coord_char c = true) coords.
Proof.
  destruct f1_field as [H1 A1], f2_field as [_ A2], f3_field as [_ A3],
    f4_field as [_ A4].
  split; [unfold coords; by destruct f1|].
  unfold coords.
  repeat first [ exact I
               | apply Forall_nil
               | apply Forall_app; split
               | apply Forall_cons; split; [reflexivity|]
               | (eapply Forall_impl; [eassumption|]; apply field_is_coord) ].
Qed.

Lemma match_tag_text :
  match_tag (tag_text pn f1 f2 f3 f4) = Some (tag_text pn f1 f2 f3 f4).
Proof.
  rewrite tag_text_split. fold coords. unfold match_tag.
  rewrite starts_with_app.
  change (drop 2 (u "@@" ++ pn ++ TAB :: coords ++ u "##"))
    with (pn ++ TAB :: coords ++ u "##").
  rewrite span_app;
    [|eapply Forall_impl; [exact pn_digits|apply digit_is_page]|reflexivity].
  rewrite (bool_decide_eq_false_2 (pn = [])) by done.
  change (starts_with [TAB] (TAB :: coords ++ u "##")) with true.
  change (drop 1 (TAB :: coords ++ u "##")) with (coords ++ 35%N :: [35%N]).
  destruct coords_chars as [Hne Hall].
  rewrite span_app by done.
  rewrite (bool_decide_eq_false_2 (coords = [])) by done.
  reflexivity.
Qed.

Lemma findall_tag_text :
  findall_tags (tag_text pn f1 f2 f3 f4) = [tag_text pn f1 f2 f3 f4].
Proof.
  unfold findall_tags.
  pose proof match_tag_text as Hm.
  destruct (tag_text pn f1 f2 f3 f4) as [|c s] eqn:E; [done|].
  simpl scan_tags. rewrite Hm.
  rewrite scan_tags_skip_all by (simpl; lia). reflexivity.
Qed.

Lemma fields_of_tag_text :
  split_char TAB (strip_chars (u "@") (strip_chars (u "#") (tag_text pn f1 f2 f3 f4)))
    = [pn; f1; f2; f3; f4].
Proof.
  destruct f1_field as [_ A1], f2_field as [_ A2], f3_field as [_ A3],
    f4_field as [_ A4].
  assert (Hd : forall d, d = 9%N \/ d = 35%N \/ d = 64%N ->
                 Forall (fun c => c <> d) pn).
  { intros d Hdd. eapply Forall_impl; [exact pn_digits|].
    intros c Hc. apply field_char_neq; [by apply digit_is_field|done]. }
  assert (Hf : forall f d, Forall (fun c => field_char c = true) f ->
                 d = 9%N \/ d = 35%N \/ d = 64%N -> Forall (fun c => c <> d) f).
  { intros f d Hall Hdd. eapply Forall_impl; [exact Hall|].
    intros c Hc. by apply field_char_neq. }
  set (inner := pn ++ [TAB] ++ f1 ++ [TAB] ++ f2 ++ [TAB] ++ f3 ++ [TAB] ++ f4).
  assert (Hinner : forall d, d = 35%N \/ d = 64%N -> Forall (fun c => c <> d) inner).
  { intros d Hdd. unfold inner.
    repeat first [ exact I
                 | apply Forall_app; split
                 | apply Forall_cons; split; [unfold TAB; lia|]
                 | exact I
                 | apply Forall_nil
                 | apply Hd; lia
                 | apply Hf; [assumption|lia] ]. }
  assert (E1 : strip_chars (u "#") (tag_text pn f1 f2 f3 f4) = u "@@" ++ inner).
  { unfold strip_chars.
    replace (tag_text pn f1 f2 f3 f4) with ([] ++ (u "@@" ++ inner) ++ u "##")
      by (unfold tag_text, inner; simpl; repeat (rewrite <- app_assoc; simpl);
          reflexivity).
    apply strip_by_core.
    - constructor.
    - repeat constructor.
    - apply Forall_app. split; [repeat constructor|].
      eapply Forall_impl; [apply (Hinner 35%N); lia|].
      intros c Hc. apply bool_decide_eq_false_2.
      intros Hin%list_elem_of_singleton. done. }
  assert (E2 : strip_chars (u "@") (u "@@" ++ inner) = inner).
  { unfold strip_chars.
    replace (u "@@" ++ inner) with (u "@@" ++ inner ++ []) by (by rewrite app_nil_r).
    apply strip_by_core.
    - repeat constructor.
    - constructor.
    - eapply Forall_impl; [apply (Hinner 64%N); lia|].
      intros c Hc. apply bool_decide_eq_false_2.
      intros Hin%list_elem_of_singleton. done. }
  rewrite E1, E2. unfold split_char, inner.
  rewrite split_char_aux_field by (apply Hd; left; reflexivity).
  rewrite split_char_aux_field by (apply Hf; [done|left; reflexivity]).
  rewrite split_char_aux_field by (apply Hf; [done|left; reflexivity]).
  rewrite split_char_aux_field by (apply Hf; [done|left; reflexivity]).
  rewrite split_char_aux_last by (apply Hf; [done|left; reflexivity]).
  reflexivity.
Qed.

End OneTag.

Lemma str_int_nonneg z : 0 <= z -> str_int z = str_N (Z.to_N z).
Proof.
  intros Hz. unfold str_int. destruct (z <? 0) eqn:E; [apply Z.ltb_lt in E; lia|done].
Qed.

Lemma pages_of_str_N n :
  mapM_result (fun p => n ← py_int p; Ok (n - 1)) (split_char 45%N (str_N n))
    = Ok [Z.of_N n - 1].
Proof.
  unfold split_char. rewrite split_char_aux_last.
  - simpl. by rewrite py_int_str_N.
  - eapply Forall_impl; [apply str_N_digits|].
    intros c Hc. apply (digit_char_neq c); auto.
Qed.


End PositionTagFacts.

Section PositionTagExamples.
Import PyStr PositionTag.



End PositionTagExamples.

(** ** Further properties of the budgeted flat merger *)

Section NaiveMergeMoreFacts.
Import PyStr NaiveMerge NaiveBudget.

Variable num_tokens_from_string : pystr -> Z.
Variable remove_tag : pystr -> pystr.

Local Abbreviation add_chunk := (add_chunk num_tokens_from_string remove_tag).
Local Abbreviation naive_merge := (naive_merge num_tokens_from_string remove_tag).
Local Abbreviation carry_over := (carry_over remove_tag).
Local Abbreviation default_run := (default_run num_tokens_from_string remove_tag).
Local Abbreviation section_tokens := (section_tokens num_tokens_from_string).
Local Abbreviation budget_inv := (budget_inv num_tokens_from_string).

Lemma app_snoc_split {A} (a b l : list A) (c : A) :
  a ++ b = l ++ [c] -> b <> [] -> exists b0, b = b0 ++ [c] /\ l = a ++ b0.
Proof.
  intros E Hb. destruct (snoc_cases b) as [->|(b0 & x & ->)]; [done|].
  rewrite app_assoc in E. apply app_inj_tail in E as [<- <-]. eauto.
Qed.

(** No delimiter begins inside a segment of the split. *)
Lemma scan_split_segments_free delims :
  (forall d, d ∈ delims -> d <> []) ->
  forall s skip cur,
    (skip <> 0%nat -> cur = []) ->
    (forall a b d, rev cur = a ++ b -> b <> [] -> d ∈ delims ->
       starts_with d (b ++ s) = false) ->
    forall seg d, seg ∈ map fst (scan_split delims skip cur s) -> d ∈ delims ->
      ~ occurs_in d seg.
Proof.
  intros Hne.
  assert (Hseg : forall cur s d,
    (forall a b d, rev cur = a ++ b -> b <> [] -> d ∈ delims ->
       starts_with d (b ++ s) = false) ->
    d ∈ delims -> ~ occurs_in d (rev cur)).
  { intros cur s d Hinv Hd (a & b & E).
    specialize (Hinv a (d ++ b) d E).
    rewrite <- app_assoc, starts_with_app in Hinv.
    enough (true = false) by done. apply Hinv; [|done].
    specialize (Hne d Hd). by destruct d. }
  induction s as [|c s IH]; intros skip cur Hskip Hinv seg d Hseg' Hd; simpl in Hseg'.
  - apply list_elem_of_singleton in Hseg' as ->. by eapply Hseg.
  - destruct skip as [|k].
    + destruct (delimiter_at delims (c :: s)) as [d0|] eqn:Ed.
      * simpl in Hseg'. apply elem_of_cons in Hseg' as [->|Hin]; [by eapply Hseg|].
        eapply IH; [| |exact Hin|exact Hd]; [done|].
        intros a b d' E Hb _. simpl in E. symmetry in E.
        apply app_eq_nil in E as [_ ->]. done.
      * eapply IH; [| |exact Hseg'|exact Hd]; [done|].
        intros a b d' E Hb Hd'. simpl in E. symmetry in E.
        destruct (app_snoc_split _ _ _ _ E Hb) as (b0 & -> & E').
        rewrite <- app_assoc. simpl.
        destruct b0 as [|x b0].
        -- simpl. eapply find_none in Ed; [exact Ed|by apply list_elem_of_In].
        -- by apply (Hinv a (x :: b0) d').
    + eapply IH; [| |exact Hseg'|exact Hd].
      * intros _. by apply Hskip.
      * intros a b d' E Hb _. rewrite Hskip in E by done. simpl in E. symmetry in E.
        apply app_eq_nil in E as [_ ->]. done.
Qed.

Lemma segments_free delimiter sec seg d :
  seg ∈ segments (ordered_delimiters (custom_delimiters delimiter)) sec ->
  d ∈ custom_delimiters delimiter ->
  ~ occurs_in d seg.
Proof.
  intros Hseg Hd.
  eapply (scan_split_segments_free _ (ordered_delimiters_nonempty delimiter) sec 0 []);
    [done| |exact Hseg|].
  - intros a b d' E Hb _. simpl in E. symmetry in E.
    apply app_eq_nil in E as [_ ->]. done.
  - unfold ordered_delimiters. by rewrite merge_sort_Permutation, elem_of_remove_dups.
Qed.

(** X1. In custom-delimiter mode every chunk is a newline, one segment
    of one section and possibly the position tag of that section, and no
    custom delimiter occurs in the segment. *)
Theorem naive_merge_custom_chunks_free sections ctn delimiter p chunk :
  custom_delimiters delimiter <> [] ->
  chunk ∈ naive_merge sections ctn delimiter p ->
  exists sec pos seg,
    (sec, pos) ∈ naive_pairs sections
    /\ seg ∈ segments (ordered_delimiters (custom_delimiters delimiter)) sec
    /\ (chunk = [NL] ++ seg \/ chunk = ([NL] ++ seg) ++ pos)
    /\ forall d, d ∈ custom_delimiters delimiter -> ~ occurs_in d seg.
Proof.
  intros Hd Hin.
  rewrite (naive_merge_custom num_tokens_from_string remove_tag) in Hin by done.
  destruct (naive_empty sections); [by apply elem_of_nil in Hin|].
  apply list_elem_of_In, in_flat_map in Hin as ([sec pos] & Hs & Hc).
  apply in_map_iff in Hc as (seg & <- & Hseg). simpl in Hseg.
  exists sec, pos, seg.
  split; [by apply list_elem_of_In|].
  split; [by apply list_elem_of_In|].
  split.
  - unfold custom_chunk. simpl.
    destruct (num_tokens_from_string _ <? 8); simpl; [by left|].
    destruct (negb _ && _); [by right|by left].
  - intros d Hd'. eapply segments_free; [|done]. by apply list_elem_of_In.
Qed.

(** *** Default mode *)

Lemma scan_literals_no_backtick body s :
  96%N ∉ s -> scan_literals body s = [].
Proof.
  revert body. induction s as [|c s IH]; intros body Hs; simpl; [done|].
  apply not_elem_of_cons in Hs as [Hc Hs].
  assert ((c =? 96)%N = false) as -> by (apply N.eqb_neq; congruence).
  destruct body; by apply IH.
Qed.

Lemma find_empty (s : pystr) : find s [] = 0.
Proof. unfold find. by destruct s. Qed.

Lemma carry_over_zero (last_ck : pystr) : carry_over 0 last_ck = [].
Proof.
  unfold NaiveMerge.carry_over, overlap_start.
  replace (len (remove_tag last_ck) * (100 - 0)) with (len (remove_tag last_ck) * 100) by lia.
  rewrite Z.quot_mul by lia.
  rewrite slice_from_drop by (unfold len; lia).
  unfold len. rewrite Nat2Z.id. apply drop_all.
Qed.

(** The two branches of [add_chunk] on a non-empty state, with their
    conditions. *)
Lemma add_chunk_cases ctn p init lst tks0 tk t pos :
  let pos0 := if num_tokens_from_string t <? 8 then [] else pos in
  add_chunk ctn p (init ++ [lst], tks0 ++ [tk]) t pos
  = if bool_decide (lst = []) || (ctn * (100 - p) <? tk * 100)
    then (init ++ [lst; if find (carry_over p lst ++ t) pos0 <? 0
                        then (carry_over p lst ++ t) ++ pos0
                        else carry_over p lst ++ t],
          tks0 ++ [tk; num_tokens_from_string t])
    else (init ++ [lst ++ (if find lst pos0 <? 0 then t ++ pos0 else t)],
          tks0 ++ [tk + num_tokens_from_string t]).
Proof.
  intros pos0. unfold NaiveMerge.add_chunk.
  rewrite !last_snoc, !removelast_last. simpl. fold pos0.
  rewrite (bool_decide_eq_false_2 (init ++ [lst] = [])) by (destruct init; simpl; discriminate).
  destruct (bool_decide (lst = []) || _); by rewrite <- ?app_assoc.
Qed.

Lemma default_run_concat ctn sections : forall init lst tks0 tk,
  Forall (fun s : pystr * pystr => snd s = []) sections ->
  concat (fst (default_run ctn 0 sections (init ++ [lst], tks0 ++ [tk])))
    = concat (init ++ [lst]) ++ concat (map (fun s => [NL] ++ fst s) sections).
Proof.
  induction sections as [|[sec pos] sections IH]; intros init lst tks0 tk Hpos.
  - simpl. by rewrite app_nil_r.
  - apply Forall_cons in Hpos as [Hp Hpos]. simpl in Hp. subst pos.
    rewrite default_run_cons, add_chunk_cases.
    assert ((if num_tokens_from_string ([NL] ++ sec) <? 8 then [] else []) = @nil N) as ->
      by (by destruct (_ <? 8)).
    rewrite !find_empty, carry_over_zero. simpl.
    destruct (bool_decide (lst = []) || _).
    + replace (init ++ [lst; NL :: sec]) with ((init ++ [lst]) ++ [NL :: sec])
        by (by rewrite <- app_assoc).
      replace (tks0 ++ [tk; num_tokens_from_string (NL :: sec)])
        with ((tks0 ++ [tk]) ++ [num_tokens_from_string (NL :: sec)])
        by (by rewrite <- app_assoc).
      rewrite IH by done. rewrite !concat_app. simpl.
      rewrite ?app_nil_r, <- ?app_assoc. reflexivity.
    + rewrite IH by done. rewrite !concat_app. simpl.
      rewrite ?app_nil_r, <- ?app_assoc. reflexivity.
Qed.

(** X2. With a delimiter specification that holds no backtick (such as
    the default one), no overlap and sections without position tags, the
    chunks joined together are the sections, each preceded by a newline:
    the default mode neither drops nor repeats nor reorders text. *)
Theorem naive_merge_keeps_text sections ctn delimiter :
  naive_empty sections = false ->
  96%N ∉ delimiter ->
  Forall (fun s => snd s = []) (naive_pairs sections) ->
  concat (naive_merge sections ctn delimiter 0)
    = concat (map (fun s => [NL] ++ fst s) (naive_pairs sections)).
Proof.
  intros Hne Hd Hpos.
  rewrite (naive_merge_default num_tokens_from_string remove_tag)
    by (done || by apply scan_literals_no_backtick).
  apply (default_run_concat ctn (naive_pairs sections) [] [] [] 0 Hpos).
Qed.

Lemma section_tokens_snoc g s :
  section_tokens (g ++ [s]) = section_tokens g + num_tokens_from_string ([NL] ++ fst s).
Proof.
  induction g as [|x g IH]; [simpl; lia|].
  change (section_tokens ((x :: g) ++ [s]))
    with (num_tokens_from_string ([NL] ++ fst x) + section_tokens (g ++ [s])).
  change (section_tokens (x :: g))
    with (num_tokens_from_string ([NL] ++ fst x) + section_tokens g).
  lia.
Qed.

Lemma piece_of_add sec pos (b : bool) (pos0 : pystr) :
  pos0 = [] \/ pos0 = pos ->
  piece_of (sec, pos) (if b then ([NL] ++ sec) ++ pos0 else [NL] ++ sec).
Proof.
  intros Hp. destruct b; [|by left].
  destruct Hp as [->| ->]; [left; by rewrite app_nil_r|by right].
Qed.

Lemma budget_inv_step ctn p groups cs tks0 tk sec pos :
  budget_inv ctn p groups cs tk ->
  exists groups' cs' tks0' tk',
    add_chunk ctn p ([] :: cs, tks0 ++ [tk]) ([NL] ++ sec) pos = ([] :: cs', tks0' ++ [tk'])
    /\ budget_inv ctn p groups' cs' tk'
    /\ concat groups' = concat groups ++ [(sec, pos)].
Proof.
  intros (Hch & Hcs & Hgs & Hpre & Hover & Htk).
  set (pos0 := if num_tokens_from_string ([NL] ++ sec) <? 8 then [] else pos).
  assert (Hpos0 : pos0 = [] \/ pos0 = pos) by (unfold pos0; destruct (_ <? 8); eauto).
  assert (Hnew : forall carry (b : bool),
            chunk_of [(sec, pos)]
              (if b then (carry ++ [NL] ++ sec) ++ pos0 else carry ++ [NL] ++ sec)).
  { intros carry b. exists carry.
    exists [if b then ([NL] ++ sec) ++ pos0 else [NL] ++ sec]. split.
    - simpl. rewrite app_nil_r. destruct b; by rewrite <- ?app_assoc.
    - constructor; [by apply piece_of_add|constructor]. }
  assert (Hne : forall carry (b : bool),
            (if b then (carry ++ [NL] ++ sec) ++ pos0 else carry ++ [NL] ++ sec) <> []).
  { intros carry b. destruct b, carry; simpl; discriminate. }
  destruct (snoc_cases cs) as [->|(C & c & ->)].
  - (* the initial state *)
    apply Forall2_nil_inv_r in Hch as ->.
    pose proof (add_chunk_cases ctn p [] [] tks0 tk ([NL] ++ sec) pos) as E.
    cbv zeta in E. fold pos0 in E.
    rewrite (bool_decide_eq_true_2 (@nil N = [])) in E by done. simpl orb in E.
    eexists [[(sec, pos)]], [_], (tks0 ++ [tk]), _.
    split; [etrans; [exact E|]; rewrite <- (app_assoc tks0); reflexivity|]. split; [|done].
    split; [constructor; [apply Hnew|constructor]|].
    split; [apply Forall_cons; split; [apply Hne|constructor]|].
    split; [apply Forall_cons; split; [done|constructor]|].
    split.
    { intros g pre x post Hg%list_elem_of_singleton E' Hp. subst g.
      destruct pre as [|y pre]; [done|]. simpl in E'. injection E' as _ E'.
      by destruct pre. }
    split; [intros i g _ Hi; simpl in Hi; lia|].
    simpl. lia.
  - apply Forall2_app_inv_r in Hch as (G & gl & HG & Hgl & ->).
    destruct gl as [|g gl]; [by apply Forall2_nil_inv_l in Hgl|].
    apply Forall2_cons in Hgl as [Hg Hgl].
    apply Forall2_nil_inv_r in Hgl as ->.
    rewrite last_snoc in Htk. simpl in Htk.
    rewrite Forall_app, Forall_singleton in Hcs. destruct Hcs as [HC Hc].
    rewrite Forall_app, Forall_singleton in Hgs. destruct Hgs as [HGs Hg0].
    pose proof (add_chunk_cases ctn p ([] :: C) c tks0 tk ([NL] ++ sec) pos) as E.
    cbv zeta in E. fold pos0 in E.
    rewrite (bool_decide_eq_false_2 (c = [])) in E by done. simpl orb in E.
    destruct (ctn * (100 - p) <? tk * 100) eqn:Eb.
    + (* a new chunk *)
      apply Z.ltb_lt in Eb.
      eexists ((G ++ [g]) ++ [[(sec, pos)]]), ((C ++ [c]) ++ [_]), (tks0 ++ [tk]), _.
      split.
      { etrans; [exact E|]. rewrite <- (app_assoc tks0), <- (app_assoc C). reflexivity. }
      split; [|by rewrite concat_app; simpl].
      split.
      { apply Forall2_app; [apply Forall2_app; [done|by constructor]|].
        constructor; [apply Hnew|constructor]. }
      split.
      { apply Forall_app; split; [apply Forall_app; split; [done|by apply Forall_singleton]|].
        apply Forall_singleton. apply Hne. }
      split.
      { apply Forall_app; split; [apply Forall_app; split; [done|by apply Forall_singleton]|].
        by apply Forall_singleton. }
      split.
      { intros g' pre x post Hg' E' Hp.
        apply elem_of_app in Hg' as [Hg'|Hg'%list_elem_of_singleton]; [by eapply Hpre|].
        subst g'. destruct pre as [|y pre]; [done|]. simpl in E'. injection E' as _ E'.
        by destruct pre. }
      split.
      { intros i g' Hi Hlt. rewrite length_app in Hlt. simpl in Hlt.
        rewrite lookup_app_l in Hi by lia.
        destruct (decide (S i < length (G ++ [g]))%nat) as [Hlt'|Hge]; [by eapply Hover|].
        rewrite length_app in Hge, Hlt. simpl in Hge, Hlt.
        assert (i = length G) as -> by lia.
        rewrite list_lookup_middle in Hi by done. simplify_eq.
        unfold over_budget. lia. }
      rewrite last_snoc. simpl. lia.
    + (* the running chunk extended *)
      apply Z.ltb_ge in Eb.
      eexists (G ++ [g ++ [(sec, pos)]]), (C ++ [_]), tks0, _.
      split; [exact E|].
      split; [|rewrite !concat_app; simpl; by rewrite !app_nil_r, <- app_assoc].
      split.
      { apply Forall2_app; [done|]. constructor; [|constructor].
        destruct Hg as (carry & pieces & -> & Hpieces).
        exists carry,
          (pieces ++ [if find (carry ++ concat pieces) pos0 <? 0
                      then ([NL] ++ sec) ++ pos0 else [NL] ++ sec]).
        split.
        - rewrite concat_app. simpl. rewrite app_nil_r.
          rewrite <- app_assoc. by destruct (find _ _ <? 0).
        - apply Forall2_app; [done|].
          constructor; [by apply piece_of_add|constructor]. }
      split.
      { apply Forall_app; split; [done|]. apply Forall_singleton. by destruct c. }
      split.
      { apply Forall_app; split; [done|]. apply Forall_singleton. by destruct g. }
      split.
      { intros g' pre x post Hg' E' Hp.
        apply elem_of_app in Hg' as [Hg'|Hg'%list_elem_of_singleton].
        { eapply Hpre; [|done..]. apply elem_of_app. by left. }
        subst g'.
        destruct (snoc_cases post) as [->|(post0 & y & ->)].
        - apply app_inj_tail in E' as [<- _]. unfold over_budget. lia.
        - rewrite app_comm_cons, app_assoc in E'. apply app_inj_tail in E' as [E' _].
          eapply (Hpre g pre x post0); [|done..]. apply elem_of_app. right.
          by apply list_elem_of_singleton. }
      split.
      { intros i g' Hi Hlt. rewrite length_app in Hlt. simpl in Hlt.
        rewrite lookup_app_l in Hi by lia.
        apply (Hover i); [by rewrite lookup_app_l by lia|].
        rewrite length_app. simpl. lia. }
      rewrite last_snoc. simpl. rewrite section_tokens_snoc. simpl. lia.
Qed.

Lemma budget_inv_run ctn p sections : forall groups cs tks0 tk,
  budget_inv ctn p groups cs tk ->
  exists groups' cs' tks',
    default_run ctn p sections ([] :: cs, tks0 ++ [tk]) = ([] :: cs', tks')
    /\ (exists tk', budget_inv ctn p groups' cs' tk')
    /\ concat groups' = concat groups ++ sections.
Proof.
  induction sections as [|[sec pos] sections IH]; intros groups cs tks0 tk Hinv.
  - exists groups, cs, (tks0 ++ [tk]). simpl. rewrite app_nil_r. eauto.
  - rewrite default_run_cons.
    destruct (budget_inv_step ctn p groups cs tks0 tk sec pos Hinv)
      as (groups1 & cs1 & tks1 & tk1 & E & Hinv1 & Hc1).
    rewrite E.
    destruct (IH groups1 cs1 tks1 tk1 Hinv1) as (groups' & cs' & tks' & E' & Hinv' & Hc').
    exists groups', cs', tks'. split; [done|]. split; [done|].
    rewrite Hc', Hc1, <- app_assoc. done.
Qed.

(** X3. In the default mode the chunks after the initial empty one are
    made of consecutive groups of the sections, in order: each chunk is the
    carried text followed by a newline and the text of each section of its
    group, with the position tag where it is added.  A group is closed only
    when its tokens exceed [chunk_token_num * (100 - overlapped_percent) /
    100], and a section joins a group only while the tokens of the group
    do not exceed it: a chunk overshoots the budget share by its last
    section at most. *)
Theorem naive_merge_budget_groups sections ctn delimiter p :
  naive_empty sections = false ->
  custom_delimiters delimiter = [] ->
  exists groups cs,
    naive_merge sections ctn delimiter p = [] :: cs
    /\ concat groups = naive_pairs sections
    /\ Forall2 chunk_of groups cs
    /\ Forall (fun g => g <> []) groups
    /\ (forall g pre x post, g ∈ groups -> g = pre ++ x :: post -> pre <> [] ->
          ~ over_budget ctn p (section_tokens pre))
    /\ (forall i g, groups !! i = Some g -> (S i < length groups)%nat ->
          over_budget ctn p (section_tokens g)).
Proof.
  intros Hne Hd.
  rewrite (naive_merge_default num_tokens_from_string remove_tag) by done.
  destruct (budget_inv_run ctn p (naive_pairs sections) [] [] [] 0)
    as (groups & cs & tks & E & (tk & Hch & _ & Hgs & Hpre & Hover & _) & Hc).
  { repeat split; try constructor; try done.
    intros ? ? ? ? H. by apply elem_of_nil in H. }
  exists groups, cs. simpl in E. rewrite E. simpl in Hc. done.
Qed.

End NaiveMergeMoreFacts.

Section NaiveMergeMoreExamples.
Import PyStr NaiveMerge NaiveBudget.

Lemma naive_merge_custom_chunks_free_witness :
  custom_delimiters blank_line_delimiter <> []
  /\ ([NL] ++ u "b") ∈ naive_merge one_token_per_char PositionTag.remove_tag
                          (One abc_section) 128 blank_line_delimiter 0
  /\ exists sec pos seg,
       (sec, pos) ∈ naive_pairs (One abc_section)
       /\ seg ∈ segments (ordered_delimiters (custom_delimiters blank_line_delimiter)) sec
       /\ ([NL] ++ u "b" = [NL] ++ seg \/ [NL] ++ u "b" = ([NL] ++ seg) ++ pos)
       /\ forall d, d ∈ custom_delimiters blank_line_delimiter -> ~ occurs_in d seg.
Proof.
  assert (H1 : custom_delimiters blank_line_delimiter <> []) by discriminate.
  assert (H2 : ([NL] ++ u "b") ∈ naive_merge one_token_per_char PositionTag.remove_tag
                                    (One abc_section) 128 blank_line_delimiter 0)
    by (apply (bool_decide_unpack _); vm_compute; exact I).
  split; [exact H1|]. split; [exact H2|].
  exact (naive_merge_custom_chunks_free one_token_per_char PositionTag.remove_tag
           (One abc_section) 128 blank_line_delimiter 0 ([NL] ++ u "b") H1 H2).
Defined.

Lemma naive_merge_keeps_text_witness :
  naive_empty (Many (Texts [u "012345678"; u "abc"])) = false
  /\ (96%N ∉ default_delimiter)
  /\ Forall (fun s => snd s = []) (naive_pairs (Many (Texts [u "012345678"; u "abc"])))
  /\ concat (naive_merge one_token_per_char PositionTag.remove_tag
               (Many (Texts [u "012345678"; u "abc"])) 5 default_delimiter 0)
     = concat (map (fun s => [NL] ++ fst s)
                 (naive_pairs (Many (Texts [u "012345678"; u "abc"])))).
Proof.
  assert (H1 : naive_empty (Many (Texts [u "012345678"; u "abc"])) = false) by reflexivity.
  assert (H2 : 96%N ∉ default_delimiter)
    by (apply (bool_decide_unpack _); vm_compute; exact I).
  assert (H3 : Forall (fun s : pystr * pystr => snd s = [])
                 (naive_pairs (Many (Texts [u "012345678"; u "abc"]))))
    by (repeat constructor).
  split; [exact H1|]. split; [exact H2|]. split; [exact H3|].
  exact (naive_merge_keeps_text one_token_per_char PositionTag.remove_tag
           (Many (Texts [u "012345678"; u "abc"])) 5 default_delimiter H1 H2 H3).
Defined.

Lemma naive_merge_budget_groups_witness :
  naive_empty (Many (Texts [u "012345678"; u "abc"])) = false
  /\ custom_delimiters default_delimiter = []
  /\ exists groups cs,
       naive_merge one_token_per_char PositionTag.remove_tag
         (Many (Texts [u "012345678"; u "abc"])) 5 default_delimiter 10 = [] :: cs
       /\ concat groups = naive_pairs (Many (Texts [u "012345678"; u "abc"]))
       /\ Forall2 chunk_of groups cs
       /\ Forall (fun g => g <> []) groups
       /\ (forall g pre x post, g ∈ groups -> g = pre ++ x :: post -> pre <> [] ->
             ~ over_budget 5 10 (section_tokens one_token_per_char pre))
       /\ (forall i g, groups !! i = Some g -> (S i < length groups)%nat ->
             over_budget 5 10 (section_tokens one_token_per_char g)).
Proof.
  split; [reflexivity|]. split; [reflexivity|].
  apply (naive_merge_budget_groups one_token_per_char PositionTag.remove_tag
           (Many (Texts [u "012345678"; u "abc"])) 5 default_delimiter 10); reflexivity.
Defined.

End NaiveMergeMoreExamples.

(** ** The flat merger with images *)

Section NaiveMergeImagesFacts.
Import PyStr NaiveMerge ConcatImg.

Variable num_tokens_from_string : pystr -> Z.
Variable remove_tag : pystr -> pystr.

Local Abbreviation naive_merge := (naive_merge num_tokens_from_string remove_tag).
Local Abbreviation naive_merge_with_images :=
  (NaiveMergeImages.naive_merge_with_images num_tokens_from_string remove_tag).
Local Abbreviation add_chunk_img :=
  (NaiveMergeImages.add_chunk num_tokens_from_string remove_tag).

(** The texts and token counts of a state of the merger with images. *)
Lemma add_chunk_images_texts ctn p cks imgs tks fresh t image pos :
  exists imgs' fresh',
    add_chunk_img ctn p (cks, imgs, tks, fresh) t image pos
      = (fst (add_chunk num_tokens_from_string remove_tag ctn p (cks, tks) t pos), imgs',
         snd (add_chunk num_tokens_from_string remove_tag ctn p (cks, tks) t pos), fresh')
    /\ (cks <> [] -> length imgs = length cks ->
        length imgs' = length (fst (add_chunk num_tokens_from_string remove_tag
                                      ctn p (cks, tks) t pos))).
Proof.
  unfold NaiveMergeImages.add_chunk, add_chunk.
  destruct (bool_decide (default [] (last cks) = []) || _).
  - do 2 eexists. split; [reflexivity|]. intros _ Hl. simpl.
    rewrite !length_app. simpl. lia.
  - assert (Hlen : forall (x : option Image) (y : pystr),
              cks <> [] -> length imgs = length cks ->
              length (removelast imgs ++ [x]) = length (removelast cks ++ [y])).
    { intros x y Hc Hl.
      destruct (snoc_cases cks) as [->|(c0 & c1 & ->)]; [done|].
      destruct (snoc_cases imgs) as [->|(i0 & i1 & ->)].
      { rewrite length_app in Hl. simpl in Hl. lia. }
      rewrite !removelast_last, !length_app in *. simpl in *. lia. }
    destruct (default None (last imgs)); do 2 eexists; (split; [reflexivity|]);
      simpl; apply Hlen.
Qed.

Lemma images_run ctn p zipped : forall cks imgs tks fresh,
  cks <> [] -> length imgs = length cks ->
  exists imgs' fresh',
    fold_left
      (fun st '(sec, pos, image) => add_chunk_img ctn p st ([NL] ++ sec) image pos)
      zipped (cks, imgs, tks, fresh)
    = (fst (default_run num_tokens_from_string remove_tag ctn p (map fst zipped) (cks, tks)),
       imgs',
       snd (default_run num_tokens_from_string remove_tag ctn p (map fst zipped) (cks, tks)),
       fresh')
    /\ length imgs'
       = length (fst (default_run num_tokens_from_string remove_tag ctn p
                        (map fst zipped) (cks, tks))).
Proof.
  induction zipped as [|[[sec pos] image] zipped IH]; intros cks imgs tks fresh Hc Hl.
  - simpl. eauto.
  - rewrite fold_left_cons. cbv beta iota.
    destruct (add_chunk_images_texts ctn p cks imgs tks fresh ([NL] ++ sec) image pos)
      as (imgs1 & fresh1 & E & Hl1).
    rewrite E. specialize (Hl1 Hc Hl).
    change (map fst ((sec, pos, image) :: zipped)) with ((sec, pos) :: map fst zipped).
    rewrite (default_run_cons num_tokens_from_string remove_tag).
    destruct (add_chunk num_tokens_from_string remove_tag ctn p (cks, tks) ([NL] ++ sec) pos)
      as [cks1 tks1] eqn:E1.
    simpl in Hl1 |- *.
    apply IH; [|done].
    destruct (snoc_cases cks) as [->|(c0 & c1 & ->)]; [done|].
    destruct (add_chunk_snoc num_tokens_from_string remove_tag ctn p c0 c1 tks
                ([NL] ++ sec) pos) as (t' & tks' & _ & [E2|E2]);
      rewrite E2 in E1; injection E1 as <- _; by destruct c0.
Qed.

Lemma custom_pieces_fold {A} (f : pystr -> pystr) (image : A) (l : list pystr) :
  forall cks imgs,
    fold_left (fun '(cks, imgs) sub_sec => (cks ++ [f sub_sec], imgs ++ [image])) l
      (cks, imgs)
    = (cks ++ map f l, imgs ++ replicate (length l) image).
Proof.
  induction l as [|x l IH]; intros cks imgs; simpl.
  - by rewrite !app_nil_r.
  - rewrite IH, <- !app_assoc. done.
Qed.

Lemma custom_images_run delims zipped : forall cks imgs,
  fold_left (NaiveMergeImages.custom_section num_tokens_from_string delims) zipped
    (cks, imgs)
  = (cks ++ flat_map (custom_section num_tokens_from_string delims) (map fst zipped),
     imgs ++ flat_map
               (fun x => replicate
                           (length (custom_section num_tokens_from_string delims (fst x)))
                           (snd x))
               zipped).
Proof.
  induction zipped as [|[[sec pos] image] zipped IH]; intros cks imgs.
  - simpl. by rewrite !app_nil_r.
  - rewrite fold_left_cons.
    unfold NaiveMergeImages.custom_section at 2.
    rewrite custom_pieces_fold, IH. simpl.
    unfold custom_section at 3. rewrite length_map, <- !app_assoc. done.
Qed.

(** X4. [naive_merge_with_images] returns two empty lists when the
    numbers of texts and images differ; otherwise its chunks are those of
    [naive_merge] on the same texts, in both modes, and it returns one
    image entry for every chunk.  In custom-delimiter mode every chunk
    cut from a section carries the image of that section. *)
Theorem naive_merge_with_images_chunks texts images ctn delimiter p fresh :
  (length (as_pairs texts) <> length images ->
     naive_merge_with_images texts images ctn delimiter p fresh = ([], []))
  /\ (length (as_pairs texts) = length images ->
        fst (naive_merge_with_images texts images ctn delimiter p fresh)
          = naive_merge (Many texts) ctn delimiter p
        /\ length (snd (naive_merge_with_images texts images ctn delimiter p fresh))
           = length (fst (naive_merge_with_images texts images ctn delimiter p fresh))
        /\ (custom_delimiters delimiter <> [] -> sections_empty texts = false ->
            snd (naive_merge_with_images texts images ctn delimiter p fresh)
            = flat_map
                (fun x => replicate
                            (length (custom_section num_tokens_from_string
                                       (ordered_delimiters (custom_delimiters delimiter))
                                       (fst x)))
                            (snd x))
                (zip (as_pairs texts) images))).
Proof.
  unfold NaiveMergeImages.naive_merge_with_images, NaiveMerge.naive_merge.
  change (naive_empty (Many texts)) with (sections_empty texts).
  change (naive_pairs (Many texts)) with (as_pairs texts).
  split.
  { intros Hl. rewrite (bool_decide_eq_false_2 _ Hl). simpl negb. by rewrite orb_true_r. }
  intros Hl. rewrite (bool_decide_eq_true_2 _ Hl). simpl negb. rewrite orb_false_r.
  destruct (sections_empty texts); [by repeat split|].
  assert (Hz : map fst (zip (as_pairs texts) images) = as_pairs texts)
    by (apply fst_zip; lia).
  destruct (bool_decide (custom_delimiters delimiter = [])) eqn:Ed; simpl negb; cbv iota.
  - apply bool_decide_eq_true in Ed.
    destruct (images_run ctn p (zip (as_pairs texts) images) [[]] [None] [0] fresh)
      as (imgs' & fresh' & E & Hlen); [done..|].
    rewrite E. rewrite Hz in *. simpl. done.
  - rewrite custom_images_run. simpl.
    split; [by rewrite Hz|]. split; [|done].
    clear Hz Hl.
    induction (zip (as_pairs texts) images) as [|[s img] z IH]; [done|].
    simpl. rewrite !length_app, length_replicate, IH. done.
Qed.

End NaiveMergeImagesFacts.

(** ** The flat merger for DOCX sections *)

Section NaiveMergeDocxFacts.
Import PyStr NaiveMerge ConcatImg NaiveMergeDocx.

Variable num_tokens_from_string : pystr -> Z.

Local Abbreviation add_chunk_docx := (NaiveMergeDocx.add_chunk num_tokens_from_string).
Local Abbreviation naive_merge_docx := (naive_merge_docx num_tokens_from_string).
Local Abbreviation docx_tokens := (docx_tokens num_tokens_from_string).

Lemma docx_tokens_snoc g s :
  docx_tokens (g ++ [s]) = docx_tokens g + num_tokens_from_string ([NL] ++ fst s).
Proof.
  induction g as [|x g IH]; [simpl; lia|].
  change (docx_tokens ((x :: g) ++ [s]))
    with (num_tokens_from_string ([NL] ++ fst x) + docx_tokens (g ++ [s])).
  change (docx_tokens (x :: g))
    with (num_tokens_from_string ([NL] ++ fst x) + docx_tokens g).
  lia.
Qed.

Lemma docx_text_snoc g (s : pystr * option Image) :
  docx_text (g ++ [s]) = docx_text g ++ [NL] ++ fst s.
Proof.
  unfold docx_text. rewrite map_app, concat_app. simpl. by rewrite app_nil_r.
Qed.

Lemma docx_text_single (sec : pystr) (image : option Image) :
  docx_text [(sec, image)] = [NL] ++ sec.
Proof. unfold docx_text. simpl. by rewrite app_nil_r. Qed.

(** The state of the default mode after some sections. *)
Lemma docx_inv_step ctn groups imgs tks fresh sec image :
  docx_inv num_tokens_from_string ctn groups imgs tks ->
  exists groups' imgs' tks' fresh',
    add_chunk_docx ctn (map docx_text groups, imgs, tks, fresh) ([NL] ++ sec) image
      = (map docx_text groups', imgs', tks', fresh')
    /\ docx_inv num_tokens_from_string ctn groups' imgs' tks'
    /\ concat groups' = concat groups ++ [(sec, image)].
Proof.
  intros (Hli & Htk & Hgs & Hpre & Hover).
  unfold NaiveMergeDocx.add_chunk.
  destruct (snoc_cases groups) as [->|(G & g & ->)].
  - simpl. exists [[(sec, image)]]. do 3 eexists.
    split.
    { change (map docx_text [[(sec, image)]]) with [docx_text [(sec, image)]].
      rewrite docx_text_single. reflexivity. }
    split; [|done].
    simpl in Hli. apply nil_length_inv in Hli as ->.
    split; [done|].
    split; [rewrite last_snoc; simpl; f_equal; lia|].
    split; [by repeat constructor|].
    split.
    { intros g pre x post Hg%list_elem_of_singleton E' Hp. subst g.
      destruct pre as [|y pre]; [done|]. simpl in E'. injection E' as _ E'.
      by destruct pre. }
    intros i g _ Hi. simpl in Hi. lia.
  - rewrite (bool_decide_eq_false_2 (map docx_text (G ++ [g]) = []))
      by (rewrite map_app; destruct (map docx_text G); simpl; discriminate).
    rewrite last_snoc in Htk. simpl in Htk.
    rewrite Forall_app, Forall_singleton in Hgs. destruct Hgs as [HGs Hg0].
    rewrite Htk. simpl orb.
    destruct (ctn <? docx_tokens g) eqn:Eb.
    + apply Z.ltb_lt in Eb.
      exists ((G ++ [g]) ++ [[(sec, image)]]). do 3 eexists.
      split.
      { rewrite (map_app _ (G ++ [g])).
        change (map docx_text [[(sec, image)]]) with [docx_text [(sec, image)]].
        rewrite docx_text_single. reflexivity. }
      split; [|by rewrite concat_app; simpl].
      split; [rewrite !length_app in *; simpl in *; lia|].
      split; [by rewrite !last_snoc; simpl; f_equal; lia|].
      split.
      { apply Forall_app; split; [apply Forall_app; split; [done|by apply Forall_singleton]|].
        by apply Forall_singleton. }
      split.
      { intros g' pre x post Hg' E' Hp.
        apply elem_of_app in Hg' as [Hg'|Hg'%list_elem_of_singleton]; [by eapply Hpre|].
        subst g'. destruct pre as [|y pre]; [done|]. simpl in E'. injection E' as _ E'.
        by destruct pre. }
      intros i g' Hi Hlt. rewrite length_app in Hlt. simpl in Hlt.
      rewrite lookup_app_l in Hi by lia.
      destruct (decide (S i < length (G ++ [g]))%nat) as [Hlt'|Hge]; [by eapply Hover|].
      rewrite length_app in Hge, Hlt. simpl in Hge, Hlt.
      assert (i = length G) as -> by lia.
      rewrite list_lookup_middle in Hi by done. by simplify_eq.
    + apply Z.ltb_ge in Eb.
      exists (G ++ [g ++ [(sec, image)]]). do 3 eexists.
      split.
      { rewrite !map_app. simpl. rewrite last_snoc, removelast_last. simpl.
        rewrite docx_text_snoc. reflexivity. }
      split; [|rewrite !concat_app; simpl; by rewrite !app_nil_r, <- app_assoc].
      assert (Hi : imgs <> []).
      { intros ->. rewrite length_app in Hli. simpl in Hli. lia. }
      destruct (snoc_cases imgs) as [->|(i0 & i1 & ->)]; [done|].
      rewrite removelast_last.
      split; [rewrite !length_app in *; simpl in *; lia|].
      split; [rewrite !last_snoc; simpl; rewrite docx_tokens_snoc; simpl; done|].
      split.
      { apply Forall_app; split; [done|]. apply Forall_singleton. by destruct g. }
      split.
      { intros g' pre x post Hg' E' Hp.
        apply elem_of_app in Hg' as [Hg'|Hg'%list_elem_of_singleton].
        { eapply Hpre; [|done..]. apply elem_of_app. by left. }
        subst g'.
        destruct (snoc_cases post) as [->|(post0 & y & ->)].
        - apply app_inj_tail in E' as [<- _]. lia.
        - rewrite app_comm_cons, app_assoc in E'. apply app_inj_tail in E' as [E' _].
          eapply (Hpre g pre x post0); [|done..]. apply elem_of_app. right.
          by apply list_elem_of_singleton. }
      intros i g' Hi' Hlt. rewrite length_app in Hlt. simpl in Hlt.
      rewrite lookup_app_l in Hi' by lia.
      apply (Hover i); [by rewrite lookup_app_l by lia|].
      rewrite length_app. simpl. lia.
Qed.

Lemma docx_inv_run ctn sections : forall groups imgs tks fresh,
  docx_inv num_tokens_from_string ctn groups imgs tks ->
  exists groups' imgs' tks' fresh',
    fold_left (fun st '(sec, image) => add_chunk_docx ctn st ([NL] ++ sec) image)
      sections (map docx_text groups, imgs, tks, fresh)
    = (map docx_text groups', imgs', tks', fresh')
    /\ docx_inv num_tokens_from_string ctn groups' imgs' tks'
    /\ concat groups' = concat groups ++ sections.
Proof.
  induction sections as [|[sec image] sections IH]; intros groups imgs tks fresh Hinv.
  - exists groups, imgs, tks, fresh. simpl. by rewrite app_nil_r.
  - rewrite fold_left_cons. cbv beta iota.
    destruct (docx_inv_step ctn groups imgs tks fresh sec image Hinv)
      as (groups1 & imgs1 & tks1 & fresh1 & E & Hinv1 & Hc1).
    rewrite E.
    destruct (IH groups1 imgs1 tks1 fresh1 Hinv1)
      as (groups' & imgs' & tks' & fresh' & E' & Hinv' & Hc').
    exists groups', imgs', tks', fresh'. split; [done|]. split; [done|].
    rewrite Hc', Hc1, <- app_assoc. done.
Qed.

(** X5. In the default mode [naive_merge_docx] cuts the sections into
    consecutive groups and returns, for every group, the texts of its
    sections, each preceded by a newline, and one image entry.  A group is
    closed only when its tokens exceed [chunk_token_num], and a section
    joins a group only while the tokens of the group do not exceed it. *)
Theorem naive_merge_docx_groups sections ctn delimiter fresh :
  sections <> [] ->
  custom_delimiters delimiter = [] ->
  exists groups,
    concat groups = sections
    /\ fst (naive_merge_docx sections ctn delimiter fresh) = map docx_text groups
    /\ length (snd (naive_merge_docx sections ctn delimiter fresh)) = length groups
    /\ Forall (fun g => g <> []) groups
    /\ (forall g pre x post, g ∈ groups -> g = pre ++ x :: post -> pre <> [] ->
          docx_tokens pre <= ctn)
    /\ (forall i g, groups !! i = Some g -> (S i < length groups)%nat ->
          ctn < docx_tokens g).
Proof.
  intros Hne Hd. unfold NaiveMergeDocx.naive_merge_docx.
  rewrite (bool_decide_eq_false_2 _ Hne), Hd. simpl.
  destruct (docx_inv_run ctn sections [] [] [] fresh)
    as (groups & imgs & tks & fresh' & E & (Hli & _ & Hgs & Hpre & Hover) & Hc).
  { repeat split; try constructor; try done.
    intros ? ? ? ? H. by apply elem_of_nil in H. }
  simpl in E. rewrite E. simpl in Hc. exists groups. done.
Qed.

Lemma filter_filter_and {A} (P Q : A -> bool) (l : list A) :
  List.filter P (List.filter Q l) = List.filter (fun x => Q x && P x) l.
Proof.
  induction l as [|x l IH]; simpl; [done|].
  destruct (Q x); simpl; [destruct (P x)|]; by rewrite IH.
Qed.

Lemma docx_custom_run delims sections : forall cks imgs,
  (forall d, d ∈ delims -> d <> []) ->
  fold_left (NaiveMergeDocx.custom_section delims) sections (cks, imgs)
  = (cks ++ flat_map
              (fun x : pystr * option Image =>
                 map (fun seg => [NL] ++ seg)
                   (List.filter (fun seg => negb (bool_decide (seg = [])))
                      (segments delims (fst x))))
              sections,
     imgs ++ flat_map
               (fun x : pystr * option Image =>
                  replicate
                    (length (List.filter (fun seg => negb (bool_decide (seg = [])))
                               (segments delims (fst x))))
                    (snd x))
               sections).
Proof.
  intros cks imgs Hne. revert cks imgs.
  induction sections as [|[sec image] sections IH]; intros cks imgs.
  - simpl. by rewrite !app_nil_r.
  - rewrite fold_left_cons. unfold NaiveMergeDocx.custom_section at 2.
    rewrite custom_pieces_fold, IH. simpl.
    assert (E : List.filter
                  (fun sub_sec => negb (bool_decide (sub_sec = [])
                                        || bool_decide (sub_sec ∈ delims)))
                  (re_split delims sec)
                = List.filter (fun seg => negb (bool_decide (seg = [])))
                    (segments delims sec)).
    { unfold segments, re_split.
      rewrite <- (scan_split_filter delims Hne sec 0 []) by done.
      rewrite filter_filter_and. apply filter_ext. intros x.
      destruct (bool_decide (x = [])), (bool_decide (x ∈ delims)); done. }
    rewrite E, <- !app_assoc. done.
Qed.

(** X6. In custom-delimiter mode [naive_merge_docx] returns one chunk
    for every non-empty segment between the delimiter matches, whatever the
    token budget: the chunks are those that [naive_merge] returns for the
    texts of the sections, without the chunks that hold a newline only; and
    there is one image entry for every chunk. *)
Theorem naive_merge_docx_custom sections ctn delimiter fresh remove_tag ctn' p :
  custom_delimiters delimiter <> [] ->
  fst (naive_merge_docx sections ctn delimiter fresh)
    = List.filter (fun c => negb (bool_decide (c = [NL])))
        (naive_merge num_tokens_from_string remove_tag
           (Many (Texts (map fst sections))) ctn' delimiter p)
  /\ length (snd (naive_merge_docx sections ctn delimiter fresh))
     = length (fst (naive_merge_docx sections ctn delimiter fresh)).
Proof.
  intros Hd. unfold NaiveMergeDocx.naive_merge_docx.
  rewrite (naive_merge_custom num_tokens_from_string remove_tag) by done.
  change (naive_empty (Many (Texts (map fst sections))))
    with (bool_decide (map fst sections = [])).
  change (naive_pairs (Many (Texts (map fst sections))))
    with (map (fun t : pystr => (t, @nil N)) (map fst sections)).
  destruct (decide (sections = [])) as [->|Hne]; [done|].
  rewrite (bool_decide_eq_false_2 (sections = [])) by done.
  rewrite (bool_decide_eq_false_2 (map fst sections = [])) by (by destruct sections).
  rewrite (bool_decide_eq_false_2 _ Hd). simpl negb. cbv iota.
  rewrite docx_custom_run by (intros d; apply ordered_delimiters_nonempty).
  clear Hne. split.
  - simpl fst. rewrite ?app_nil_l.
    induction sections as [|x l IH]; [done|].
    simpl. rewrite List.filter_app, <- IH. f_equal.
    induction (segments _ (fst x)) as [|seg segs IHs]; [done|].
    simpl. rewrite (custom_chunk_no_pos num_tokens_from_string).
    destruct (decide (seg = [])) as [->|Hseg].
    + simpl. exact IHs.
    + rewrite (bool_decide_eq_false_2 (seg = [])) by done.
      rewrite (bool_decide_eq_false_2 ([NL] ++ seg = [NL])) by (destruct seg; done).
      simpl. by rewrite IHs.
  - simpl fst. simpl snd. rewrite ?app_nil_l.
    induction sections as [|x l IH]; [done|].
    simpl. rewrite !length_app, length_replicate, length_map, IH. done.
Qed.

End NaiveMergeDocxFacts.

Section NaiveMergeVariantsExamples.
Import PyStr NaiveMerge ConcatImg NaiveMergeDocx.

Lemma naive_merge_with_images_chunks_witness :
  let texts := Texts [u "012345678"; u "abc"] in
  let images := [Some red_dot; Some blue_bar] in
  length (as_pairs texts) = length images
  /\ fst (NaiveMergeImages.naive_merge_with_images one_token_per_char
            PositionTag.remove_tag texts images 5 default_delimiter 10 3)
     = naive_merge one_token_per_char PositionTag.remove_tag (Many texts)
         5 default_delimiter 10.
Proof.
  intros texts images.
  assert (H : length (as_pairs texts) = length images) by reflexivity.
  split; [exact H|].
  exact (proj1 (proj2 (naive_merge_with_images_chunks one_token_per_char
                         PositionTag.remove_tag texts images 5 default_delimiter 10 3) H)).
Defined.

Lemma naive_merge_docx_groups_witness :
  let sections := [(u "012345678", Some red_dot); (u "abc", None)] in
  sections <> []
  /\ custom_delimiters default_delimiter = []
  /\ exists groups,
       concat groups = sections
       /\ fst (naive_merge_docx one_token_per_char sections 5 default_delimiter 3)
          = map docx_text groups
       /\ length (snd (naive_merge_docx one_token_per_char sections 5 default_delimiter 3))
          = length groups
       /\ Forall (fun g => g <> []) groups
       /\ (forall g pre x post, g ∈ groups -> g = pre ++ x :: post -> pre <> [] ->
             docx_tokens one_token_per_char pre <= 5)
       /\ (forall i g, groups !! i = Some g -> (S i < length groups)%nat ->
             5 < docx_tokens one_token_per_char g).
Proof.
  intros sections.
  assert (H1 : sections <> []) by discriminate.
  assert (H2 : custom_delimiters default_delimiter = []) by reflexivity.
  split; [exact H1|]. split; [exact H2|].
  exact (naive_merge_docx_groups one_token_per_char sections 5 default_delimiter 3 H1 H2).
Defined.

Lemma naive_merge_docx_custom_witness :
  let sections := [(abc_section ++ [NL; NL], Some red_dot)] in
  custom_delimiters blank_line_delimiter <> []
  /\ fst (naive_merge_docx one_token_per_char sections 128 blank_line_delimiter 3)
     = List.filter (fun c => negb (bool_decide (c = [NL])))
         (naive_merge one_token_per_char PositionTag.remove_tag
            (Many (Texts (map fst sections))) 128 blank_line_delimiter 0)
  /\ length (snd (naive_merge_docx one_token_per_char sections 128 blank_line_delimiter 3))
     = length (fst (naive_merge_docx one_token_per_char sections 128 blank_line_delimiter 3)).
Proof.
  intros sections.
  assert (H : custom_delimiters blank_line_delimiter <> []) by discriminate.
  split; [exact H|].
  exact (naive_merge_docx_custom one_token_per_char sections 128 blank_line_delimiter 3
           PositionTag.remove_tag 128 0 H).
Defined.

End NaiveMergeVariantsExamples.

(** ** Buckets and binary search of the hierarchical merger *)

Section HierarchicalBucketsFacts.
Import PyStr Patterns HierarchicalMerge HierarchicalBuckets.

Lemma ascending_le arr i j a b :
  ascending arr -> (i <= j)%nat -> arr !! i = Some a -> arr !! j = Some b -> (a <= b)%nat.
Proof.
  intros Hasc Hij Ha Hb. destruct (decide (i = j)) as [->|Hne].
  - rewrite Ha in Hb. injection Hb as ->. lia.
  - assert (a < b)%nat by (apply (Hasc i j a b); [lia|done..]). lia.
Qed.

Lemma ascending_snoc arr x :
  ascending arr -> (forall a, a ∈ arr -> (a < x)%nat) -> ascending (arr ++ [x]).
Proof.
  intros Hasc Hx i j a b Hij Ha Hb.
  pose proof (lookup_lt_Some _ _ _ Hb) as Hj. rewrite length_app in Hj. simpl in Hj.
  rewrite lookup_app_l in Ha by lia.
  destruct (decide (j < length arr)%nat) as [Hlt|Hge].
  - rewrite lookup_app_l in Hb by lia. exact (Hasc i j a b Hij Ha Hb).
  - rewrite lookup_app_r in Hb by lia.
    replace (j - length arr)%nat with 0%nat in Hb by lia. injection Hb as <-.
    apply Hx. by eapply list_elem_of_lookup_2.
Qed.

Lemma bs_loop_spec arr target :
  ascending arr -> target ∉ arr ->
  forall fuel s e,
    0 <= s < e -> e <= Z.of_nat (length arr) -> e - s <= Z.of_nat fuel + 1 ->
    (exists a, arr !! Z.to_nat s = Some a /\ (a < target)%nat) ->
    (e = Z.of_nat (length arr) \/ exists b, arr !! Z.to_nat e = Some b /\ (target < b)%nat) ->
    exists jj,
      bs_loop fuel arr target s e = Ok jj
      /\ 0 <= jj < Z.of_nat (length arr)
      /\ (exists a, arr !! Z.to_nat jj = Some a /\ (a < target)%nat)
      /\ (jj + 1 = Z.of_nat (length arr)
          \/ exists b, arr !! Z.to_nat (jj + 1) = Some b /\ (target < b)%nat).
Proof.
  intros Hasc Hnot. induction fuel as [|fuel IH]; intros s e Hse He Hfuel Hs Hend.
  - exists s. simpl. split; [done|]. split; [lia|]. split; [done|].
    assert (e = s + 1) as -> by lia. done.
  - simpl. destruct (1 <? e - s) eqn:E.
    + apply Z.ltb_lt in E.
      set (i := (e + s) `div` 2).
      assert (Hi : 2 * i <= e + s < 2 * i + 2).
      { unfold i. pose proof (Z.mul_div_le (e + s) 2 ltac:(lia)).
        pose proof (Z.mul_succ_div_gt (e + s) 2 ltac:(lia)). lia. }
      destruct (lookup_lt_is_Some_2 arr (Z.to_nat i) ltac:(lia)) as [a Ha].
      rewrite Ha.
      destruct (a <? target)%nat eqn:E1.
      * apply Nat.ltb_lt in E1. apply IH; [lia|lia|lia|eauto|done].
      * apply Nat.ltb_ge in E1.
        destruct (target <? a)%nat eqn:E2.
        -- apply Nat.ltb_lt in E2. apply IH; [lia|lia|lia|done|eauto].
        -- apply Nat.ltb_ge in E2. exfalso. apply Hnot.
           assert (a = target) as <- by lia. by eapply list_elem_of_lookup_2.
    + apply Z.ltb_ge in E. exists s. split; [done|]. split; [lia|]. split; [done|].
      assert (e = s + 1) as -> by lia. done.
Qed.

Lemma binary_search_unfold arr a0 an target :
  arr !! 0%nat = Some a0 -> last arr = Some an ->
  binary_search arr target
    = if (an <? target)%nat then Ok (Z.of_nat (length arr) - 1)
      else if (target <? a0)%nat then Ok (-1)
      else bs_loop (length arr) arr target 0 (Z.of_nat (length arr)).
Proof.
  intros H0 Hl. unfold binary_search.
  destruct arr as [|x arr']; [done|]. injection H0 as ->. by rewrite Hl.
Qed.

(** The result of the search on a bucket without the target. *)
Lemma binary_search_index arr target :
  ascending arr -> target ∉ arr ->
  exists jj,
    binary_search arr target = Ok jj
    /\ -1 <= jj < Z.of_nat (length arr)
    /\ forall k v, arr !! k = Some v -> ((v < target)%nat <-> Z.of_nat k <= jj).
Proof.
  intros Hasc Hnot.
  destruct (decide (arr = [])) as [->|Hnil].
  { exists (-1). split; [done|]. split; [simpl; lia|]. intros k v Hk. by destruct k. }
  assert (Hlen : (0 < length arr)%nat) by (destruct arr; [done|simpl; lia]).
  destruct (lookup_lt_is_Some_2 arr 0 Hlen) as [a0 H0].
  destruct (lookup_lt_is_Some_2 arr (length arr - 1) ltac:(lia)) as [an Han].
  assert (Hlast : last arr = Some an).
  { rewrite last_lookup. rewrite <- Han. f_equal. lia. }
  rewrite (binary_search_unfold arr a0 an target H0 Hlast).
  assert (Hne : forall k v, arr !! k = Some v -> v <> target).
  { intros k v Hk ->. apply Hnot. by eapply list_elem_of_lookup_2. }
  destruct (an <? target)%nat eqn:E1.
  - apply Nat.ltb_lt in E1. exists (Z.of_nat (length arr) - 1).
    split; [done|]. split; [lia|]. intros k v Hk.
    pose proof (lookup_lt_Some _ _ _ Hk).
    assert (v <= an)%nat by (eapply (ascending_le arr k (length arr - 1)); [done|lia|done..]).
    lia.
  - apply Nat.ltb_ge in E1.
    assert (target < an)%nat by (specialize (Hne _ _ Han); lia).
    destruct (target <? a0)%nat eqn:E2.
    + apply Nat.ltb_lt in E2. exists (-1). split; [done|]. split; [lia|].
      intros k v Hk.
      assert (a0 <= v)%nat by (eapply (ascending_le arr 0 k); [done|lia|done..]).
      lia.
    + apply Nat.ltb_ge in E2.
      assert (a0 < target)%nat by (specialize (Hne _ _ H0); lia).
      destruct (bs_loop_spec arr target Hasc Hnot (length arr) 0 (Z.of_nat (length arr)))
        as (jj & Ejj & Hjj & (a & Ha & Hat) & Hnext); [lia|lia|lia|by exists a0|by left|].
      exists jj. split; [done|]. split; [lia|].
      destruct Hnext as [Hnext|(b & Hb & Hbt)].
      { assert (Z.to_nat jj = (length arr - 1)%nat) as Ej by lia.
        rewrite Ej, Han in Ha. injection Ha as ->. lia. }
      intros k v Hk. split.
      * intros Hv. destruct (decide (Z.of_nat k <= jj)) as [|Hgt]; [done|].
        assert (b <= v)%nat
          by (eapply (ascending_le arr (Z.to_nat (jj + 1)) k); [done|lia|done..]).
        lia.
      * intros Hle.
        assert (v <= a)%nat
          by (eapply (ascending_le arr k (Z.to_nat jj)); [done|lia|done..]).
        lia.
Qed.

(** X7. On a strictly ascending bucket that does not hold the target,
    [binary_search] returns, without raising, the index of the last
    element below the target, or -1 when there is none: the elements up
    to the returned index are those that are smaller than the target. *)
Theorem binary_search_spec arr target :
  ascending arr -> target ∉ arr ->
  exists jj,
    binary_search arr target = Ok jj
    /\ -1 <= jj < Z.of_nat (length arr)
    /\ forall k v, arr !! k = Some v -> ((v < target)%nat <-> Z.of_nat k <= jj).
Proof. exact (binary_search_index arr target). Qed.

Lemma fill_levels_snoc pats sections s :
  fill_levels pats (sections ++ [s])
    = alter (fun b => b ++ [length sections]) (bucket_of pats s) (fill_levels pats sections).
Proof.
  unfold fill_levels. rewrite imap_app, fold_left_app. simpl.
  by rewrite Nat.add_0_r.
Qed.

Lemma fill_levels_length pats sections :
  length (fill_levels pats sections) = (length pats + 2)%nat.
Proof.
  induction sections as [|s sections IH] using rev_ind.
  - unfold fill_levels. simpl. by rewrite length_replicate.
  - by rewrite fill_levels_snoc, length_alter.
Qed.

Lemma bucket_of_range pats s : (bucket_of pats s < length pats + 2)%nat.
Proof.
  destruct s as [txt layout]. unfold bucket_of.
  destruct (TreeMerge.first_match _ _ _) as [j|] eqn:E.
  - apply first_match_range in E. lia.
  - destruct (_ && _); lia.
Qed.

Lemma bucket_indices_snoc pats sections s b :
  bucket_indices pats (sections ++ [s]) b
    = bucket_indices pats sections b
      ++ (if decide (bucket_of pats s = b) then [length sections] else []).
Proof.
  unfold bucket_indices. rewrite length_app. simpl. rewrite Nat.add_1_r, seq_S.
  rewrite List.filter_app. simpl. f_equal.
  - apply filter_ext_in. intros i Hi%in_seq.
    by rewrite lookup_app_l by lia.
  - rewrite list_lookup_middle by done. simpl.
    destruct (decide (bucket_of pats s = b)) as [->|Hne].
    + by rewrite bool_decide_eq_true_2.
    + by rewrite bool_decide_eq_false_2 by congruence.
Qed.

Lemma fill_levels_lookup pats sections b :
  (b < length pats + 2)%nat ->
  fill_levels pats sections !! b = Some (bucket_indices pats sections b).
Proof.
  intros Hb. induction sections as [|s sections IH] using rev_ind.
  - unfold fill_levels. simpl. by rewrite lookup_replicate_2.
  - rewrite fill_levels_snoc, bucket_indices_snoc.
    destruct (decide (bucket_of pats s = b)) as [->|Hne].
    + rewrite list_lookup_alter_eq, IH. done.
    + rewrite list_lookup_alter_ne, IH by done. by rewrite app_nil_r.
Qed.

(** X8. The buckets that [hierarchical_merge] fills partition the
    section indices: there are [bullets_size + 2] of them, and bucket [b]
    holds, in ascending order, exactly the indices of the sections whose
    first matching pattern is [b] (or that are layout titles, for
    [bullets_size], or neither, for [bullets_size + 1]).  Hence every
    index lies in exactly one bucket. *)
Theorem fill_levels_buckets pats sections :
  length (fill_levels pats sections) = (length pats + 2)%nat
  /\ (forall b, (b < length pats + 2)%nat ->
        fill_levels pats sections !! b = Some (bucket_indices pats sections b))
  /\ (forall i s, sections !! i = Some s ->
        exists arr, fill_levels pats sections !! bucket_of pats s = Some arr /\ i ∈ arr)
  /\ (forall b arr i, fill_levels pats sections !! b = Some arr -> i ∈ arr ->
        bucket_of pats <$> sections !! i = Some b).
Proof.
  split; [apply fill_levels_length|]. split; [intros b; apply fill_levels_lookup|]. split.
  - intros i s Hi. eexists. split; [apply fill_levels_lookup, bucket_of_range|].
    unfold bucket_indices. apply list_elem_of_In, filter_In. split.
    + apply in_seq. apply lookup_lt_Some in Hi. lia.
    + rewrite Hi. simpl. by apply bool_decide_eq_true_2.
  - intros b arr i Hb Hi.
    pose proof (lookup_lt_Some _ _ _ Hb) as Hlt. rewrite fill_levels_length in Hlt.
    rewrite fill_levels_lookup in Hb by done. injection Hb as <-.
    unfold bucket_indices in Hi. apply list_elem_of_In, filter_In in Hi as [_ Hi].
    by apply bool_decide_eq_true in Hi.
Qed.

End HierarchicalBucketsFacts.

(** ** The hierarchical merger never raises *)

Section HierarchicalTotalFacts.
Import PyStr Patterns HierarchicalMerge HierarchicalBuckets.

Lemma bucket_indices_ascending pats sections b :
  ascending (bucket_indices pats sections b)
  /\ forall x, x ∈ bucket_indices pats sections b -> (x < length sections)%nat.
Proof.
  induction sections as [|s sections [IHa IHb]] using rev_ind.
  - split; [intros i j a c _ Ha; by destruct i|].
    intros x Hx. by apply not_elem_of_nil in Hx.
  - rewrite bucket_indices_snoc, length_app. simpl.
    destruct (decide (bucket_of pats s = b)).
    + split; [by apply ascending_snoc|].
      intros x [Hx|Hx%list_elem_of_singleton]%elem_of_app; [apply IHb in Hx|]; lia.
    + rewrite app_nil_r. split; [done|]. intros x Hx%IHb. lia.
Qed.

Lemma rev_lookup {A} (l : list A) (i : nat) :
  (i < length l)%nat -> rev l !! i = l !! (length l - S i)%nat.
Proof. intros Hi. rewrite rev_alt. by apply reverse_lookup. Qed.

Lemma levels_ok_fill pats sections :
  levels_ok (length sections) (rev (fill_levels pats sections)).
Proof.
  assert (Hlookup : forall i arr, rev (fill_levels pats sections) !! i = Some arr ->
            (i < length pats + 2)%nat
            /\ arr = bucket_indices pats sections (length pats + 2 - S i)).
  { intros i arr Hi. pose proof (lookup_lt_Some _ _ _ Hi) as Hlt.
    rewrite length_rev, fill_levels_length in Hlt. split; [done|].
    rewrite rev_lookup in Hi by (rewrite fill_levels_length; lia).
    rewrite fill_levels_length, fill_levels_lookup in Hi by lia. by injection Hi. }
  split.
  - intros i arr (_ & ->)%Hlookup. apply bucket_indices_ascending.
  - intros i1 i2 a1 a2 x (Hl1 & ->)%Hlookup (Hl2 & ->)%Hlookup Hne H1 H2.
    unfold bucket_indices in H1, H2.
    apply list_elem_of_In, filter_In in H1 as [_ H1%bool_decide_eq_true].
    apply list_elem_of_In, filter_In in H2 as [_ H2%bool_decide_eq_true].
    rewrite H1 in H2. injection H2. lia.
Qed.

(** Extending a group by what the search finds in one deeper bucket. *)
Lemma extend_step_ok j rest arr :
  Forall (fun v => (v < j)%nat) rest -> ascending arr -> j ∉ arr ->
  exists rest',
    extend_step j (Ok (j :: rest)) arr = Ok (j :: rest')
    /\ Forall (fun v => (v < j)%nat) rest'.
Proof.
  intros Hrest Hasc Hnot. unfold extend_step.
  destruct (binary_search_index arr j Hasc Hnot) as (jj & -> & Hjj & Hspec).
  simpl. destruct (jj <? 0) eqn:E; [by exists rest|].
  apply Z.ltb_ge in E.
  destruct (lookup_lt_is_Some_2 arr (Z.to_nat jj) ltac:(lia)) as [v Hv].
  assert (Hvj : (v < j)%nat) by (apply (Hspec _ _ Hv); lia).
  rewrite (get_at arr jj (Z.to_nat jj) v Hv)
    by (destruct (jj <? 0) eqn:E'; [apply Z.ltb_lt in E'; lia|lia]).
  simpl.
  destruct (snoc_cases rest) as [->|(init & lst & ->)].
  - change (PyList.get [j] (-1)) with (Ok j). simpl.
    assert ((j <? v)%nat = false) as -> by (apply Nat.ltb_ge; lia).
    exists [v]. split; [done|]. by apply Forall_singleton.
  - rewrite app_comm_cons, get_last_snoc, removelast_last. simpl.
    pose proof Hrest as [Hinit _]%Forall_app.
    destruct (lst <? v)%nat.
    + exists (init ++ [v]). split; [by destruct init|].
      apply Forall_app. split; [done|]. by apply Forall_singleton.
    + exists ((init ++ [lst]) ++ [v]). split; [done|].
      apply Forall_app. split; [done|]. by apply Forall_singleton.
Qed.

Lemma extend_fold_ok j arrs : forall rest,
  Forall (fun v => (v < j)%nat) rest ->
  Forall (fun arr => ascending arr /\ j ∉ arr) arrs ->
  exists rest',
    fold_left (extend_step j) arrs (Ok (j :: rest)) = Ok (j :: rest')
    /\ Forall (fun v => (v < j)%nat) rest'.
Proof.
  induction arrs as [|arr arrs IH]; intros rest Hrest Harrs.
  - exists rest. done.
  - apply Forall_cons in Harrs as [[Hasc Hnot] Harrs].
    rewrite fold_left_cons.
    destruct (extend_step_ok j rest arr Hrest Hasc Hnot) as (rest1 & -> & Hrest1).
    by apply IH.
Qed.

Lemma mark_read_length grp readed : length (mark_read grp readed) = length readed.
Proof.
  unfold mark_read. revert readed.
  induction grp as [|i grp IH]; intros readed; simpl; [done|].
  by rewrite IH, length_insert.
Qed.

Lemma visit_ok n levels i arr j st :
  levels_ok n levels -> levels !! i = Some arr -> j ∈ arr -> state_ok n st ->
  exists st', visit levels i (Ok st) j = Ok st' /\ state_ok n st'.
Proof.
  intros [Hasc Hdisj] Hi Hj [Hlen Hgroups]. destruct st as [cks readed].
  simpl in Hlen, Hgroups. unfold visit. simpl.
  assert (Hjn : (j < n)%nat) by (by apply (proj2 (Hasc _ _ Hi))).
  destruct (lookup_lt_is_Some_2 readed j ltac:(lia)) as [b Hb]. rewrite Hb.
  destruct b; [by exists (cks, readed)|].
  destruct (bool_decide _).
  - eexists. split; [done|]. split; simpl; [by rewrite length_insert|].
    apply Forall_app. split; [done|]. apply Forall_singleton.
    exists j, []. done.
  - destruct (extend_fold_ok j (drop (S i) levels) []) as (rest & -> & Hrest).
    + constructor.
    + apply Forall_forall. intros arr' Hin.
      apply list_elem_of_lookup in Hin as [k Hk]. rewrite lookup_drop in Hk.
      split; [by apply (proj1 (Hasc _ _ Hk))|].
      apply (Hdisj i (S i + k)%nat arr arr' j); [done|done|lia|done].
    + simpl. eexists. split; [done|]. split; simpl.
      * by rewrite mark_read_length, !length_insert.
      * apply Forall_app. split; [done|]. apply Forall_singleton.
        exists j, rest. done.
Qed.

Lemma visit_fold_ok n levels i arr js : forall st,
  levels_ok n levels -> levels !! i = Some arr -> (forall j, j ∈ js -> j ∈ arr) ->
  state_ok n st ->
  exists st', fold_left (visit levels i) js (Ok st) = Ok st' /\ state_ok n st'.
Proof.
  induction js as [|j js IH]; intros st Hok Hi Hjs Hst.
  - exists st. done.
  - rewrite fold_left_cons.
    destruct (visit_ok n levels i arr j st Hok Hi) as (st1 & -> & Hst1);
      [apply Hjs, list_elem_of_here|done|].
    apply IH; [done|done| |done]. intros j' Hj'. by apply Hjs, list_elem_of_further.
Qed.

Lemma buckets_fold_ok n levels (buckets : list (nat * list nat)) : forall st,
  levels_ok n levels ->
  (forall i arr, (i, arr) ∈ buckets -> levels !! i = Some arr) ->
  state_ok n st ->
  exists st',
    fold_left (fun st '(i, arr) => fold_left (visit levels i) arr st) buckets (Ok st)
      = Ok st'
    /\ state_ok n st'.
Proof.
  induction buckets as [|[i arr] buckets IH]; intros st Hok Hb Hst.
  - exists st. done.
  - rewrite fold_left_cons. cbv beta iota.
    destruct (visit_fold_ok n levels i arr arr st Hok) as (st1 & -> & Hst1);
      [apply Hb, list_elem_of_here|done|done|].
    apply IH; [done| |done]. intros i' arr' Hin. by apply Hb, list_elem_of_further.
Qed.

Lemma group_indices_ok pats sections dpt :
  exists st,
    group_indices (fill_levels pats sections) (length sections) dpt = Ok st
    /\ state_ok (length sections) st.
Proof.
  unfold group_indices.
  apply buckets_fold_ok.
  - apply levels_ok_fill.
  - intros i arr Hin. apply list_elem_of_lookup in Hin as [k Hk].
    rewrite list_lookup_imap in Hk.
    destruct (PyList.slice_to _ _ !! k) as [arr'|] eqn:E; [|done].
    simpl in Hk. injection Hk as <- <-.
    unfold PyList.slice_to in E. by apply lookup_take_Some in E as [E _].
  - split; simpl; [by rewrite length_replicate|constructor].
Qed.

Lemma mapM_result_ok {A B} (f : A -> result B) (l : list A) :
  (forall x, x ∈ l -> exists y, f x = Ok y) -> exists ys, mapM_result f l = Ok ys.
Proof.
  induction l as [|x l IH]; intros Hf; simpl; [by eexists|].
  destruct (Hf x) as [y ->]; [apply list_elem_of_here|].
  destruct IH as [ys ->]; [intros x' Hx'; by apply Hf, list_elem_of_further|].
  simpl. by eexists.
Qed.


End HierarchicalTotalFacts.

Section HierarchicalMoreExamples.
Import PyStr Patterns HierarchicalMerge HierarchicalBuckets.

Lemma binary_search_spec_witness :
  ascending [2; 5; 9]%nat
  /\ (6%nat ∉ [2; 5; 9]%nat)
  /\ exists jj,
       binary_search [2; 5; 9]%nat 6 = Ok jj
       /\ -1 <= jj < 3
       /\ forall k v, [2; 5; 9]%nat !! k = Some v -> ((v < 6)%nat <-> Z.of_nat k <= jj).
Proof.
  assert (H1 : ascending [2; 5; 9]%nat).
  { intros i j a b Hij Ha Hb.
    destruct i as [|[|[|i]]]; destruct j as [|[|[|j]]]; simpl in *; simplify_eq; lia. }
  assert (H2 : 6%nat ∉ [2; 5; 9]%nat) by (apply (bool_decide_unpack _); vm_compute; exact I).
  split; [exact H1|]. split; [exact H2|].
  exact (binary_search_spec [2; 5; 9]%nat 6 H1 H2).
Defined.


End HierarchicalMoreExamples.

(** ** Sentences and context of the media context attacher *)

Section MediaContextMoreFacts.
Import PyStr MediaContext MediaContextKept.

Variable num_tokens_from_string : pystr -> Z.
Variable tokenize : pystr -> pystr.
Variable fine_grained_tokenize : pystr -> pystr.

Local Abbreviation trim_to_tokens := (trim_to_tokens num_tokens_from_string).
Local Abbreviation collect_sentences := (collect_sentences num_tokens_from_string).
Local Abbreviation attach_step :=
  (attach_step num_tokens_from_string tokenize fine_grained_tokenize).
Local Abbreviation attach_media_context :=
  (attach_media_context num_tokens_from_string tokenize fine_grained_tokenize).
Local Abbreviation store_combined := (store_combined tokenize fine_grained_tokenize).

Lemma split_sentences_aux_concat s : forall buf,
  concat (split_sentences_aux buf s) = rev buf ++ s.
Proof.
  induction s as [|c s IH]; intros buf; simpl.
  - destruct buf; simpl; by rewrite ?app_nil_r.
  - destruct (sentence_end c); simpl; rewrite IH; simpl; by rewrite <- app_assoc.
Qed.

Lemma split_sentences_aux_shape s : forall buf,
  Forall (fun c => sentence_end c = false) buf ->
  Forall sentence_shape (split_sentences_aux buf s).
Proof.
  induction s as [|c s IH]; intros buf Hbuf; simpl.
  - destruct buf as [|b buf]; [constructor|].
    apply Forall_singleton. split; [simpl; by destruct (rev buf)|].
    exists (rev (b :: buf)). split; [|by left].
    apply Forall_forall. intros x Hx. rewrite Forall_forall in Hbuf. apply Hbuf.
    apply list_elem_of_In. apply in_rev. by apply list_elem_of_In.
  - destruct (sentence_end c) eqn:E.
    + apply Forall_cons. split; [|apply IH; constructor].
      split; [simpl; by destruct (rev buf)|].
      exists (rev buf). split; [|right; by exists c].
      apply Forall_forall. intros x Hx. rewrite Forall_forall in Hbuf. apply Hbuf.
      apply list_elem_of_In. apply in_rev. by apply list_elem_of_In.
    + apply IH. by apply Forall_cons.
Qed.

Lemma split_sentences_parts (s : pystr) :
  concat (split_sentences s) = s
  /\ Forall sentence_shape (split_sentences s).
Proof.
  split; [apply (split_sentences_aux_concat s [])|].
  apply split_sentences_aux_shape. constructor.
Qed.

(** X10. [split_sentences] cuts a text into its sentences without
    changing it: the sentences joined together are the text, none is
    empty, and a sentence-ending character occurs in a sentence only as
    its last character. *)
Theorem split_sentences_partition (s : pystr) :
  concat (split_sentences s) = s
  /\ Forall sentence_shape (split_sentences s).
Proof.
  split; [apply (split_sentences_aux_concat s [])|].
  apply split_sentences_aux_shape. constructor.
Qed.

Lemma collect_sentences_take (seq : list pystr) : forall remaining,
  Forall (fun x => 0 < num_tokens_from_string x) seq ->
  exists k, collect_sentences seq remaining = take k seq
            /\ (k <= length seq)%nat /\ (seq <> [] -> (1 <= k)%nat).
Proof.
  induction seq as [|x seq IH]; intros remaining Hpos.
  - exists 0%nat. simpl. split; [done|]. split; [lia|done].
  - apply Forall_cons in Hpos as [Hx Hpos]. simpl.
    assert ((num_tokens_from_string x <=? 0) = false) as -> by (apply Z.leb_gt; lia).
    destruct (remaining <? num_tokens_from_string x).
    + exists 1%nat. simpl. rewrite take_0. split; [done|]. split; [lia|done].
    + destruct (IH (remaining - num_tokens_from_string x) Hpos) as (k & -> & Hk & _).
      exists (S k). simpl. split; [done|]. split; [lia|lia].
Qed.

Lemma sentences_positive (txt : pystr) :
  (forall x : pystr, x <> [] -> 0 < num_tokens_from_string x) ->
  Forall (fun x => 0 < num_tokens_from_string x) (split_sentences txt).
Proof.
  intros Hpos. eapply Forall_impl; [apply (proj2 (split_sentences_parts txt))|].
  intros x [Hx _]. by apply Hpos.
Qed.

Lemma rev_take_rev {A} (l : list A) (k : nat) :
  (k <= length l)%nat -> rev (take k (rev l)) = drop (length l - k) l.
Proof.
  intros Hk. rewrite firstn_rev, rev_involutive. done.
Qed.

(** X11. When the token counter gives every non-empty text at least one
    token, the context that [trim_to_tokens] cuts from a text is made of
    whole sentences from one end of it: the first sentences of the text,
    or its last ones when [from_tail] is set.  It is therefore a prefix,
    or a suffix, of the text; and for a positive budget and a non-empty
    text it is never empty, however small the budget. *)
Theorem trim_to_tokens_whole_sentences (txt : pystr) (token_budget : Z) :
  (forall x : pystr, x <> [] -> 0 < num_tokens_from_string x) ->
  (exists k, trim_to_tokens txt token_budget false = concat (take k (split_sentences txt)))
  /\ (exists k, trim_to_tokens txt token_budget true = concat (drop k (split_sentences txt)))
  /\ trim_to_tokens txt token_budget false `prefix_of` txt
  /\ trim_to_tokens txt token_budget true `suffix_of` txt
  /\ (0 < token_budget -> txt <> [] ->
      trim_to_tokens txt token_budget false <> []
      /\ trim_to_tokens txt token_budget true <> []).
Proof.
  intros Hpos.
  destruct (split_sentences_parts txt) as [Hcat Hshape].
  pose proof (sentences_positive txt Hpos) as Hsp.
  assert (Hsr : Forall (fun x => 0 < num_tokens_from_string x) (rev (split_sentences txt))).
  { apply Forall_forall. intros x Hx. rewrite Forall_forall in Hsp. apply Hsp.
    apply list_elem_of_In. apply in_rev. by apply list_elem_of_In. }
  assert (Hpre : forall k, concat (take k (split_sentences txt)) `prefix_of` txt).
  { intros k. exists (concat (drop k (split_sentences txt))).
    by rewrite <- concat_app, take_drop. }
  assert (Hsuf : forall k, concat (drop k (split_sentences txt)) `suffix_of` txt).
  { intros k. exists (concat (take k (split_sentences txt))).
    by rewrite <- concat_app, take_drop. }
  unfold MediaContext.trim_to_tokens.
  destruct ((token_budget <=? 0) || bool_decide (txt = [])) eqn:E.
  { split; [by exists 0%nat|].
    split; [exists (length (split_sentences txt)); by rewrite drop_all|].
    split; [apply prefix_nil|]. split; [apply suffix_nil|].
    intros Hb Ht. apply orb_true_iff in E as [E%Z.leb_le|E%bool_decide_eq_true]; [lia|done]. }
  destruct (collect_sentences_take (split_sentences txt) token_budget Hsp)
    as (k1 & -> & Hk1 & Hk1').
  destruct (collect_sentences_take (rev (split_sentences txt)) token_budget Hsr)
    as (k2 & -> & Hk2 & Hk2').
  rewrite length_rev in Hk2. rewrite rev_take_rev by done.
  split; [by exists k1|]. split; [by eexists|].
  split; [apply Hpre|]. split; [apply Hsuf|].
  intros _ Ht.
  assert (Hne : split_sentences txt <> []) by (intros Hnil; rewrite Hnil in Hcat; by subst).
  assert (Hner : rev (split_sentences txt) <> []).
  { intros Hnil. apply Hne. by rewrite <- (rev_involutive (split_sentences txt)), Hnil. }
  specialize (Hk1' Hne). specialize (Hk2' Hner).
  split.
  - destruct (split_sentences txt) as [|x l]; [done|].
    destruct k1 as [|k1]; [lia|]. simpl.
    apply Forall_cons in Hshape as [[Hx _] _]. by destruct x.
  - destruct (snoc_cases (split_sentences txt)) as [E'|(init & lst & E')]; [done|].
    rewrite E' in *. rewrite length_app in *. simpl in *.
    rewrite drop_app_le by lia. rewrite concat_app. simpl.
    apply Forall_app in Hshape as [_ Hl]. apply Forall_singleton in Hl as [Hl _].
    intros Hnil. apply app_eq_nil in Hnil as [_ Hnil]. rewrite app_nil_r in Hnil. done.
Qed.

(** *** Chunks that are kept *)

Lemma kept_refl c : kept c c.
Proof. split; [done|]. by repeat split. Qed.

Lemma store_combined_same_media c combined : same_media c (store_combined c combined).
Proof. by repeat split. Qed.

Lemma same_media_trans a b c : same_media a b -> same_media b c -> same_media a c.
Proof.
  intros (? & ? & ? & ? & ? & ? & ? & ?) (? & ? & ? & ? & ? & ? & ? & ?).
  repeat split; congruence.
Qed.

Lemma attach_step_kept tcs ics ordered chunks0 chunks entry :
  Forall2 kept chunks0 chunks ->
  Forall2 kept chunks0 (attach_step tcs ics ordered chunks entry).
Proof.
  intros Hk. destruct entry as [sorted_pos idx]. unfold MediaContext.attach_step.
  destruct (chunks !! idx) as [ck|] eqn:Eck; [|done].
  destruct (_ <=? 0) eqn:Eb; [done|].
  destruct (_ && _); [done|].
  apply Forall2_lookup. intros i.
  destruct (decide (i = idx)) as [->|Hne].
  - rewrite list_lookup_insert_eq by (by eapply lookup_lt_Some).
    destruct (Forall2_lookup_r _ _ _ _ _ Hk Eck) as (c0 & Hc0 & [Htext Hmedia]).
    rewrite Hc0. constructor. split.
    + intros Ht. specialize (Htext Ht). subst ck. exfalso.
      unfold is_text_chunk in Ht. apply andb_true_iff in Ht as [Hi Htb].
      apply negb_true_iff in Hi. apply negb_true_iff in Htb.
      rewrite Hi, Htb in Eb. simpl in Eb. done.
    + eapply same_media_trans; [exact Hmedia|apply store_combined_same_media].
  - rewrite list_lookup_insert_ne by done. by apply Forall2_lookup.
Qed.

Lemma attach_fold_kept tcs ics ordered entries : forall chunks0 chunks,
  Forall2 kept chunks0 chunks ->
  Forall2 kept chunks0 (fold_left (attach_step tcs ics ordered) entries chunks).
Proof.
  induction entries as [|e entries IH]; intros chunks0 chunks Hk; [done|].
  rewrite fold_left_cons. by apply IH, attach_step_kept.
Qed.

Lemma imap_index_fst {A} (l : list A) (k : nat) :
  map fst (imap (fun idx x => ((k + idx)%nat, x)) l) = seq k (length l).
Proof.
  revert k. induction l as [|c l IH]; intros k; [done|].
  simpl. rewrite Nat.add_0_r. f_equal.
  rewrite <- (IH (S k)). f_equal. apply imap_ext. intros i x _. simpl. f_equal. lia.
Qed.

Lemma position_partition {B} (ep : B -> option Z * option Z * option Z)
    (l : list (nat * B)) :
  map (fun '(idx, _, _, _) => idx)
    (omap (fun '(idx, ck) =>
             match ep ck with
             | (Some pn, Some tp, lft) => Some (idx, pn, tp, default 0 lft)
             | _ => None
             end) l)
  ++ omap (fun '(idx, ck) =>
             match ep ck with
             | (Some pn, Some tp, _) => None
             | _ => Some idx
             end) l
  ≡ₚ map fst l.
Proof.
  induction l as [|[idx ck] l IH]; [done|]. csimpl.
  destruct (ep ck) as [[[pn|] [tp|]] lft]; csimpl;
    try (by rewrite IH);
    by rewrite <- Permutation_middle, IH.
Qed.

Lemma omap_lookup_seq {A} (pre l : list A) :
  omap (fun i => (pre ++ l) !! i) (seq (length pre) (length l)) = l.
Proof.
  revert pre. induction l as [|x l IH]; intros pre; [done|].
  csimpl. rewrite list_lookup_middle by done. f_equal.
  specialize (IH (pre ++ [x])). rewrite length_app, Nat.add_1_r, <- app_assoc in IH.
  exact IH.
Qed.

Lemma ordered_indices_perm chunks :
  fst (ordered_indices chunks) ≡ₚ seq 0 (length chunks).
Proof.
  unfold ordered_indices.
  pose proof (imap_index_fst chunks 0) as Hfst. simpl in Hfst.
  set (indexed := imap (fun idx (ck : chunk) => (idx, ck)) chunks) in *.
  pose proof (position_partition extract_position indexed) as Hpart.
  destruct (omap _ indexed) as [|p ps] eqn:E.
  - simpl. by rewrite Hfst.
  - simpl fst. rewrite merge_sort_Permutation, Hpart, Hfst. done.
Qed.

(** X12. [attach_media_context] returns the chunks it was given, in
    position order when some chunk has a position: the result is a
    rearrangement of a list that holds, index by index, every text chunk
    unchanged and every other chunk with its kind, image and position
    keys unchanged.  No chunk is dropped, duplicated or created; only the
    text and token keys of image and table chunks are rewritten.  Without
    positions the order is kept as well. *)
Theorem attach_media_context_keeps chunks tcs ics :
  exists chunks',
    Forall2 kept chunks chunks'
    /\ attach_media_context chunks tcs ics ≡ₚ chunks'
    /\ (snd (ordered_indices chunks) = false -> attach_media_context chunks tcs ics = chunks').
Proof.
  unfold MediaContext.attach_media_context.
  destruct (bool_decide (chunks = []) || _).
  { exists chunks. split; [|done]. apply Forall2_same_length_lookup_2; [done|].
    intros i c c' Hc Hc'. rewrite Hc in Hc'. injection Hc' as <-. apply kept_refl. }
  pose proof (ordered_indices_perm chunks) as Hperm.
  destruct (ordered_indices chunks) as [ordered positioned]. simpl in Hperm.
  set (chunks' := fold_left _ _ chunks).
  assert (Hk : Forall2 kept chunks chunks').
  { apply attach_fold_kept. apply Forall2_same_length_lookup_2; [done|].
    intros i c c' Hc Hc'. rewrite Hc in Hc'. injection Hc' as <-. apply kept_refl. }
  exists chunks'. split; [done|].
  destruct positioned; [|done]. split; [|done].
  rewrite Hperm. apply Forall2_length in Hk. rewrite Hk.
  pose proof (omap_lookup_seq [] chunks') as E. simpl in E. by rewrite E.
Qed.

End MediaContextMoreFacts.

Section MediaContextOrderFacts.
Import PyStr MediaContext MediaContextKept.

Variable num_tokens_from_string : pystr -> Z.
Variable tokenize : pystr -> pystr.
Variable fine_grained_tokenize : pystr -> pystr.

Local Abbreviation attach_media_context :=
  (attach_media_context num_tokens_from_string tokenize fine_grained_tokenize).

Lemma key_le_transitive : Transitive key_le.
Proof.
  intros [[[ia pa] ta] la] [[[ib pb] tb] lb] [[[ic pc] tc] lc]. unfold key_le. lia.
Qed.

Lemma key_le_total : Total key_le.
Proof.
  intros [[[ia pa] ta] la] [[[ib pb] tb] lb]. unfold key_le. lia.
Qed.

Lemma kept_position_key c c' : kept c c' -> position_key c' = position_key c.
Proof.
  intros [_ (_ & _ & Hp & Hpn & Ht & Htop & Hpos & Hx)].
  unfold position_key, extract_position. by rewrite Hp, Hpn, Ht, Htop, Hpos, Hx.
Qed.

Lemma omap_lookup_valid {A} (l : list A) (idxs : list nat) (k : nat) :
  Forall (fun i => (i < length l)%nat) idxs ->
  omap (fun i => l !! i) idxs !! k = idxs !! k ≫= (fun i => l !! i).
Proof.
  revert k. induction idxs as [|i idxs IH]; intros k Hv; [done|].
  apply Forall_cons in Hv as [Hi Hv]. csimpl.
  destruct (lookup_lt_is_Some_2 l i Hi) as [x Hx]. rewrite Hx.
  destruct k as [|k]; simpl; [done|]. by apply IH.
Qed.

(** The entries of the position sort and the indices left out of it. *)
Lemma positioned_entry (chunks : list chunk) (idx : nat) (pn tp lft : Z) :
  (idx, pn, tp, lft) ∈ omap (fun '(idx, ck) =>
              match extract_position ck with
              | (Some pn, Some tp, lft) => Some (idx, pn, tp, default 0 lft)
              | _ => None
              end) (imap (fun idx ck => (idx, ck)) chunks) ->
  exists ck, chunks !! idx = Some ck /\ position_key ck = Some (pn, tp, lft).
Proof.
  intros ([idx' ck] & Hin & He)%list_elem_of_omap.
  apply list_elem_of_lookup in Hin as [k Hk]. rewrite list_lookup_imap in Hk.
  destruct (chunks !! k) as [c|] eqn:Ec; [|done]. simpl in Hk. injection Hk as <- <-.
  destruct (extract_position c) as [[[pn'|] [tp'|]] lft'] eqn:Ep; try done.
  injection He as <- <- <- <-.
  exists c. split; [done|]. unfold position_key. by rewrite Ep.
Qed.

Lemma unpositioned_entry (chunks : list chunk) (idx : nat) :
  idx ∈ omap (fun '(idx, ck) =>
                match extract_position ck with
                | (Some pn, Some tp, _) => None
                | _ => Some idx
                end) (imap (fun idx ck => (idx, ck)) chunks) ->
  exists ck, chunks !! idx = Some ck /\ position_key ck = None.
Proof.
  intros ([idx' ck] & Hin & He)%list_elem_of_omap.
  apply list_elem_of_lookup in Hin as [k Hk]. rewrite list_lookup_imap in Hk.
  destruct (chunks !! k) as [c|] eqn:Ec; [|done]. simpl in Hk. injection Hk as <- <-.
  destruct (extract_position c) as [[[pn|] [tp|]] lft] eqn:Ep; try done;
    injection He as <-; exists c; (split; [done|]); unfold position_key; by rewrite Ep.
Qed.

Lemma ordered_indices_positioned chunks :
  snd (ordered_indices chunks) = true ->
  exists sorted unpositioned,
    fst (ordered_indices chunks)
      = map (fun '(idx, _, _, _) => idx) sorted ++ unpositioned
    /\ StronglySorted key_le sorted
    /\ (forall idx pn tp lft, (idx, pn, tp, lft) ∈ sorted ->
          exists ck, chunks !! idx = Some ck /\ position_key ck = Some (pn, tp, lft))
    /\ (forall idx, idx ∈ unpositioned ->
          exists ck, chunks !! idx = Some ck /\ position_key ck = None).
Proof.
  pose proof (positioned_entry chunks) as Hpe.
  pose proof (unpositioned_entry chunks) as Hue.
  unfold ordered_indices.
  destruct (omap _ (imap _ chunks)) as [|p ps] eqn:E; [done|]. intros _.
  eexists _, _. split; [reflexivity|]. split; [|split; [|exact Hue]].
  - apply (@StronglySorted_merge_sort _ key_le _ key_le_transitive key_le_total).
  - intros idx pn tp lft He. rewrite merge_sort_Permutation in He. by apply Hpe.
Qed.


End MediaContextOrderFacts.

Section MediaContextMoreExamples.
Import PyStr MediaContext MediaContextKept MediaContextSamples.

Lemma trim_to_tokens_whole_sentences_witness :
  (forall x : pystr, x <> [] -> 0 < NaiveMerge.one_token_per_char x)
  /\ trim_to_tokens NaiveMerge.one_token_per_char (u "One. Two. Three.") 3 false
       `prefix_of` u "One. Two. Three."
  /\ trim_to_tokens NaiveMerge.one_token_per_char (u "One. Two. Three.") 3 true
       `suffix_of` u "One. Two. Three.".
Proof.
  assert (H : forall x : pystr, x <> [] -> 0 < NaiveMerge.one_token_per_char x).
  { intros x Hx. destruct x; [done|].
    unfold NaiveMerge.one_token_per_char, len. simpl length. lia. }
  split; [exact H|].
  destruct (trim_to_tokens_whole_sentences NaiveMerge.one_token_per_char
              (u "One. Two. Three.") 3 H) as (_ & _ & Hp & Hs & _).
  split; [exact Hp|exact Hs].
Defined.


End MediaContextMoreExamples.

(** ** Position tags inside a text *)

Section PositionTagBlobFacts.
Import PyStr PositionTag.

Lemma match_tag_not_at c s : c <> 64%N -> match_tag (c :: s) = None.
Proof.
  intros Hc.
  assert (E : starts_with (u "@@") (c :: s) = false).
  { change (starts_with (u "@@") (c :: s)) with ((64 =? c)%N && starts_with [64%N] s).
    assert ((64 =? c)%N = false) as -> by (apply N.eqb_neq; congruence). done. }
  unfold match_tag. by rewrite E.
Qed.

Lemma scan_tags_plain t : forall cur s,
  Forall (fun c => c <> 64%N) t ->
  scan_tags 0 cur (t ++ s) = scan_tags 0 (rev t ++ cur) s.
Proof.
  induction t as [|c t IH]; intros cur s Ht; [done|].
  apply Forall_cons in Ht as [Hc Ht].
  change ((c :: t) ++ s) with (c :: (t ++ s)).
  cbn [scan_tags]. rewrite match_tag_not_at by done.
  rewrite IH by done. simpl. by rewrite <- app_assoc.
Qed.

Lemma scan_tags_skip a : forall cur s,
  scan_tags (length a) cur (a ++ s) = scan_tags 0 cur s.
Proof. induction a as [|c a IH]; intros cur s; [done|]. simpl. apply IH. Qed.

Lemma scan_tags_found s : forall k cur,
  omap snd (scan_tags k cur s) = omap snd (scan_tags k [] s).
Proof.
  induction s as [|c s IH]; intros k cur; [done|].
  cbn [scan_tags]. destruct k as [|k]; [|apply IH].
  destruct (match_tag (c :: s)); [done|].
  rewrite (IH 0%nat (c :: cur)), (IH 0%nat [c]). done.
Qed.

Lemma match_tag_text_in pn f1 f2 f3 f4 rest :
  pn <> [] -> Forall (fun c => digit_char c = true) pn ->
  f1 <> [] /\ Forall (fun c => field_char c = true) f1 ->
  f2 <> [] /\ Forall (fun c => field_char c = true) f2 ->
  f3 <> [] /\ Forall (fun c => field_char c = true) f3 ->
  f4 <> [] /\ Forall (fun c => field_char c = true) f4 ->
  match_tag (tag_text pn f1 f2 f3 f4 ++ rest) = Some (tag_text pn f1 f2 f3 f4).
Proof.
  intros Hpn Hdig H1 H2 H3 H4.
  destruct (coords_chars f1 f2 f3 f4 H1 H2 H3 H4) as [Hne Hall].
  rewrite tag_text_split.
  set (coords := f1 ++ [TAB] ++ f2 ++ [TAB] ++ f3 ++ [TAB] ++ f4) in *.
  unfold match_tag.
  rewrite <- app_assoc, starts_with_app.
  change (drop 2 (u "@@" ++ (pn ++ TAB :: coords ++ u "##") ++ rest))
    with ((pn ++ TAB :: coords ++ u "##") ++ rest).
  rewrite <- app_assoc.
  change ((TAB :: coords ++ u "##") ++ rest) with (TAB :: (coords ++ u "##") ++ rest).
  rewrite span_app;
    [|eapply Forall_impl; [exact Hdig|apply digit_is_page]|reflexivity].
  rewrite (bool_decide_eq_false_2 (pn = [])) by done.
  change (starts_with [TAB] (TAB :: (coords ++ u "##") ++ rest)) with true.
  change (drop 1 (TAB :: (coords ++ u "##") ++ rest))
    with ((coords ++ u "##") ++ rest).
  rewrite <- app_assoc.
  change (u "##" ++ rest) with (35%N :: 35%N :: rest).
  rewrite span_app by done.
  rewrite (bool_decide_eq_false_2 (coords = [])) by done.
  reflexivity.
Qed.

Lemma findall_tags_cons pn f1 f2 f3 f4 t rest :
  pn <> [] -> Forall (fun c => digit_char c = true) pn ->
  f1 <> [] /\ Forall (fun c => field_char c = true) f1 ->
  f2 <> [] /\ Forall (fun c => field_char c = true) f2 ->
  f3 <> [] /\ Forall (fun c => field_char c = true) f3 ->
  f4 <> [] /\ Forall (fun c => field_char c = true) f4 ->
  Forall (fun c => c <> 64%N) t ->
  findall_tags (t ++ tag_text pn f1 f2 f3 f4 ++ rest)
    = tag_text pn f1 f2 f3 f4 :: findall_tags rest.
Proof.
  intros Hpn Hdig H1 H2 H3 H4 Ht. unfold findall_tags.
  rewrite scan_tags_plain by done.
  pose proof (match_tag_text_in pn f1 f2 f3 f4 rest Hpn Hdig H1 H2 H3 H4) as Hm.
  destruct (tag_text pn f1 f2 f3 f4) as [|c tg] eqn:E; [done|].
  change ((c :: tg) ++ rest) with (c :: (tg ++ rest)) in *.
  cbn [scan_tags]. rewrite Hm. csimpl. f_equal.
  rewrite Nat.sub_0_r. by rewrite scan_tags_skip.
Qed.

Lemma parse_line_tag p x0 x1 top bott :
  0 <= p -> 0 <= Qnum x0 -> 0 <= Qnum x1 -> 0 <= Qnum top -> 0 <= Qnum bott ->
  parse_tag (tag_text (str_N (Z.to_N (p + 1)))
               (format_1f x0) (format_1f x1) (format_1f top) (format_1f bott))
    = Ok ([p], tenths x0, tenths x1, tenths top, tenths bott).
Proof.
  intros Hp H0 H1 H2 H3. unfold parse_tag.
  rewrite fields_of_tag_text
    by auto using str_N_nonempty, str_N_digits, format_1f_field.
  rewrite !py_float_format_1f by done. simpl.
  rewrite pages_of_str_N. simpl.
  rewrite Z2N.id by lia.
  by replace (p + 1 - 1) with p by lia.
Qed.

Lemma line_tag_in_text page_images bx x0 x1 top bott :
  0 <= page_idx bx ->
  emitted page_images bx = Ok (x0, x1, top, bott) ->
  0 <= Qnum x0 -> 0 <= Qnum x1 -> 0 <= Qnum top -> 0 <= Qnum bott ->
  exists tag,
    _line_tag page_images bx = Ok tag
    /\ forall t rest, Forall (fun c => c <> 64%N) t ->
         extract_positions (t ++ tag ++ rest)
         = match extract_positions rest with
           | Ok ps =>
               Ok (([page_idx bx], tenths x0, tenths x1, tenths top, tenths bott) :: ps)
           | Raise e => Raise e
           end.
Proof.
  intros Hp He H0 H1 H2 H3.
  exists (tag_text (str_N (Z.to_N (page_idx bx + 1)))
            (format_1f x0) (format_1f x1) (format_1f top) (format_1f bott)).
  split.
  - unfold _line_tag. rewrite He. simpl.
    rewrite str_int_nonneg by lia. reflexivity.
  - intros t rest Ht. unfold extract_positions.
    rewrite findall_tags_cons
      by auto using str_N_nonempty, str_N_digits, format_1f_field.
    cbn [mapM_result]. rewrite parse_line_tag by done.
    by destruct (mapM_result parse_tag (findall_tags rest)).
Qed.


End PositionTagBlobFacts.

Section PositionTagBlobExamples.
Import PyStr PositionTag.


End PositionTagBlobExamples.

(** ** When the tree merger returns *)

Section TreeMergeReturnsFacts.
Import PyStr Patterns TreeMerge.

Lemma get_in_range {A} (l : list A) (i : Z) :
  - Z.of_nat (length l) <= i < Z.of_nat (length l) -> exists x, PyList.get l i = Ok x.
Proof.
  intros Hi. unfold PyList.get.
  set (j := if i <? 0 then i + Z.of_nat (length l) else i).
  assert (Hj : 0 <= j < Z.of_nat (length l)).
  { unfold j. destruct (i <? 0) eqn:E; [apply Z.ltb_lt in E|apply Z.ltb_ge in E]; lia. }
  assert ((j <? 0) || (Z.of_nat (length l) <=? j) = false) as ->.
  { apply orb_false_iff. split; [apply Z.ltb_ge|apply Z.leb_gt]; lia. }
  destruct (lookup_lt_is_Some_2 l (Z.to_nat j) ltac:(lia)) as [x ->]. by exists x.
Qed.

Lemma get_out_of_range {A} (l : list A) (i : Z) :
  i < - Z.of_nat (length l) \/ Z.of_nat (length l) <= i ->
  PyList.get l i = Raise IndexError.
Proof.
  intros Hi. unfold PyList.get.
  set (j := if i <? 0 then i + Z.of_nat (length l) else i).
  assert (Hj : j < 0 \/ Z.of_nat (length l) <= j).
  { unfold j. destruct (i <? 0) eqn:E; [apply Z.ltb_lt in E|apply Z.ltb_ge in E]; lia. }
  assert ((j <? 0) || (Z.of_nat (length l) <=? j) = true) as ->; [|done].
  apply orb_true_iff. destruct Hj; [left; apply Z.ltb_lt|right; apply Z.leb_le]; lia.
Qed.

Lemma sorted_levels_nil lines : lines = [] <-> sorted_levels lines = [].
Proof.
  split.
  - intros ->. destruct (sorted_levels []) as [|x l] eqn:E; [done|].
    assert (Hx : x ∈ sorted_levels []) by (rewrite E; apply list_elem_of_here).
    apply sorted_levels_elem_of in Hx. by apply not_elem_of_nil in Hx.
  - intros E. destruct lines as [|x lines]; [done|].
    assert (Hx : fst x ∈ sorted_levels (x :: lines))
      by (apply sorted_levels_elem_of; simpl; apply list_elem_of_here).
    rewrite E in Hx. by apply not_elem_of_nil in Hx.
Qed.

Lemma target_level_returns n sl dpt :
  sl <> [] ->
  (1 - Z.of_nat (length sl) <= dpt -> exists t, target_level n sl dpt = Ok t)
  /\ (dpt < 1 - Z.of_nat (length sl) -> target_level n sl dpt = Raise IndexError).
Proof.
  intros Hsl.
  assert (Hlen : 0 < Z.of_nat (length sl)) by (destruct sl; [done|simpl; lia]).
  unfold target_level, clamp_depth. split.
  - intros Hd.
    assert (Hc : exists t, (if dpt <=? Z.of_nat (length sl)
                            then PyList.get sl (dpt - 1) else PyList.get sl (-1)) = Ok t).
    { destruct (dpt <=? Z.of_nat (length sl)) eqn:E.
      - apply Z.leb_le in E. apply get_in_range. lia.
      - apply get_in_range. lia. }
    destruct Hc as [t ->]. simpl. unfold step_back.
    destruct (t =? n + 2); [|by eexists].
    destruct (1 <? Z.of_nat (length sl)) eqn:E.
    + apply Z.ltb_lt in E. apply get_in_range. lia.
    + apply get_in_range. lia.
  - intros Hd.
    assert ((dpt <=? Z.of_nat (length sl)) = true) as -> by (apply Z.leb_le; lia).
    rewrite get_out_of_range by lia. done.
Qed.


End TreeMergeReturnsFacts.

(** ** The tree merger loses no line *)

Section TreeCoverFacts.
Import PyStr Patterns TreeMerge TreeCover NaiveBudget.

Lemma occurs_in_refl (t : pystr) : occurs_in t t.
Proof. exists [], []. by rewrite app_nil_r. Qed.

Lemma occurs_in_app_l (t a b : pystr) : occurs_in t a -> occurs_in t (a ++ b).
Proof. intros (x & y & ->). exists x, (y ++ b). by rewrite <- !app_assoc. Qed.

Lemma occurs_in_app_r (t a b : pystr) : occurs_in t b -> occurs_in t (a ++ b).
Proof. intros (x & y & ->). exists (a ++ x), y. by rewrite <- !app_assoc. Qed.

Lemma occurs_in_join sep (l : list pystr) t : t ∈ l -> occurs_in t (join sep l).
Proof.
  induction l as [|x l IH]; intros Hin; [by apply not_elem_of_nil in Hin|].
  destruct l as [|y l].
  - apply list_elem_of_singleton in Hin as ->. apply occurs_in_refl.
  - change (join sep (x :: y :: l)) with (x ++ sep ++ join sep (y :: l)).
    apply elem_of_cons in Hin as [->|Hin].
    + apply occurs_in_app_l, occurs_in_refl.
    + by apply occurs_in_app_r, occurs_in_app_r, IH.
Qed.

Lemma add_text_texts top text h j n' :
  add_text top text h !! j = Some n' ->
  exists n, h !! j = Some n /\ level n' = level n /\ depth n' = depth n
            /\ children n' = children n
            /\ (texts n' = texts n \/ (j = top /\ texts n' = texts n ++ [text])).
Proof.
  unfold add_text. rewrite list_lookup_alter.
  destruct (decide (top = j)) as [->|_].
  - destruct (h !! j) as [n|]; [|done]. intros [= <-]. exists n. simpl. eauto 10.
  - intros H. exists n'. eauto 10.
Qed.

Lemma add_text_keeps top text h j n :
  h !! j = Some n ->
  exists n', add_text top text h !! j = Some n'
             /\ level n' = level n /\ depth n' = depth n /\ children n' = children n
             /\ (forall t, t ∈ texts n -> t ∈ texts n')
             /\ (j = top -> text ∈ texts n').
Proof.
  intros Hn. unfold add_text. rewrite list_lookup_alter.
  destruct (decide (top = j)) as [->|Hne]; rewrite Hn; simpl.
  - eexists. split; [done|]. simpl.
    split; [done|]. split; [done|]. split; [done|]. split.
    + intros t Ht. apply elem_of_app. by left.
    + intros _. apply elem_of_app. right. apply list_elem_of_here.
  - exists n. split; [done|]. split; [done|]. split; [done|]. split; [done|].
    split; [done|]. intros ->. done.
Qed.

Lemma add_child_texts top c h j n' :
  add_child top c h !! j = Some n' ->
  exists n, h !! j = Some n /\ level n' = level n /\ depth n' = depth n
            /\ texts n' = texts n
            /\ (children n' = children n \/ (j = top /\ children n' = children n ++ [c])).
Proof.
  unfold add_child. rewrite list_lookup_alter.
  destruct (decide (top = j)) as [->|_].
  - destruct (h !! j) as [n|]; [|done]. intros [= <-]. exists n. simpl. eauto 10.
  - intros H. exists n'. eauto 10.
Qed.

Lemma add_child_keeps top c h j n :
  h !! j = Some n ->
  exists n', add_child top c h !! j = Some n'
             /\ level n' = level n /\ depth n' = depth n /\ texts n' = texts n
             /\ (forall x, x ∈ children n -> x ∈ children n')
             /\ (j = top -> c ∈ children n').
Proof.
  intros Hn. unfold add_child. rewrite list_lookup_alter.
  destruct (decide (top = j)) as [->|Hne]; rewrite Hn; simpl.
  - eexists. split; [done|]. simpl.
    split; [done|]. split; [done|]. split; [done|]. split.
    + intros x Hx. apply elem_of_app. by left.
    + intros _. apply elem_of_app. right. apply list_elem_of_here.
  - exists n. split; [done|]. split; [done|]. split; [done|]. split; [done|].
    split; [done|]. intros ->. done.
Qed.

Lemma arena_inv_step rdepth seen st lvl text :
  arena_inv rdepth seen st -> 1 <= lvl ->
  arena_inv rdepth (seen ++ [text]) (build_step 0 st (lvl, text)).
Proof.
  destruct st as [h stack].
  intros ((root & Hroot & Hrl & Hrd) & Hne & Hstack & Hkids & Hparent & Hnodes & Hseen) Hlvl.
  unfold build_step.
  assert (Hd : depth_of h 0 = rdepth) by (unfold depth_of; by rewrite Hroot).
  rewrite Hd.
  destruct (beyond_limit rdepth lvl) eqn:Eb.
  - (* the text joins the node on top of the stack *)
    destruct stack as [|top rest]; [done|].
    assert (Htop : (top < length h)%nat) by apply Hstack, list_elem_of_here.
    assert (Hlen : length (add_text top text h) = length h)
      by (unfold add_text; by rewrite length_alter).
    split; [|split; [done|split; [|split; [|split; [|split]]]]].
    + destruct (add_text_keeps top text h 0 root Hroot) as (r' & Hr' & Hl & Hdp & _).
      exists r'. rewrite Hl, Hdp. done.
    + intros i Hi. rewrite Hlen. by apply Hstack.
    + intros i n' c (n & Hn & _ & _ & Hc & _)%add_text_texts Hin.
      rewrite Hlen. rewrite Hc in Hin. eauto.
    + intros j Hj. rewrite Hlen in Hj.
      destruct (Hparent j Hj) as (i & n & Hn & Hin).
      destruct (add_text_keeps top text h i n Hn) as (n' & Hn' & _ & _ & Hc & _).
      exists i, n'. by rewrite Hc.
    + intros j n' Hj (n & Hn & Hl & _ & _ & Ht)%add_text_texts.
      destruct (Hnodes j n Hj Hn) as (Htx & Hlv & Hb).
      rewrite Hl. split; [|done].
      destruct Ht as [->|[_ ->]]; [done|]. by destruct (texts n).
    + intros t [Ht|Ht%list_elem_of_singleton]%elem_of_app.
      * destruct (Hseen t Ht) as (i & n & Hn & Hin).
        destruct (add_text_keeps top text h i n Hn) as (n' & Hn' & _ & _ & _ & Hk & _).
        exists i, n'. eauto.
      * subst t. destruct (lookup_lt_is_Some_2 h top Htop) as [n Hn].
        destruct (add_text_keeps top text h top n Hn) as (n' & Hn' & _ & _ & _ & _ & Hk).
        exists top, n'. eauto.
  - (* a new node under the node that the stack is popped to *)
    destruct (pop_to_parent_spec h lvl stack Hne) as (top & rest & -> & Hin & _ & _).
    assert (Htop : (top < length h)%nat) by apply Hstack, Hin, list_elem_of_here.
    set (h1 := h ++ [new_node lvl (-1) [text]]).
    assert (Hlen : length (add_child top (length h) h1) = S (length h)).
    { unfold add_child, h1. rewrite length_alter, length_app. simpl. lia. }
    assert (Hold : forall j n, h !! j = Some n -> h1 !! j = Some n).
    { intros j n Hn. unfold h1. by apply lookup_app_l_Some. }
    assert (Hnew : h1 !! length h = Some (new_node lvl (-1) [text]))
      by (unfold h1; by rewrite list_lookup_middle).
    assert (Hback : forall j n1, h1 !! j = Some n1 ->
              h !! j = Some n1 \/ (j = length h /\ n1 = new_node lvl (-1) [text])).
    { intros j n1 Hn1. unfold h1 in Hn1.
      apply lookup_app_Some in Hn1 as [Hn1|[Hge Hn1]]; [by left|right].
      apply list_lookup_singleton_Some in Hn1 as [Hj <-]. split; [lia|done]. }
    split; [|split; [done|split; [|split; [|split; [|split]]]]].
    + destruct (add_child_keeps top (length h) h1 0 root (Hold _ _ Hroot))
        as (r' & Hr' & Hl & Hdp & _).
      exists r'. rewrite Hl, Hdp. done.
    + intros i Hi. rewrite Hlen.
      apply elem_of_cons in Hi as [->|Hi]; [lia|].
      apply Hin, Hstack in Hi. lia.
    + intros i n' c (n1 & Hn1 & _ & _ & _ & Hc)%add_child_texts Hc'. rewrite Hlen.
      destruct (Hback _ _ Hn1) as [Hn|[-> ->]].
      * destruct Hc as [Hc|[-> Hc]]; rewrite Hc in Hc'.
        -- specialize (Hkids _ _ _ Hn Hc'). lia.
        -- apply elem_of_app in Hc' as [Hc'|Hc'%list_elem_of_singleton].
           ++ specialize (Hkids _ _ _ Hn Hc'). lia.
           ++ lia.
      * destruct Hc as [Hc|[Htop' Hc]]; [|lia].
        rewrite Hc in Hc'. simpl in Hc'. by apply not_elem_of_nil in Hc'.
    + intros j Hj. rewrite Hlen in Hj.
      destruct (decide (j = length h)) as [->|Hne'].
      * destruct (lookup_lt_is_Some_2 h top Htop) as [n Hn].
        destruct (add_child_keeps top (length h) h1 top n (Hold _ _ Hn))
          as (n' & Hn' & _ & _ & _ & _ & Hk).
        exists top, n'. eauto.
      * destruct (Hparent j ltac:(lia)) as (i & n & Hn & Hc).
        destruct (add_child_keeps top (length h) h1 i n (Hold _ _ Hn))
          as (n' & Hn' & _ & _ & _ & Hk & _).
        exists i, n'. eauto.
    + intros j n' Hj (n1 & Hn1 & Hl & _ & Ht & _)%add_child_texts.
      rewrite Hl, Ht.
      destruct (Hback _ _ Hn1) as [Hn|[-> ->]]; [by apply (Hnodes j)|].
      simpl. done.
    + intros t [Ht|Ht%list_elem_of_singleton]%elem_of_app.
      * destruct (Hseen t Ht) as (i & n & Hn & Hin').
        destruct (add_child_keeps top (length h) h1 i n (Hold _ _ Hn))
          as (n' & Hn' & _ & _ & Htx & _).
        exists i, n'. by rewrite Htx.
      * subst t.
        destruct (add_child_keeps top (length h) h1 (length h) _ Hnew)
          as (n' & Hn' & _ & _ & Htx & _).
        exists (length h), n'. rewrite Htx. split; [done|]. simpl.
        apply list_elem_of_here.
Qed.

Lemma arena_inv_fold rdepth lines : forall seen st,
  arena_inv rdepth seen st ->
  (forall l, l ∈ lines -> 1 <= fst l) ->
  arena_inv rdepth (seen ++ map snd lines) (fold_left (build_step 0) lines st).
Proof.
  induction lines as [|[lvl text] lines IH]; intros seen st Hinv Hl.
  - simpl. by rewrite app_nil_r.
  - rewrite fold_left_cons. simpl map.
    replace (seen ++ text :: map snd lines) with ((seen ++ [text]) ++ map snd lines)
      by (by rewrite <- app_assoc).
    apply IH.
    + apply arena_inv_step; [done|]. apply (Hl (lvl, text)), list_elem_of_here.
    + intros l Hin. by apply Hl, list_elem_of_further.
Qed.

(** *** The traversal *)

Section Traversal.
Variable h : list Node.
Variable d : Z.
Hypothesis kids : forall i n c, h !! i = Some n -> c ∈ children n -> (i < c < length h)%nat.
Hypothesis nodes : forall j n, (1 <= j)%nat -> h !! j = Some n ->
  texts n <> [] /\ 1 <= level n /\ beyond_limit d (level n) = false.
Hypothesis parents :
  forall j, (1 <= j < length h)%nat -> exists i n, h !! i = Some n /\ j ∈ children n.

Lemma dfs_step fuel i n titles :
  h !! i = Some n ->
  dfs (S fuel) h d i titles
  = (if (level n =? 0) && negb (bool_decide (texts n = []))
     then [join [NL] (titles ++ texts n)] else [])
    ++ (if (d <? level n) && negb (bool_decide (texts n = []))
        then [join [NL] (path_titles d n titles ++ texts n)]
        else if bool_decide (children n = []) && ((1 <=? level n) && (level n <=? d))
             then [join [NL] (path_titles d n titles)]
             else [])
    ++ flat_map (fun c => dfs fuel h d c (path_titles d n titles)) (children n).
Proof. intros Hn. simpl. by rewrite Hn. Qed.

Lemma flat_map_ext_elem {A B} (f g : A -> list B) (l : list A) :
  (forall a, a ∈ l -> f a = g a) -> flat_map f l = flat_map g l.
Proof.
  induction l as [|x l IH]; intros H; [done|]. simpl.
  rewrite (H x) by apply list_elem_of_here.
  rewrite IH; [done|]. intros a Ha. by apply H, list_elem_of_further.
Qed.

(** The bound on the recursion is generous: any bound that covers the
    nodes behind the one visited gives the same chunks. *)
Lemma dfs_fuel f1 : forall f2 i titles,
  (length h - i <= f1)%nat -> (length h - i <= f2)%nat ->
  dfs f1 h d i titles = dfs f2 h d i titles.
Proof.
  induction f1 as [|f1 IH]; intros f2 i titles H1 H2.
  - assert (Hnone : h !! i = None) by (apply lookup_ge_None; lia).
    destruct f2; simpl; by rewrite ?Hnone.
  - destruct f2 as [|f2].
    + assert (Hnone : h !! i = None) by (apply lookup_ge_None; lia).
      simpl. by rewrite Hnone.
    + destruct (h !! i) as [n|] eqn:Hn; [|simpl; by rewrite Hn].
      rewrite !(dfs_step _ i n) by done. do 2 f_equal.
      apply flat_map_ext_elem. intros c Hc.
      specialize (kids _ _ _ Hn Hc). apply IH; lia.
Qed.

Lemma dfs_child fuel i n c titles chunk :
  h !! i = Some n -> c ∈ children n ->
  chunk ∈ dfs fuel h d c (path_titles d n titles) ->
  chunk ∈ dfs (S fuel) h d i titles.
Proof.
  intros Hn Hc Hin. rewrite (dfs_step _ i n) by done.
  apply elem_of_app. right. apply elem_of_app. right.
  apply list_elem_of_In, in_flat_map. exists c. split; by apply list_elem_of_In.
Qed.

(** A node other than the root gives a chunk for each of its texts and
    each title handed to it. *)
Lemma dfs_emits m : forall i n titles fuel t,
  (length h - i <= m)%nat -> (length h - i <= fuel)%nat ->
  (1 <= i)%nat -> h !! i = Some n ->
  t ∈ titles ++ texts n ->
  exists chunk, chunk ∈ dfs fuel h d i titles /\ occurs_in t chunk.
Proof.
  induction m as [|m IH]; intros i n titles fuel t Hm Hf Hi Hn Ht.
  { apply lookup_lt_Some in Hn. lia. }
  pose proof (lookup_lt_Some _ _ _ Hn) as Hlt.
  destruct fuel as [|fuel]; [lia|].
  destruct (nodes i n Hi Hn) as (Htx & Hlv & Hb).
  rewrite (dfs_step _ i n) by done.
  rewrite (bool_decide_eq_false_2 (texts n = [])) by done. simpl negb.
  unfold path_titles.
  destruct ((1 <=? level n) && (level n <=? d)) eqn:Ew.
  - apply andb_true_iff in Ew as [_ Hle%Z.leb_le].
    assert ((d <? level n) = false) as -> by (apply Z.ltb_ge; lia).
    simpl andb. cbv iota.
    destruct (children n) as [|c cs] eqn:Ec.
    + rewrite bool_decide_eq_true_2 by done. simpl andb. cbv iota.
      exists (join [NL] (titles ++ texts n)). split; [|by apply occurs_in_join].
      apply elem_of_app. right. apply list_elem_of_here.
    + assert (Hc : c ∈ children n) by (rewrite Ec; apply list_elem_of_here).
      pose proof (kids _ _ _ Hn Hc) as Hck.
      destruct (lookup_lt_is_Some_2 h c ltac:(lia)) as [cn Hcn].
      destruct (IH c cn (titles ++ texts n) fuel t) as (chunk & Hin & Hocc);
        [lia|lia|lia|done|apply elem_of_app; by left|].
      exists chunk. split; [|done].
      apply elem_of_app. right. apply elem_of_app. right.
      apply list_elem_of_In, in_flat_map. exists c.
      split; [apply list_elem_of_In, list_elem_of_here|by apply list_elem_of_In].
  - assert (Hgt : d < level n).
    { apply andb_false_iff in Ew as [E|E]; [apply Z.leb_gt in E; lia|by apply Z.leb_gt in E]. }
    assert ((d <? level n) = true) as -> by (by apply Z.ltb_lt).
    simpl andb. cbv iota.
    exists (join [NL] (titles ++ texts n)). split; [|by apply occurs_in_join].
    apply elem_of_app. right. apply list_elem_of_here.
Qed.

(** Every node other than the root is visited, with some titles. *)
Lemma dfs_reach m : forall j n,
  (j <= m)%nat -> (1 <= j)%nat -> h !! j = Some n ->
  exists titles, forall chunk,
    chunk ∈ dfs (length h - j) h d j titles -> chunk ∈ dfs (length h) h d 0 [].
Proof.
  induction m as [|m IH]; intros j n Hm Hj Hn; [lia|].
  pose proof (lookup_lt_Some _ _ _ Hn) as Hlt.
  destruct (parents j ltac:(lia)) as (i & ni & Hni & Hc).
  pose proof (kids _ _ _ Hni Hc) as Hij.
  destruct (decide (i = 0%nat)) as [->|Hi].
  - exists (path_titles d ni []). intros chunk Hin.
    replace (length h) with (S (length h - 1)) at 1 by lia.
    eapply dfs_child; [done|done|].
    by rewrite (dfs_fuel _ (length h - j)) by lia.
  - destruct (IH i ni ltac:(lia) ltac:(lia) Hni) as (titles & Hsub).
    exists (path_titles d ni titles). intros chunk Hin.
    apply Hsub.
    replace (length h - i)%nat with (S (length h - i - 1)) by lia.
    eapply dfs_child; [done|done|].
    by rewrite (dfs_fuel _ (length h - j)) by lia.
Qed.

Lemma dfs_covers i n t root :
  h !! 0%nat = Some root -> level root = 0 ->
  h !! i = Some n -> t ∈ texts n ->
  exists chunk, chunk ∈ dfs (length h) h d 0 [] /\ occurs_in t chunk.
Proof.
  intros Hroot Hrl Hn Ht.
  pose proof (lookup_lt_Some _ _ _ Hn) as Hlt.
  destruct (decide (i = 0%nat)) as [->|Hi].
  - rewrite Hroot in Hn. injection Hn as <-.
    replace (length h) with (S (length h - 1)) by lia.
    rewrite (dfs_step _ 0 root) by done.
    rewrite Hrl. rewrite (bool_decide_eq_false_2 (texts root = []))
      by (intros E; rewrite E in Ht; by apply not_elem_of_nil in Ht).
    simpl. exists (join [NL] (texts root)). split; [apply list_elem_of_here|].
    by apply occurs_in_join.
  - destruct (dfs_reach i i n ltac:(lia) ltac:(lia) Hn) as (titles & Hsub).
    destruct (dfs_emits (length h - i) i n titles (length h - i) t)
      as (chunk & Hin & Hocc); [lia|lia|lia|done|apply elem_of_app; by right|].
    exists chunk. split; [by apply Hsub|done].
Qed.

End Traversal.

Lemma strip_by_nil p : strip_by p [] = [].
Proof. reflexivity. Qed.


End TreeCoverFacts.

Section TreeMergeMoreExamples.
Import PyStr Patterns TreeMerge NaiveBudget.



End TreeMergeMoreExamples.

(** ** From parser blocks to sections *)

Section TransferSectionsFacts.
Import PyStr PositionTag TransferSections.

Variable page_images : option (list (Z * Z)).
Variable parse_method : option pystr.

Local Abbreviation step := (transfer_step page_images parse_method).

Lemma transfer_raises outs e : fold_left step outs (Raises e) = Raises e.
Proof. induction outs as [|o outs IH]; [done|]. simpl. apply IH. Qed.

Lemma section_of_kept cur o :
  sets_section o = false -> section_of cur o = Returns cur.
Proof.
  unfold sets_section, section_of. intros H%bool_decide_eq_false.
  repeat (rewrite bool_decide_eq_false_2;
          [|intros E; apply H; rewrite E; apply (bool_decide_unpack _); vm_compute; exact I]).
  done.
Qed.

Lemma section_of_set cur cur' o :
  sets_section o = true -> section_of cur o = section_of cur' o.
Proof.
  unfold sets_section, section_of. intros H%bool_decide_eq_true.
  repeat (apply elem_of_cons in H as [->|H]; [reflexivity|]).
  by apply not_elem_of_nil in H.
Qed.

(** One block: the state after it. *)
Lemma transfer_step_returns secs cur o st :
  step (Returns (secs, cur)) o = Returns st ->
  exists section tag,
    section_of cur o = Returns (Some section)
    /\ _line_tag page_images (place o) = Ok tag
    /\ st = (secs ++ [entry_of parse_method section (otype o) tag], Some section).
Proof.
  unfold transfer_step. simpl.
  destruct (section_of cur o) as [[section|]|e]; simpl; [|done|done].
  destruct (_line_tag page_images (place o)) as [tag|e]; [|done].
  intros [= <-]. eauto.
Qed.

Lemma transfer_prefix outs : forall secs cur secs' cur',
  fold_left step outs (Returns (secs, cur)) = Returns (secs', cur') ->
  exists new, secs' = secs ++ new /\ length new = length outs.
Proof.
  induction outs as [|o outs IH]; intros secs cur secs' cur' H.
  - simpl in H. injection H as <- <-. exists []. by rewrite app_nil_r.
  - rewrite fold_left_cons in H.
    destruct (step (Returns (secs, cur)) o) as [st|e] eqn:E;
      [|by rewrite transfer_raises in H].
    apply transfer_step_returns in E as (section & tag & _ & _ & ->).
    apply IH in H as (new & -> & Hlen).
    eexists (_ :: new). rewrite <- app_assoc. split; [done|]. simpl. by rewrite Hlen.
Qed.

(** The entry of the block at an index: its section is the text of the
    block when its type sets one, else the section of the entry before;
    its tag is the line tag of the block. *)
Lemma transfer_entry outs : forall secs cur secs' cur' i o,
  fold_left step outs (Returns (secs, cur)) = Returns (secs', cur') ->
  outs !! i = Some o ->
  (forall s, cur = Some s -> exists ty tag, last secs = Some (entry_of parse_method s ty tag)) ->
  exists section tag,
    _line_tag page_images (place o) = Ok tag
    /\ secs' !! (length secs + i)%nat = Some (entry_of parse_method section (otype o) tag)
    /\ (sets_section o = true -> section_of None o = Returns (Some section))
    /\ (sets_section o = false ->
        exists ty' tag',
          (1 <= length secs + i)%nat
          /\ secs' !! (length secs + i - 1)%nat
             = Some (entry_of parse_method section ty' tag')).
Proof.
  induction outs as [|o0 outs IH]; intros secs cur secs' cur' i o H Hi Hcur; [done|].
  rewrite fold_left_cons in H.
  destruct (step (Returns (secs, cur)) o0) as [st|e] eqn:E;
    [|by rewrite transfer_raises in H].
  apply transfer_step_returns in E as (section & tag & Hsec & Htag & ->).
  destruct i as [|i].
  - injection Hi as ->.
    destruct (transfer_prefix _ _ _ _ _ H) as (new & -> & _).
    exists section, tag. split; [done|]. split.
    { rewrite Nat.add_0_r, <- app_assoc.
      exact (list_lookup_middle secs new _ (length secs) eq_refl). }
    split.
    { intros Hs. by rewrite (section_of_set None cur) by done. }
    intros Hs. rewrite section_of_kept in Hsec by done. injection Hsec as ->.
    destruct (Hcur section eq_refl) as (ty' & tag' & Hlast).
    exists ty', tag'.
    destruct (snoc_cases secs) as [->|(init & lst & ->)]; [done|].
    rewrite last_snoc in Hlast. injection Hlast as ->.
    rewrite length_app. simpl. split; [lia|].
    rewrite <- !app_assoc.
    replace (length init + 1 + 0 - 1)%nat with (length init) by lia.
    exact (list_lookup_middle init _ _ (length init) eq_refl).
  - simpl in Hi.
    destruct (IH _ _ _ _ i o H Hi) as (section' & tag' & Ht & He & Hset & Hkept).
    { intros s [= <-]. exists (otype o0), tag. by rewrite last_snoc. }
    rewrite length_app in He, Hkept. simpl in He, Hkept.
    exists section', tag'. split; [done|].
    split; [by replace (length secs + S i)%nat with (length secs + 1 + i)%nat by lia|].
    split; [done|]. intros Hs.
    destruct (Hkept Hs) as (ty'' & tag'' & Hge & Hprev).
    exists ty'', tag''. split; [lia|].
    by replace (length secs + S i - 1)%nat with (length secs + 1 + i - 1)%nat by lia.
Qed.


End TransferSectionsFacts.

Section TransferSectionsPositions.
Import PyStr PositionTag TransferSections.


End TransferSectionsPositions.

Section TransferSectionsExamples.
Import PyStr PositionTag TransferSections.



End TransferSectionsExamples.

(** ** Colon titles are never inserted *)

Section ColonTitleFacts.
Import PyStr NaiveMerge ColonTitle.

Lemma delimiter_at_elem delims s d :
  delimiter_at delims s = Some d -> d ∈ delims.
Proof.
  unfold delimiter_at. intros H. apply find_some in H as [H _].
  by apply list_elem_of_In.
Qed.

(** A split never starts with two texts: either the text was not cut, or
    its second piece is a delimiter. *)
Lemma scan_split_second delims sec : forall skip cur,
  (length (flat_map split_piece (scan_split delims skip cur sec)) < 2)%nat
  \/ exists d, flat_map split_piece (scan_split delims skip cur sec) !! 1%nat = Some d
               /\ d ∈ delims.
Proof.
  induction sec as [|c sec IH]; intros skip cur.
  - left. simpl. lia.
  - simpl. destruct skip as [|k]; [|apply IH].
    destruct (delimiter_at delims (c :: sec)) as [d|] eqn:E; [|apply IH].
    right. exists d. split; [done|]. by eapply delimiter_at_elem.
Qed.

Lemma re_split_second delims sec :
  (length (re_split delims sec) < 2)%nat
  \/ exists d, re_split delims sec !! 1%nat = Some d /\ d ∈ delims.
Proof. apply scan_split_second. Qed.

Lemma colon_delimiters_short d : d ∈ colon_delimiters -> len d < 32.
Proof.
  intros Hd. unfold len.
  assert (Hall : Forall (fun d => (length d <= 2)%nat) colon_delimiters).
  { unfold colon_delimiters. repeat constructor. }
  rewrite Forall_forall in Hall. specialize (Hall d Hd). lia.
Qed.

Lemma colon_never_inserts t :
  (length (re_split colon_delimiters t) <? 2)%nat
  || (len (default [] (re_split colon_delimiters t !! 1%nat)) <? 32) = true.
Proof.
  destruct (re_split_second colon_delimiters t) as [Hlt|(d & -> & Hd)].
  - apply Nat.ltb_lt in Hlt. by rewrite Hlt.
  - apply colon_delimiters_short in Hd. apply Z.ltb_lt in Hd.
    simpl default. rewrite Hd. apply orb_true_r.
Qed.

Lemma colon_loop_spec fuel : forall sections i,
  (i <= length sections)%nat -> (length sections <= i + fuel)%nat ->
  colon_loop fuel sections i = (sections, length sections).
Proof.
  induction fuel as [|fuel IH]; intros sections i Hi Hf.
  - simpl. f_equal. lia.
  - simpl. destruct (sections !! i) as [[txt layout]|] eqn:E.
    + apply lookup_lt_Some in E as Hlt.
      rewrite colon_never_inserts.
      destruct (bool_decide _); [apply IH; lia|].
      destruct (negb _); apply IH; lia.
    + apply lookup_ge_None in E. f_equal. lia.
Qed.

(** X19. [make_colon_as_title] never inserts a title.  The second piece
    of the split of the reversed text is a delimiter of one or two
    characters, so the test [len(arr[1]) < 32] holds whenever there is a
    second piece, and the loop always continues: it ends with its index at
    the length of the list, which it leaves as it was.  For an empty input
    the function returns an empty list, for texts the input itself, and for
    pairs nothing. *)
Theorem make_colon_as_title_unchanged (sections : sections_in) :
  snd (make_colon_as_title sections) = sections
  /\ fst (make_colon_as_title sections)
     = (if sections_empty sections then Some (Texts [])
        else match sections with Texts _ => Some sections | Tagged _ => None end)
  /\ forall l, colon_loop (length l) l 0 = (l, length l).
Proof.
  assert (Hloop : forall l, colon_loop (length l) l 0 = (l, length l)).
  { intros l. apply colon_loop_spec; lia. }
  split; [|split; [|exact Hloop]].
  - unfold make_colon_as_title. destruct (sections_empty sections); [done|].
    destruct sections as [l|l]; [done|]. simpl. by rewrite Hloop.
  - unfold make_colon_as_title. destruct (sections_empty sections); [done|].
    by destruct sections.
Qed.

End ColonTitleFacts.

(** ** The question style is the first one that is met *)

Section QuestionBulletsFacts.
Import PyStr Regex Patterns StyleClassifier QuestionBullets.

Lemma scan_question_spec i pro sections (hits : list Z) :
  scan_question i pro sections hits
  = if question_hit pro sections
    then <[i := default 0 (hits !! i) + 1]> hits else hits.
Proof.
  unfold question_hit. induction sections as [|sec sections IH]; simpl; [done|].
  destruct (rmatch pro sec && negb (not_bullet sec)); [done|]. exact IH.
Qed.

Lemma question_hits_from patterns sections (pre : list Z) :
  fold_left
    (fun hits '(i, pro) => scan_question i pro sections hits)
    (imap (fun i pro => ((length pre + i)%nat, pro)) patterns)
    (pre ++ replicate (length patterns) 0)
  = pre ++ map (hit_count sections) patterns.
Proof.
  revert pre. induction patterns as [|pro patterns IH]; intros pre; [done|].
  rewrite imap_cons. simpl.
  rewrite scan_question_spec, Nat.add_0_r.
  assert (Hstep : (if question_hit pro sections
                   then <[length pre := default 0
                            ((pre ++ 0 :: replicate (length patterns) 0) !! length pre) + 1]>
                          (pre ++ 0 :: replicate (length patterns) 0)
                   else pre ++ 0 :: replicate (length patterns) 0)
                  = (pre ++ [hit_count sections pro]) ++ replicate (length patterns) 0).
  { unfold hit_count. rewrite <- app_assoc. simpl.
    destruct (question_hit pro sections); [|done].
    rewrite list_lookup_middle by done. simpl.
    rewrite insert_app_r_alt by lia. by rewrite Nat.sub_diag. }
  rewrite Hstep.
  specialize (IH (pre ++ [hit_count sections pro])).
  etrans; [|etrans; [exact IH|by rewrite <- app_assoc]].
  f_equal. apply imap_ext. intros j x _. simpl.
  rewrite length_app. simpl. f_equal. lia.
Qed.

Lemma question_hits_counts sections :
  question_hits QUESTION_PATTERN sections
  = map (hit_count sections) QUESTION_PATTERN.
Proof. apply (question_hits_from QUESTION_PATTERN sections []). Qed.

Lemma get_nat {A} (l : list A) (i : nat) x :
  l !! i = Some x -> PyList.get l (Z.of_nat i) = Ok x.
Proof.
  intros Hx. apply lookup_lt_Some in Hx as Hlt. unfold PyList.get. cbv zeta.
  assert ((Z.of_nat i <? 0) = false) as E1 by (apply Z.ltb_ge; lia).
  assert ((Z.of_nat (length l) <=? Z.of_nat i) = false) as E2 by (apply Z.leb_gt; lia).
  rewrite E1. cbv iota. rewrite E1, E2. simpl orb. cbv iota.
  by rewrite Nat2Z.id, Hx.
Qed.

(** X20. [qbullets_category] answers the first question pattern, in the
    order of [QUESTION_PATTERN], that some section matches without being
    rejected by [not_bullet]: every count is 0 or 1 because of the [break],
    and the selection keeps the first greatest count.  When no pattern is
    met the index is -1 and the pattern returned with it is, by Python's
    negative index, the last one of the list. *)
Theorem qbullets_category_first (sections : list pystr) :
  (forall i pro,
     QUESTION_PATTERN !! i = Some pro ->
     question_hit pro sections = true ->
     (forall j q, (j < i)%nat -> QUESTION_PATTERN !! j = Some q ->
                  question_hit q sections = false) ->
     qbullets_category sections = Ok (Z.of_nat i, pro))
  /\ ((forall pro, pro ∈ QUESTION_PATTERN -> question_hit pro sections = false) ->
      qbullets_category sections
      = Ok (-1, seq [lit (u "QUESTION "); plus digit])).
Proof.
  unfold qbullets_category. rewrite question_hits_counts.
  destruct (select_style_selected (map (hit_count sections) QUESTION_PATTERN))
    as [m Hsel].
  set (res := select_style _) in *.
  assert (Hval : forall j c, map (hit_count sections) QUESTION_PATTERN !! j = Some c ->
            exists q, QUESTION_PATTERN !! j = Some q
                      /\ c = if question_hit q sections then 1 else 0).
  { intros j c Hj. rewrite list_lookup_fmap in Hj.
    destruct (QUESTION_PATTERN !! j) as [q|]; [|done].
    injection Hj as <-. by exists q. }
  split.
  - intros i pro Hi Hhit Hfirst.
    assert (Hci : map (hit_count sections) QUESTION_PATTERN !! i = Some 1).
    { rewrite list_lookup_fmap, Hi. simpl. unfold hit_count. by rewrite Hhit. }
    destruct Hsel as [(_ & _ & Hall)|(i' & Hres & Hi' & Hpos & Hmax & Hlow)].
    { specialize (Hall 1 (list_elem_of_lookup_2 _ _ _ Hci)). lia. }
    destruct (Hval _ _ Hi') as (q & Hq & Hm).
    assert (i' = i) as ->.
    { destruct (lt_eq_lt_dec i' i) as [[Hlt| ->]|Hgt]; [|done|].
      - rewrite (Hfirst _ _ Hlt Hq) in Hm. lia.
      - specialize (Hlow _ _ Hgt Hci). specialize (Hmax _ _ Hci).
        destruct (question_hit q sections); lia. }
    rewrite Hres. by rewrite (get_nat _ _ _ Hi).
  - intros Hnone.
    destruct Hsel as [(Hres & _ & _)|(i' & Hres & Hi' & Hpos & _)].
    + by rewrite Hres.
    + destruct (Hval _ _ Hi') as (q & Hq & Hm).
      rewrite (Hnone q (list_elem_of_lookup_2 _ _ _ Hq)) in Hm. lia.
Qed.

End QuestionBulletsFacts.

Section QuestionBulletsExamples.
Import PyStr Regex Patterns QuestionBullets.

Lemma qbullets_category_first_witness :
  qbullets_category [u "1. 什么"; u "第二条 规定"]
  = Ok (1, seq [lit (u "第"); plus cn_num_digit; lit (u "条")]).
Proof.
  set (sections := [u "1. 什么"; u "第二条 规定"]).
  set (pro := seq [lit (u "第"); plus cn_num_digit; lit (u "条")]).
  assert (H1 : QUESTION_PATTERN !! 1%nat = Some pro) by reflexivity.
  assert (H2 : question_hit pro sections = true) by (vm_compute; reflexivity).
  assert (H3 : forall j q, (j < 1)%nat -> QUESTION_PATTERN !! j = Some q ->
                           question_hit q sections = false).
  { intros j q Hj Hq. destruct j as [|j]; [|lia].
    injection Hq as <-. vm_compute. reflexivity. }
  exact (proj1 (qbullets_category_first sections) 1%nat pro H1 H2 H3).
Defined.

End QuestionBulletsExamples.

(** ** The second pass of the hierarchical merger keeps every text *)

Section HierarchicalFlatFacts.
Import PyStr Patterns HierarchicalMerge.

Variable num_tokens_from_string : pystr -> Z.

Lemma get_nat_inv {A} (l : list A) (j : nat) x :
  PyList.get l (Z.of_nat j) = Ok x -> l !! j = Some x.
Proof.
  unfold PyList.get. cbv zeta.
  assert ((Z.of_nat j <? 0) = false) as E1 by (apply Z.ltb_ge; lia).
  rewrite E1. cbv iota. rewrite Nat2Z.id.
  destruct ((Z.of_nat j <? 0) || (Z.of_nat (length l) <=? Z.of_nat j)); [done|].
  destruct (l !! j); [congruence|done].
Qed.

Lemma mapM_get_lookup {A} (texts : list A) (js : list nat) ys :
  mapM_result (fun j => PyList.get texts (Z.of_nat j)) js = Ok ys ->
  ys = omap (fun j => texts !! j) js.
Proof.
  revert ys. induction js as [|j js IH]; intros ys; simpl.
  - by intros [= <-].
  - destruct (PyList.get texts (Z.of_nat j)) as [x|e] eqn:E; [|done]. simpl.
    destruct (mapM_result _ js) as [ys'|e]; [|done]. simpl. intros [= <-].
    apply get_nat_inv in E. rewrite E. f_equal. by apply IH.
Qed.

Lemma mapM_result_map {A B} (f : A -> result B) (g : A -> B) (l : list A) ys :
  (forall x y, f x = Ok y -> y = g x) ->
  mapM_result f l = Ok ys -> ys = map g l.
Proof.
  intros Hfg. revert ys. induction l as [|x l IH]; intros ys; simpl.
  - by intros [= <-].
  - destruct (f x) as [y|e] eqn:E; [|done]. simpl.
    destruct (mapM_result f l) as [ys'|e]; [|done]. simpl. intros [= <-].
    rewrite (Hfg _ _ E). f_equal. by apply IH.
Qed.

Lemma removelast_last_default {A} (l : list (list A)) :
  l <> [] -> concat (removelast l) ++ default [] (last l) = concat l.
Proof.
  intros Hl. destruct (exists_last Hl) as (l' & x & ->).
  rewrite removelast_last, last_snoc, concat_app. simpl. by rewrite app_nil_r.
Qed.

Lemma coalesce_step_flat res num ck :
  res <> [] ->
  fst (coalesce_step num_tokens_from_string (res, num) ck) <> []
  /\ concat (fst (coalesce_step num_tokens_from_string (res, num) ck))
     = concat res ++ ck
  /\ ((2 <= length res)%nat ->
      (2 <= length (fst (coalesce_step num_tokens_from_string (res, num) ck)))%nat
      /\ head (fst (coalesce_step num_tokens_from_string (res, num) ck)) = head res).
Proof.
  intros Hres.
  assert (Hgrow : (res ++ [ck]) <> []
            /\ concat (res ++ [ck]) = concat res ++ ck
            /\ ((2 <= length res)%nat ->
                (2 <= length (res ++ [ck]))%nat /\ head (res ++ [ck]) = head res)).
  { split; [by destruct res|]. split.
    - rewrite concat_app. simpl. by rewrite app_nil_r.
    - intros H2. rewrite length_app. split; [lia|]. by destruct res. }
  unfold coalesce_step.
  destruct ck as [|c0 [|c1 ck]]; [exact Hgrow| |exact Hgrow].
  destruct (_ <? 218); [|exact Hgrow]. simpl fst.
  split; [by destruct (removelast res)|]. split.
  - rewrite concat_app. simpl. rewrite app_nil_r, app_assoc.
    by rewrite removelast_last_default.
  - intros H2. destruct (exists_last Hres) as (l' & x & ->).
    rewrite length_app in H2. simpl in H2.
    rewrite removelast_last, !length_app. split; [simpl; lia|].
    destruct l'; [simpl in H2; lia|done].
Qed.

Lemma coalesce_fold_flat cks : forall res num,
  res <> [] ->
  concat (fst (fold_left (coalesce_step num_tokens_from_string) cks (res, num)))
  = concat res ++ concat cks
  /\ ((2 <= length res)%nat ->
      head (fst (fold_left (coalesce_step num_tokens_from_string) cks (res, num)))
      = head res).
Proof.
  induction cks as [|ck cks IH]; intros res num Hres.
  - simpl. by rewrite app_nil_r.
  - rewrite fold_left_cons.
    destruct (coalesce_step_flat res num ck Hres) as (Hne & Hcat & Hhead).
    destruct (coalesce_step num_tokens_from_string (res, num) ck) as [res' num'].
    simpl fst in *. destruct (IH res' num' Hne) as [IH1 IH2]. split.
    + rewrite IH1, Hcat. simpl. by rewrite <- app_assoc.
    + intros H2. destruct (Hhead H2) as [H2' <-]. by apply IH2.
Qed.


End HierarchicalFlatFacts.

Section HierarchicalFlatExamples.
Import PyStr Patterns HierarchicalMerge.


End HierarchicalFlatExamples.

(** ** Table chunks for the index *)

Section TokenizeTableFacts.
Import PyStr Regex MediaContext TokenizeChunks.

Variable rag_tokenize : pystr -> pystr.
Variable fine_grained_tokenize : pystr -> pystr.
Context {number : Type}.
Variable py_int : number -> Z.
Variable add_one : number -> number.

Local Abbreviation table_chunk :=
  (table_chunk rag_tokenize fine_grained_tokenize py_int add_one).
Local Abbreviation table_chunks :=
  (table_chunks rag_tokenize fine_grained_tokenize py_int add_one).
Local Abbreviation tokenize_table :=
  (tokenize_table rag_tokenize fine_grained_tokenize py_int add_one).

Lemma table_chunk_media doc img poss txt :
  let d := table_chunk doc img poss txt in
  is_text_chunk d = false
  /\ doc_type_kwd d = Some (match img with Some _ => u "image" | None => u "table" end)
  /\ (img <> None -> image d = img)
  /\ content_with_weight d = Str txt.
Proof.
  unfold TokenizeChunks.table_chunk, add_positions, set_media, tokenize, is_text_chunk,
    is_image_chunk, is_table_chunk.
  destruct poss, img; simpl; repeat split; try done; apply andb_false_r.
Qed.

Lemma range_step_positive n step :
  0 < step ->
  range_step n step
  = Ok (map (fun k => (k * Z.to_nat step)%nat)
          (List.seq 0 ((n + Z.to_nat step - 1) / Z.to_nat step))).
Proof.
  intros Hs. unfold range_step.
  assert ((step =? 0) = false) as -> by (apply Z.eqb_neq; lia).
  by assert ((step <? 0) = false) as -> by (apply Z.ltb_ge; lia).
Qed.

(** The slices [rows[k*b : k*b + b]] for [k] below [m], put end to end. *)
Lemma slices_concat {A} (l : list A) (b m : nat) :
  concat (map (fun i => take b (drop i l)) (map (fun k => (k * b)%nat) (List.seq 0 m)))
  = take (m * b) l.
Proof.
  induction m as [|m IH]; [done|].
  rewrite seq_S, !map_app, concat_app, IH. simpl. rewrite app_nil_r.
  rewrite take_take_drop. f_equal. lia.
Qed.

Lemma ceil_bounds (n b : nat) :
  (0 < b)%nat -> (0 < n)%nat ->
  (n <= (n + b - 1) / b * b)%nat /\ (((n + b - 1) / b - 1) * b < n)%nat
  /\ (0 < (n + b - 1) / b)%nat.
Proof.
  intros Hb Hn.
  pose proof (Nat.div_mod_eq (n + b - 1) b) as E.
  pose proof (Nat.mod_upper_bound (n + b - 1) b ltac:(lia)) as Hm.
  set (q := ((n + b - 1) / b)%nat) in *.
  set (r := ((n + b - 1) mod b)%nat) in *.
  assert (0 < q)%nat by (destruct q; [nia|lia]).
  split; [nia|]. split; [|done]. destruct q as [|q]; [lia|]. simpl. nia.
Qed.

Lemma slices_cover {A} (l : list A) (b : nat) :
  (0 < b)%nat -> l <> [] ->
  let starts := map (fun k => (k * b)%nat) (List.seq 0 ((length l + b - 1) / b)) in
  let batches := map (fun i => take b (drop i l)) starts in
  concat batches = l
  /\ Forall (fun x => (0 < length x <= b)%nat) batches
  /\ (forall k x, (S k < length batches)%nat -> batches !! k = Some x -> length x = b).
Proof.
  intros Hb Hl starts batches.
  assert (Hn : (0 < length l)%nat) by (destruct l; [done|simpl; lia]).
  destruct (ceil_bounds (length l) b Hb Hn) as (Hup & Hlow & Hq).
  set (m := ((length l + b - 1) / b)%nat) in *.
  assert (Hlen : length batches = m).
  { unfold batches, starts. by rewrite !length_map, length_seq. }
  assert (Hk : forall k x, batches !! k = Some x ->
            (k < m)%nat /\ x = take b (drop (k * b) l)).
  { intros k x Hx. unfold batches, starts in Hx.
    rewrite !list_lookup_fmap in Hx.
    destruct (List.seq 0 m !! k) as [k'|] eqn:E; [|done].
    apply lookup_seq in E as [-> ?]. simpl in Hx. injection Hx as <-. done. }
  split; [|split].
  - unfold batches, starts. rewrite slices_concat. by apply take_ge.
  - apply Forall_lookup. intros k x Hx. destruct (Hk k x Hx) as [Hkm ->].
    rewrite length_take, length_drop. nia.
  - intros k x Hlt Hx. destruct (Hk k x Hx) as [Hkm ->].
    rewrite length_take, length_drop. rewrite Hlen in Hlt. nia.
Qed.

(** X22. For a positive batch size [tokenize_table] returns, and every
    chunk it makes is a media chunk for [attach_media_context], never a text
    chunk: its type is "image" with the image of the table when the table
    has one, and "table" otherwise, whatever the type and the image of the
    document it copies.  The chunks of the tables follow each other in the
    order of the tables. *)
Theorem tokenize_table_media tbls doc eng batch_size :
  0 < batch_size ->
  exists res,
    tokenize_table tbls doc eng batch_size = Ok res
    /\ Forall (fun d => is_text_chunk d = false
                        /\ (doc_type_kwd d = Some (u "table")
                            \/ (doc_type_kwd d = Some (u "image") /\ image d <> None)))
         res
    /\ exists groups,
         Forall2 (fun t cs => table_chunks doc eng batch_size t = Ok cs) tbls groups
         /\ res = concat groups.
Proof.
  intros Hb. induction tbls as [|t tbls IH].
  - exists []. split; [done|]. split; [constructor|]. exists []. by split; [constructor|].
  - destruct IH as (res & Hres & Hall & groups & Hgroups & ->).
    assert (Hcs : exists cs, table_chunks doc eng batch_size t = Ok cs
              /\ Forall (fun d => is_text_chunk d = false
                          /\ (doc_type_kwd d = Some (u "table")
                              \/ (doc_type_kwd d = Some (u "image") /\ image d <> None)))
                   cs).
    { assert (Hone : forall img poss txt,
                let d := table_chunk doc img poss txt in
                is_text_chunk d = false
                /\ (doc_type_kwd d = Some (u "table")
                    \/ (doc_type_kwd d = Some (u "image") /\ image d <> None))).
      { intros img poss txt d.
        destruct (table_chunk_media doc img poss txt) as (Ht & Hk & Hi & _).
        split; [done|]. fold d in Hk, Hi. destruct img as [i|]; [right|by left].
        split; [done|]. rewrite Hi; done. }
      destruct t as [[img rows] poss]. unfold TokenizeChunks.table_chunks.
      destruct rows as [s|l].
      - destruct (bool_decide (s = [])); eexists; (split; [done|]);
          [constructor|]. constructor; [apply Hone|constructor].
      - destruct (bool_decide (l = [])); [eexists; split; [done|constructor]|].
        rewrite range_step_positive by done. simpl. eexists. split; [done|].
        apply Forall_forall. intros d Hd. apply list_elem_of_fmap in Hd as (i & -> & _).
        apply Hone. }
    destruct Hcs as (cs & Hcs & Hmedia).
    exists (cs ++ concat groups). simpl. rewrite Hcs. simpl. rewrite Hres. simpl.
    split; [done|]. split; [by apply Forall_app|].
    exists (cs :: groups). split; [by constructor|done].
Qed.


(** X23. The chunks of a table given as a list of rows, for a positive
    batch size: the rows are cut into consecutive batches, no row is lost or
    repeated, every batch has [batch_size] rows but the last, which has
    between one and [batch_size], and each chunk holds the rows of one batch
    joined by the separator of the language. *)
Theorem tokenize_table_batches doc eng batch_size img rows poss :
  0 < batch_size -> rows <> [] ->
  exists batches,
    tokenize_table [((img, RowsList rows), poss)] doc eng batch_size
    = Ok (map (fun b => table_chunk doc img poss
                          (join (if eng then u "; " else u "； ") b)) batches)
    /\ concat batches = rows
    /\ Forall (batch_ok batch_size) batches
    /\ (forall k x, (S k < length batches)%nat -> batches !! k = Some x ->
                    Z.of_nat (length x) = batch_size)
    /\ Z.of_nat (length batches)
       = (Z.of_nat (length rows) + batch_size - 1) / batch_size.
Proof.
  intros Hb Hrows.
  set (b := Z.to_nat batch_size).
  assert (Hbn : (0 < b)%nat) by (unfold b; lia).
  destruct (slices_cover rows b Hbn Hrows) as (Hcat & Hsize & Hfull).
  set (starts := map (fun k => (k * b)%nat) (List.seq 0 ((length rows + b - 1) / b))) in *.
  exists (map (fun i => take b (drop i rows)) starts).
  split; [|split; [exact Hcat|split; [|split]]].
  - simpl. rewrite bool_decide_eq_false_2 by done.
    rewrite range_step_positive by done. simpl. fold b. fold starts.
    rewrite app_nil_r. f_equal. by rewrite map_map.
  - eapply Forall_impl; [exact Hsize|]. intros x [H1 H2]. split; [done|]. unfold b in H2. lia.
  - intros k x Hk Hx. rewrite (Hfull k x Hk Hx). unfold b. lia.
  - unfold starts. rewrite !length_map, length_seq.
    rewrite Nat2Z.inj_div. f_equal; unfold b; lia.
Qed.

Lemma table_chunks_zero doc eng t :
  (exists cs, table_chunks doc eng 0 t = Ok cs)
  \/ table_chunks doc eng 0 t = Raise ValueError.
Proof.
  destruct t as [[img rows] poss]. unfold TokenizeChunks.table_chunks.
  destruct rows as [s|l].
  - left. destruct (bool_decide (s = [])); by eexists.
  - destruct (bool_decide (l = [])); [left; by eexists|by right].
Qed.

(** X24. The batch size is the step of a [range]: with 0 the function
    raises [ValueError] as soon as a table has a non-empty list of rows, and
    with a negative size it returns, but the tables with a list of rows
    give no chunk at all: only the tables whose rows are one non-empty text
    are indexed. *)
Theorem tokenize_table_bad_batch tbls doc eng batch_size :
  (batch_size = 0 ->
   (exists img rows poss, ((img, RowsList rows), poss) ∈ tbls /\ rows <> []) ->
   tokenize_table tbls doc eng batch_size = Raise ValueError)
  /\ (batch_size < 0 ->
      tokenize_table tbls doc eng batch_size
      = Ok (omap (fun t : table =>
                    match t with
                    | ((img, RowsStr s), poss) =>
                        if bool_decide (s = []) then None
                        else Some (table_chunk doc img poss s)
                    | ((_, RowsList _), _) => None
                    end) tbls)).
Proof.
  split.
  - intros -> (img & rows & poss & Hin & Hrows).
    induction tbls as [|t tbls IH]; [by apply not_elem_of_nil in Hin|].
    apply elem_of_cons in Hin as [<-|Hin].
    + simpl. by rewrite bool_decide_eq_false_2 by done.
    + specialize (IH Hin). cbn [TokenizeChunks.tokenize_table].
      destruct (table_chunks_zero doc eng t) as [[cs ->]| ->]; [|done].
      simpl. by rewrite IH.
  - intros Hb. induction tbls as [|t tbls IH]; [done|].
    cbn [TokenizeChunks.tokenize_table]. rewrite IH.
    destruct t as [[img [s|l]] poss]; simpl.
    + by destruct (bool_decide (s = [])).
    + destruct (bool_decide (l = [])); [done|]. unfold range_step.
      assert ((batch_size =? 0) = false) as -> by (apply Z.eqb_neq; lia).
      by assert ((batch_size <? 0) = true) as -> by (apply Z.ltb_lt; lia).
Qed.

End TokenizeTableFacts.

Section TokenizeTableExamples.
Import PyStr MediaContext TokenizeChunks.

Lemma tokenize_table_media_witness :
  let doc := text_only (u "doc") in
  let tbls : list (@table Z) :=
    [((None, RowsList [u "a"; u "b"; u "c"]), [(0, 1, 2, 3, 4)]);
     ((None, RowsStr (u "<table></table>")), [])] in
  0 < 2
  /\ exists res,
       tokenize_table id id id Z.succ tbls doc true 2 = Ok res
       /\ Forall (fun d => is_text_chunk d = false
                           /\ (doc_type_kwd d = Some (u "table")
                               \/ (doc_type_kwd d = Some (u "image") /\ image d <> None)))
            res
       /\ exists groups,
            Forall2 (fun t cs => table_chunks id id id Z.succ doc true 2 t = Ok cs)
              tbls groups
            /\ res = concat groups.
Proof.
  intros doc tbls.
  assert (H : 0 < 2) by lia.
  split; [exact H|].
  exact (tokenize_table_media id id id Z.succ tbls doc true 2 H).
Defined.

Lemma tokenize_table_batches_witness :
  let doc := text_only (u "doc") in
  let rows := [u "a"; u "b"; u "c"] in
  let poss : list (Z * Z * Z * Z * Z) := [(0, 1, 2, 3, 4)] in
  0 < 2 /\ rows <> []
  /\ exists batches,
       tokenize_table id id id Z.succ [((None, RowsList rows), poss)] doc true 2
       = Ok (map (fun b => table_chunk id id id Z.succ doc None poss
                             (join (u "; ") b)) batches)
       /\ concat batches = rows
       /\ Forall (batch_ok 2) batches
       /\ (forall k x, (S k < length batches)%nat -> batches !! k = Some x ->
                       Z.of_nat (length x) = 2)
       /\ Z.of_nat (length batches) = (Z.of_nat (length rows) + 2 - 1) / 2.
Proof.
  intros doc rows poss.
  assert (H1 : 0 < 2) by lia.
  assert (H2 : rows <> []) by discriminate.
  split; [exact H1|]. split; [exact H2|].
  exact (tokenize_table_batches id id id Z.succ doc true 2 None rows poss H1 H2).
Defined.

Lemma tokenize_table_bad_batch_witness :
  let doc := text_only (u "doc") in
  let tbls : list (@table Z) :=
    [((None, RowsStr (u "one")), []); ((None, RowsList [u "a"; u "b"]), [])] in
  tokenize_table id id id Z.succ tbls doc true 0 = Raise ValueError.
Proof.
  intros doc tbls.
  assert (H : exists img rows poss,
            ((img, RowsList rows), poss) ∈ tbls /\ rows <> []).
  { exists None, [u "a"; u "b"], []. split; [|discriminate].
    apply list_elem_of_further, list_elem_of_here. }
  exact (proj1 (tokenize_table_bad_batch id id id Z.succ tbls doc true 0) eq_refl H).
Defined.

End TokenizeTableExamples.

(** ** Text chunks for the index *)

Section TokenizeChunksFacts.
Import PyStr Regex MediaContext TokenizeChunks.

Variable num_tokens_from_string : pystr -> Z.
Variable rag_tokenize : pystr -> pystr.
Variable fine_grained_tokenize : pystr -> pystr.

Local Abbreviation tokenize := (tokenize rag_tokenize fine_grained_tokenize).
Local Abbreviation tokenize_chunks :=
  (tokenize_chunks rag_tokenize fine_grained_tokenize).
Local Abbreviation tokenize_chunks_with_images :=
  (tokenize_chunks_with_images rag_tokenize fine_grained_tokenize).
Local Abbreviation attach_media_context :=
  (attach_media_context num_tokens_from_string rag_tokenize fine_grained_tokenize).
Local Abbreviation attach_step :=
  (attach_step num_tokens_from_string rag_tokenize fine_grained_tokenize).

(** The entries an enumeration keeps, with the indices they had. *)
Lemma omap_imap_indices {A B} (f : nat -> A -> option B) (l : list A) : forall k,
  exists idxs,
    Forall2 (fun d ii => exists x, l !! (ii - k)%nat = Some x /\ (k <= ii)%nat
                                   /\ f ii x = Some d)
      (omap (fun '(ii, x) => f ii x) (imap (fun i x => ((k + i)%nat, x)) l)) idxs
    /\ StronglySorted lt idxs
    /\ (forall i x d, l !! i = Some x -> f (k + i)%nat x = Some d -> (k + i)%nat ∈ idxs).
Proof.
  induction l as [|x l IH]; intros k.
  - exists []. split; [constructor|]. split; [constructor|]. intros i x d Hx. done.
  - destruct (IH (S k)) as (idxs & Hall & Hsorted & Hin).
    rewrite imap_cons.
    rewrite (imap_ext _ (fun i x => ((S k + i)%nat, x)))
      by (intros i y _; simpl; f_equal; lia).
    assert (Hall' : Forall2 (fun d ii => exists y, (x :: l) !! (ii - k)%nat = Some y
                                 /\ (k <= ii)%nat /\ f ii y = Some d)
              (omap (fun '(ii, x) => f ii x) (imap (fun i x => ((S k + i)%nat, x)) l))
              idxs).
    { eapply Forall2_impl; [exact Hall|]. intros d ii (y & Hy & Hle & Hf).
      exists y. split; [|split; [lia|done]].
      replace (ii - k)%nat with (S (ii - S k)) by lia. done. }
    assert (Hge : Forall (fun ii => (S k <= ii)%nat) idxs).
    { clear -Hall. induction Hall as [|d ii ds iis (y & _ & Hle & _) _ IHa];
        constructor; done. }
    csimpl. rewrite Nat.add_0_r. destruct (f k x) as [d|] eqn:Ef.
    + exists (k :: idxs). split; [|split].
      * constructor; [|exact Hall']. exists x. rewrite Nat.sub_diag. done.
      * constructor; [done|]. eapply Forall_impl; [exact Hge|]. intros ii Hii. simpl in Hii. lia.
      * intros [|i] y d' Hy Hf.
        -- rewrite Nat.add_0_r. apply list_elem_of_here.
        -- apply list_elem_of_further. replace (k + S i)%nat with (S k + i)%nat in * by lia.
           by eapply Hin.
    + exists idxs. split; [exact Hall'|]. split; [done|].
      intros [|i] y d' Hy Hf.
      * rewrite Nat.add_0_r in Hf. simpl in Hy. injection Hy as <-. congruence.
      * replace (k + S i)%nat with (S k + i)%nat in * by lia. by eapply Hin.
Qed.

Lemma text_chunk_indexed doc ii ck image_of :
  plain_doc doc -> strip ck <> [] ->
  let d := tokenize (index_position (with_image doc image_of) ii) ck in
  is_text_chunk d = true
  /\ extract_position d
     = (Some (Z.of_nat ii + 1), Some (Z.of_nat ii), Some (Z.of_nat ii))
  /\ content_with_weight d = Str ck
  /\ image d = image_of.
Proof.
  intros [Hi Ht] Hck d. unfold d, TokenizeChunks.tokenize, index_position, add_positions,
    with_image, is_text_chunk, is_image_chunk, is_table_chunk, extract_position.
  simpl. rewrite (bool_decide_eq_false_2 (doc_type_kwd doc = Some (u "image"))) by done.
  rewrite (bool_decide_eq_false_2 (strip ck = [])) by done.
  rewrite (bool_decide_eq_false_2 (doc_type_kwd doc = Some (u "table"))) by done.
  simpl. by rewrite andb_false_r.
Qed.

Lemma with_image_same doc : with_image doc (image doc) = doc.
Proof. by destruct doc. Qed.

Lemma tokenize_chunks_indexed chunks doc :
  exists idxs,
    Forall2 (fun d ii => exists ck, chunks !! ii = Some ck /\ strip ck <> []
                                    /\ d = tokenize (index_position doc ii) ck)
      (tokenize_chunks chunks doc) idxs
    /\ StronglySorted lt idxs
    /\ (forall ii ck, chunks !! ii = Some ck -> strip ck <> [] -> ii ∈ idxs).
Proof.
  destruct (omap_imap_indices
              (fun ii ck => if bool_decide (strip ck = []) then None
                            else Some (tokenize (index_position doc ii) ck))
              chunks 0) as (idxs & Hall & Hsorted & Hin).
  exists idxs. split; [|split; [done|]].
  - eapply Forall2_impl; [exact Hall|]. intros d ii (ck & Hck & _ & Hf).
    rewrite Nat.sub_0_r in Hck. exists ck. split; [done|].
    destruct (bool_decide (strip ck = [])) eqn:E; [done|].
    apply bool_decide_eq_false in E. split; [done|]. by injection Hf as <-.
  - intros ii ck Hck Hne. apply (Hin ii ck (tokenize (index_position doc ii) ck) Hck).
    simpl. by rewrite bool_decide_eq_false_2.
Qed.

(** X25. [tokenize_chunks], called without a parser and without child
    delimiters on a document that is neither an image nor a table, makes one
    chunk for every text that is not blank, in the order of the texts.  The
    chunk holds the text, it is a text chunk for [attach_media_context]
    whether or not the document has an image, and its page, top and position
    are made from the index the text had in the input list, blank texts
    counted. *)
Theorem tokenize_chunks_text chunks doc :
  plain_doc doc ->
  exists idxs,
    StronglySorted lt idxs
    /\ (forall ii, ii ∈ idxs <-> exists ck, chunks !! ii = Some ck /\ strip ck <> [])
    /\ Forall2 (fun d ii =>
                  let i := Z.of_nat ii in
                  is_text_chunk d = true
                  /\ (exists ck, chunks !! ii = Some ck /\ content_with_weight d = Str ck)
                  /\ page_num_int d = [i + 1]
                  /\ top_int d = [i]
                  /\ position_int d = [(i + 1, i, i, i, i)]
                  /\ image d = image doc)
         (tokenize_chunks chunks doc) idxs.
Proof.
  intros Hdoc. destruct (tokenize_chunks_indexed chunks doc) as (idxs & Hall & Hsorted & Hin).
  exists idxs. split; [done|]. split.
  - intros ii. split; [|intros (ck & Hck & Hne); by eapply Hin].
    intros Hii. apply list_elem_of_lookup in Hii as [k Hk].
    destruct (Forall2_lookup_r _ _ _ _ _ Hall Hk) as (d & _ & ck & Hck & Hne & _).
    by exists ck.
  - eapply Forall2_impl; [exact Hall|]. intros d ii (ck & Hck & Hne & ->).
    pose proof (text_chunk_indexed doc ii ck (image doc) Hdoc Hne) as H.
    rewrite with_image_same in H. cbv zeta in H. destruct H as (Ht & _ & Hc & Hi).
    split; [exact Ht|]. split; [by exists ck|]. by split; [|split; [|split]].
Qed.

(** *** Text chunks in position order pass the media context attacher *)

Lemma positioned_of_indexed {B} (ep : B -> option Z * option Z * option Z)
    (cs : list B) (idxs : list nat) :
  Forall2 (fun d ii => ep d = (Some (Z.of_nat ii + 1), Some (Z.of_nat ii),
                               Some (Z.of_nat ii)))
    cs idxs ->
  forall k,
    omap (fun '(idx, ck) =>
            match ep ck with
            | (Some pn, Some tp, lft) => Some (idx, pn, tp, default 0 lft)
            | _ => None
            end) (imap (fun i ck => ((k + i)%nat, ck)) cs)
    = imap (fun i ii => ((k + i)%nat, Z.of_nat ii + 1, Z.of_nat ii, Z.of_nat ii)) idxs
    /\ omap (fun '(idx, ck) =>
               match ep ck with
               | (Some pn, Some tp, _) => None
               | _ => Some idx
               end) (imap (fun i ck => ((k + i)%nat, ck)) cs)
       = [].
Proof.
  induction 1 as [|d ii cs idxs Hd _ IH]; intros k; [done|].
  rewrite !imap_cons. csimpl. rewrite Hd. simpl.
  destruct (IH (S k)) as [IH1 IH2].
  rewrite (imap_ext _ (fun i ck => ((S k + i)%nat, ck)))
    by (intros i y _; simpl; f_equal; lia).
  rewrite IH1, IH2. split; [|done]. f_equal.
  apply imap_ext. intros i y _. simpl. repeat f_equal. lia.
Qed.

Lemma sorted_keys (idxs : list nat) :
  StronglySorted lt idxs ->
  forall k,
    StronglySorted key_le
      (imap (fun i ii => ((k + i)%nat, Z.of_nat ii + 1, Z.of_nat ii, Z.of_nat ii)) idxs).
Proof.
  induction 1 as [|a l Hl IH Ha]; intros k; [constructor|].
  rewrite imap_cons.
  rewrite (imap_ext _ (fun i ii => ((S k + i)%nat, Z.of_nat ii + 1, Z.of_nat ii,
                                     Z.of_nat ii)))
    by (intros i y _; simpl; repeat f_equal; lia).
  constructor; [apply IH|].
  apply Forall_forall. intros e He. apply list_elem_of_lookup in He as [i Hi].
  rewrite list_lookup_imap in Hi. destruct (l !! i) as [b|] eqn:Eb; [|done].
  simpl in Hi. injection Hi as <-.
  rewrite Forall_forall in Ha. specialize (Ha b (list_elem_of_lookup_2 _ _ _ Eb)).
  unfold key_le. lia.
Qed.

Lemma merge_sort_sorted (l : list (nat * Z * Z * Z)) :
  StronglySorted key_le l -> merge_sort key_le l = l.
Proof.
  intros Hl. apply (StronglySorted_unique_strong key_le).
  - intros [[[ia pa] ta] la] [[[ib pb] tb] lb] _ _ H1 H2. unfold key_le in *.
    assert (ia = ib /\ pa = pb /\ ta = tb /\ la = lb) as (-> & -> & -> & ->) by lia.
    done.
  - apply (@StronglySorted_merge_sort _ key_le _ key_le_transitive key_le_total).
  - exact Hl.
  - apply merge_sort_Permutation.
Qed.

Lemma imap_index_first (idxs : list nat) (k : nat) :
  map (fun '(idx, _, _, _) => idx)
    (imap (fun i ii => ((k + i)%nat, Z.of_nat ii + 1, Z.of_nat ii, Z.of_nat ii)) idxs)
  = List.seq k (length idxs).
Proof.
  revert k. induction idxs as [|a l IH]; intros k; [done|].
  rewrite imap_cons. simpl. rewrite Nat.add_0_r. f_equal.
  rewrite <- (IH (S k)). f_equal. apply imap_ext. intros i y _. simpl.
  repeat f_equal. lia.
Qed.

Lemma attach_step_text tcs ics ordered chunks entry :
  Forall (fun d => is_text_chunk d = true) chunks ->
  attach_step tcs ics ordered chunks entry = chunks.
Proof.
  intros Hall. destruct entry as [sorted_pos idx]. unfold MediaContext.attach_step.
  destruct (chunks !! idx) as [ck|] eqn:E; [|done].
  rewrite Forall_forall in Hall. specialize (Hall ck (list_elem_of_lookup_2 _ _ _ E)).
  unfold is_text_chunk in Hall. apply andb_true_iff in Hall as [Hi Ht].
  apply negb_true_iff in Hi, Ht. by rewrite Hi, Ht.
Qed.

Lemma attach_fold_text tcs ics ordered entries chunks :
  Forall (fun d => is_text_chunk d = true) chunks ->
  fold_left (attach_step tcs ics ordered) entries chunks = chunks.
Proof.
  intros Hall. induction entries as [|e entries IH]; [done|].
  rewrite fold_left_cons, attach_step_text by done. exact IH.
Qed.

Lemma attach_text_only chunks idxs tcs ics :
  Forall2 (fun d ii => is_text_chunk d = true
                       /\ extract_position d
                          = (Some (Z.of_nat ii + 1), Some (Z.of_nat ii),
                             Some (Z.of_nat ii)))
    chunks idxs ->
  StronglySorted lt idxs ->
  attach_media_context chunks tcs ics = chunks.
Proof.
  intros Hall Hsorted. unfold MediaContext.attach_media_context.
  destruct (bool_decide (chunks = []) || _) eqn:E; [done|].
  apply orb_false_iff in E as [Hne%bool_decide_eq_false _].
  assert (Htext : Forall (fun d => is_text_chunk d = true) chunks).
  { clear -Hall. induction Hall as [|d ii cs iis [Hd _] _ IH]; constructor; done. }
  assert (Hpos : Forall2 (fun d ii => extract_position d
                    = (Some (Z.of_nat ii + 1), Some (Z.of_nat ii), Some (Z.of_nat ii)))
                   chunks idxs).
  { eapply Forall2_impl; [exact Hall|]. by intros d ii [_ ?]. }
  assert (Hord : ordered_indices chunks = (List.seq 0 (length chunks), true)).
  { unfold ordered_indices.
    destruct (positioned_of_indexed extract_position chunks idxs Hpos 0) as [HP HU].
    cbn [Nat.add] in HP, HU. rewrite HP, HU.
    pose proof (sorted_keys idxs Hsorted 0) as Hs. cbn [Nat.add] in Hs.
    pose proof (imap_index_first idxs 0) as Hf. cbn [Nat.add] in Hf.
    apply Forall2_length in Hall as Hlen.
    destruct (imap _ idxs) as [|e es] eqn:Ei.
    { exfalso. apply Hne. destruct idxs; [|done]. by destruct chunks. }
    rewrite merge_sort_sorted by done. by rewrite Hf, app_nil_r, Hlen. }
  rewrite Hord. rewrite attach_fold_text by done.
  exact (omap_lookup_seq [] chunks).
Qed.

(** X26. The chunks [tokenize_chunks] makes from a document that is
    neither an image nor a table pass [attach_media_context] unchanged and
    in their order, whatever the context sizes: they are text chunks, and
    the positions made from the indices of the texts already are in
    position order. *)
Theorem tokenize_chunks_pass_through chunks doc tcs ics :
  plain_doc doc ->
  attach_media_context (tokenize_chunks chunks doc) tcs ics
  = tokenize_chunks chunks doc.
Proof.
  intros Hdoc. destruct (tokenize_chunks_indexed chunks doc) as (idxs & Hall & Hsorted & _).
  apply (attach_text_only _ idxs); [|done].
  eapply Forall2_impl; [exact Hall|]. intros d ii (ck & Hck & Hne & ->).
  pose proof (text_chunk_indexed doc ii ck (image doc) Hdoc Hne) as H.
  rewrite with_image_same in H. cbv zeta in H. by destruct H as (Ht & Hp & _).
Qed.

Lemma with_images_from doc : forall chunks images k,
  map (fun d => with_image d (image doc))
    (omap (fun '(ii, (ck, image_of)) =>
             if bool_decide (strip ck = []) then None
             else Some (tokenize (index_position (with_image doc image_of) ii) ck))
       (imap (fun i x => ((k + i)%nat, x)) (zip chunks images)))
  = omap (fun '(ii, ck) =>
            if bool_decide (strip ck = []) then None
            else Some (tokenize (index_position doc ii) ck))
      (imap (fun i ck => ((k + i)%nat, ck)) (take (length images) chunks)).
Proof.
  induction chunks as [|ck chunks IH]; intros images k.
  - by rewrite take_nil.
  - destruct images as [|image_of images]; [done|].
    simpl zip. simpl take. rewrite !imap_cons.
    rewrite (imap_ext _ (fun i x => ((S k + i)%nat, x)) (zip chunks images))
      by (intros i y _; simpl; f_equal; lia).
    rewrite (imap_ext _ (fun i x => ((S k + i)%nat, x)) (take (length images) chunks))
      by (intros i y _; simpl; f_equal; lia).
    pose proof (IH images (S k)) as IH'.
    set (tail_l := imap _ (zip chunks images)) in *.
    set (tail_r := imap _ (take (length images) chunks)) in *.
    csimpl. destruct (bool_decide (strip ck = [])); [exact IH'|].
    simpl. by rewrite IH'.
Qed.

(** X27. [tokenize_chunks_with_images], called without child delimiters
    on a document that is neither an image nor a table.  The texts and the
    images are paired by [zip]: a text beyond the last image gives no chunk,
    and apart from the image the chunks are those [tokenize_chunks] makes
    from the texts that have an image.  Every chunk carries the image that
    stands at the index of its text and the page made from that index; it
    is a text chunk in spite of its image, so [attach_media_context] returns
    the list as it is. *)
Theorem tokenize_chunks_with_images_zip chunks doc images tcs ics :
  plain_doc doc ->
  let res := tokenize_chunks_with_images chunks doc images in
  map (fun d => with_image d (image doc)) res
  = tokenize_chunks (take (length images) chunks) doc
  /\ Forall (fun d =>
               is_text_chunk d = true
               /\ exists ii ck,
                    chunks !! ii = Some ck
                    /\ images !! ii = Some (image d)
                    /\ content_with_weight d = Str ck
                    /\ page_num_int d = [Z.of_nat ii + 1])
       res
  /\ attach_media_context res tcs ics = res.
Proof.
  intros Hdoc res.
  destruct (omap_imap_indices
              (fun ii '(ck, image_of) =>
                 if bool_decide (strip ck = []) then None
                 else Some (tokenize (index_position (with_image doc image_of) ii) ck))
              (zip chunks images) 0) as (idxs & Hall & Hsorted & _).
  assert (Hall' : Forall2 (fun d ii =>
                    exists ck image_of,
                      chunks !! ii = Some ck /\ images !! ii = Some image_of
                      /\ strip ck <> []
                      /\ d = tokenize (index_position (with_image doc image_of) ii) ck)
                    res idxs).
  { eapply Forall2_impl; [exact Hall|]. intros d ii ([ck image_of] & Hx & _ & Hf).
    rewrite Nat.sub_0_r in Hx. apply lookup_zip_Some in Hx as [Hck Himg].
    exists ck, image_of. split; [done|]. split; [done|].
    destruct (bool_decide (strip ck = [])) eqn:E; [done|].
    apply bool_decide_eq_false in E. split; [done|]. by injection Hf as <-. }
  split; [exact (with_images_from doc chunks images 0)|]. split.
  - apply Forall_forall. intros d Hd. apply list_elem_of_lookup in Hd as [k Hk].
    destruct (Forall2_lookup_l _ _ _ _ _ Hall' Hk)
      as (ii & _ & ck & image_of & Hck & Himg & Hne & ->).
    destruct (text_chunk_indexed doc ii ck image_of Hdoc Hne) as (Ht & _ & Hc & Hi).
    split; [exact Ht|]. exists ii, ck. split; [done|]. split; [by rewrite Hi|].
    by split.
  - apply (attach_text_only _ idxs); [|done].
    eapply Forall2_impl; [exact Hall'|].
    intros d ii (ck & image_of & _ & _ & Hne & ->).
    by destruct (text_chunk_indexed doc ii ck image_of Hdoc Hne) as (Ht & Hp & _).
Qed.

(** *** The text given to the tokenizer *)

Lemma fullmatch_Void s : fullmatch Void s = false.
Proof. induction s as [|c s IH]; [done|exact IH]. Qed.

Lemma tag_at_other c s : c <> 60%N -> tag_at (c :: s) = None.
Proof.
  intros Hc. unfold tag_at.
  assert (Hd : forall t, fullmatch table_tag (c :: t) = false).
  { intros t. change (fullmatch table_tag (c :: t))
      with (fullmatch (cat (if cls_accepts false [(60, 60)%N] c then Eps else Void)
                         (Regex.seq [opt (lit (u "/"));
                               any_of (map (fun w => lit (u w))
                                         ["table"; "td"; "caption"; "tr"; "th"]%string);
                               opt (Cat (lit (u " "))
                                      (upto 12 (Cls true (singles (u "<>")))));
                               lit (u ">")])) t).
    assert (cls_accepts false [(60, 60)%N] c = false) as ->.
    { unfold cls_accepts, in_ranges. simpl.
      destruct (60 <=? c)%N eqn:E1, (c <=? 60)%N eqn:E2; try done.
      apply N.leb_le in E1, E2. lia. }
    apply fullmatch_Void. }
  destruct (index_gt (c :: s)) as [[|n]|]; [done| |done].
  cbn [mbind option_bind]. change (take (S n) (c :: s)) with (c :: take n s).
  by rewrite Hd.
Qed.

Lemma blank_tags_plain a b : 60%N ∉ a -> blank_tags 0 (a ++ b) = a ++ blank_tags 0 b.
Proof.
  induction a as [|c a IH]; intros Ha; [done|].
  apply not_elem_of_cons in Ha as [Hc Ha].
  change (blank_tags 0 ((c :: a) ++ b))
    with (match tag_at (c :: a ++ b) with
          | Some n => SP :: blank_tags (n - 1) (a ++ b)
          | None => c :: blank_tags 0 (a ++ b)
          end).
  rewrite tag_at_other by done. simpl. by rewrite IH.
Qed.

Lemma index_gt_app a b n : index_gt a = Some n -> index_gt (a ++ b) = Some n.
Proof.
  revert n. induction a as [|c a IH]; intros n; [done|]. simpl.
  destruct (c =? 62)%N; [done|].
  destruct (index_gt a) as [m|]; [|done]. by rewrite (IH m).
Qed.

Lemma blank_tags_skip a s : blank_tags (length a) (a ++ s) = blank_tags 0 s.
Proof. induction a as [|c a IH]; [done|exact IH]. Qed.

Lemma blank_tag_at tag rest :
  fullmatch table_tag tag = true -> index_gt tag = Some (length tag) ->
  blank_tags 0 (tag ++ rest) = SP :: blank_tags 0 rest.
Proof.
  intros Hm Hi. destruct tag as [|c t]; [done|].
  change (blank_tags 0 ((c :: t) ++ rest))
    with (match tag_at ((c :: t) ++ rest) with
          | Some n => SP :: blank_tags (n - 1) (t ++ rest)
          | None => c :: blank_tags 0 (t ++ rest)
          end).
  unfold tag_at. rewrite (index_gt_app _ rest _ Hi). cbn [mbind option_bind].
  rewrite take_app_length, Hm. f_equal.
  replace (length (c :: t) - 1)%nat with (length t) by (simpl; lia).
  apply blank_tags_skip.
Qed.

(** X28. [tokenize] keeps the text as it is under [content_with_weight]
    and gives the tokenizer the text in which a table tag is one space: in
    a text that starts with a part free of [<], followed by a text the tag
    pattern matches as a whole up to its first [>], the first part reaches
    the tokenizer unchanged, the tag is replaced by one space, and the
    replacement goes on after the tag.  The fine-grained tokens are made
    from the tokens, not from the text. *)
Theorem tokenize_blanks_tags d plain tag rest :
  60%N ∉ plain ->
  fullmatch table_tag tag = true ->
  index_gt tag = Some (length tag) ->
  let txt := plain ++ tag ++ rest in
  content_with_weight (tokenize d txt) = Str txt
  /\ content_ltks (tokenize d txt)
     = Some (rag_tokenize (plain ++ [SP] ++ blank_tags 0 rest))
  /\ content_sm_ltks (tokenize d txt)
     = fine_grained_tokenize <$> content_ltks (tokenize d txt)
  /\ content_ltks (tokenize d plain) = Some (rag_tokenize plain).
Proof.
  intros Hp Hm Hi txt. split; [done|]. split; [|split; [done|]].
  - unfold TokenizeChunks.tokenize. simpl. unfold txt.
    by rewrite blank_tags_plain, blank_tag_at.
  - unfold TokenizeChunks.tokenize. simpl.
    pose proof (blank_tags_plain plain [] Hp) as E. rewrite !app_nil_r in E.
    by rewrite E.
Qed.

End TokenizeChunksFacts.

Section TokenizeChunksExamples.
Import PyStr MediaContext TokenizeChunks.

Lemma tokenize_chunks_text_witness :
  let doc := text_only (u "doc") in
  let chunks := [u "one"; u "  "; u "two"] in
  plain_doc doc
  /\ exists idxs,
       StronglySorted lt idxs
       /\ (forall ii, ii ∈ idxs <-> exists ck, chunks !! ii = Some ck /\ strip ck <> [])
       /\ Forall2 (fun d ii =>
                     let i := Z.of_nat ii in
                     is_text_chunk d = true
                     /\ (exists ck, chunks !! ii = Some ck /\ content_with_weight d = Str ck)
                     /\ page_num_int d = [i + 1]
                     /\ top_int d = [i]
                     /\ position_int d = [(i + 1, i, i, i, i)]
                     /\ image d = image doc)
            (tokenize_chunks id id chunks doc) idxs.
Proof.
  intros doc chunks.
  assert (H : plain_doc doc) by (split; discriminate).
  split; [exact H|].
  exact (tokenize_chunks_text id id chunks doc H).
Defined.

Lemma tokenize_chunks_pass_through_witness :
  let doc := text_only (u "doc") in
  let chunks := [u "one"; u "  "; u "two"] in
  plain_doc doc
  /\ attach_media_context one_token_per_sentence id id
       (tokenize_chunks id id chunks doc) 5 5
     = tokenize_chunks id id chunks doc.
Proof.
  intros doc chunks.
  assert (H : plain_doc doc) by (split; discriminate).
  split; [exact H|].
  exact (tokenize_chunks_pass_through one_token_per_sentence id id chunks doc 5 5 H).
Defined.

Lemma tokenize_chunks_with_images_zip_witness :
  let doc := text_only (u "doc") in
  let chunks := [u "one"; u "  "; u "two"; u "three"] in
  let images := [None; None; Some (ConcatImg.image_new 0 1 1)] in
  let res := tokenize_chunks_with_images id id chunks doc images in
  plain_doc doc
  /\ map (fun d => with_image d (image doc)) res
     = tokenize_chunks id id (take (length images) chunks) doc
  /\ Forall (fun d =>
               is_text_chunk d = true
               /\ exists ii ck,
                    chunks !! ii = Some ck
                    /\ images !! ii = Some (image d)
                    /\ content_with_weight d = Str ck
                    /\ page_num_int d = [Z.of_nat ii + 1])
       res
  /\ attach_media_context one_token_per_sentence id id res 5 5 = res.
Proof.
  intros doc chunks images res.
  assert (H : plain_doc doc) by (split; discriminate).
  split; [exact H|].
  exact (tokenize_chunks_with_images_zip one_token_per_sentence id id chunks doc
           images 5 5 H).
Defined.

Lemma tokenize_blanks_tags_witness :
  let d := text_only (u "doc") in
  let plain := u "a" in
  let tag := u "<td colspan=2>" in
  let rest := u "b</td>" in
  let txt := plain ++ tag ++ rest in
  ((60%N ∉ plain) /\ Regex.fullmatch table_tag tag = true
   /\ index_gt tag = Some (length tag))
  /\ content_with_weight (tokenize id id d txt) = Str txt
  /\ content_ltks (tokenize id id d txt) = Some (id (plain ++ [SP] ++ blank_tags 0 rest))
  /\ content_sm_ltks (tokenize id id d txt) = id <$> content_ltks (tokenize id id d txt)
  /\ content_ltks (tokenize id id d plain) = Some (id plain).
Proof.
  intros d plain tag rest txt.
  assert (H1 : 60%N ∉ plain) by (apply (bool_decide_unpack _); vm_compute; exact I).
  assert (H2 : Regex.fullmatch table_tag tag = true) by (vm_compute; reflexivity).
  assert (H3 : index_gt tag = Some (length tag)) by (vm_compute; reflexivity).
  split; [by split|].
  exact (tokenize_blanks_tags id id d plain tag rest H1 H2 H3).
Defined.

End TokenizeChunksExamples.

(** ** The English test counts single characters *)

Section LanguageGuessFacts.
Import PyStr Regex LanguageGuess.

Lemma strip_single c : strip [c] = if is_space c then [] else [c].
Proof.
  unfold strip, strip_by, rstrip_by. simpl.
  destruct (is_space c) eqn:E; simpl; [done|]. by rewrite E.
Qed.

Lemma english_count_chars s :
  length (List.filter (fun t => english_text (strip t)) (map (fun c => [c]) s))
  = length (List.filter (fun c => english_char c && negb (is_space c)) s).
Proof.
  induction s as [|c s IH]; [done|].
  cbn [map List.filter]. rewrite strip_single.
  destruct (is_space c) eqn:E.
  - rewrite andb_false_r. exact IH.
  - rewrite andb_true_r. cbn [english_text].
    destruct (english_char c); simpl; by rewrite IH.
Qed.

(** X29. [is_english] judges single characters.  For a list of texts a
    text counts as English only when, trimmed, it is exactly one character
    of the class, so a list none of whose texts is one character long is
    never English, whatever its words.  For a text the characters are
    judged one by one and a white-space character counts against English:
    the answer is whether more than four fifths of all characters are
    characters of the class that are not white space. *)
Theorem is_english_single_characters :
  (forall l : list (option pystr),
     (forall t, Some t ∈ l -> length (strip t) <> 1%nat) ->
     is_english (TextList l) = false)
  /\ (forall s : pystr,
        is_english (OneText s)
        = (4 * Z.of_nat (length s)
           <? 5 * Z.of_nat (length (List.filter
                                      (fun c => english_char c && negb (is_space c)) s)))).
Proof.
  split.
  - intros l Hl. unfold is_english.
    destruct (bool_decide (l = [])); [done|].
    set (texts := omap _ l).
    destruct (bool_decide (texts = [])); [done|].
    unfold mostly_english.
    assert (List.filter (fun t => english_text (strip t)) texts = []) as ->.
    { assert (Hall : forall t, t ∈ texts -> english_text (strip t) = false).
      { intros t Ht. apply list_elem_of_omap in Ht as ([t'|] & Hin & Ht'); [|done].
        destruct (bool_decide (strip t' = [])); [done|]. injection Ht' as ->.
        specialize (Hl t Hin). by destruct (strip t) as [|c [|c' r]]. }
      clear -Hall. induction texts as [|t texts IH]; [done|]. simpl.
      rewrite (Hall t) by apply list_elem_of_here. apply IH.
      intros t' Ht'. by apply Hall, list_elem_of_further. }
    simpl. apply Z.ltb_ge. lia.
  - intros s. unfold is_english.
    destruct (bool_decide (s = [])) eqn:E.
    + apply bool_decide_eq_true in E as ->. done.
    + unfold mostly_english. by rewrite length_map, english_count_chars.
Qed.

End LanguageGuessFacts.

Section LanguageGuessExamples.
Import PyStr LanguageGuess.

Lemma is_english_single_characters_witness :
  is_english (TextList [Some (u "hello"); None; Some (u "world")]) = false.
Proof.
  assert (H : forall t, Some t ∈ [Some (u "hello"); None; Some (u "world")] ->
                        length (strip t) <> 1%nat).
  { intros t Ht. apply elem_of_cons in Ht as [Ht|Ht]; [by injection Ht as ->|].
    apply elem_of_cons in Ht as [Ht|Ht]; [done|].
    apply list_elem_of_singleton in Ht. by injection Ht as ->. }
  exact (proj1 is_english_single_characters _ H).
Defined.

End LanguageGuessExamples.

(** ** The most frequent title level *)

Section TitleFrequencyFacts.
Import PyStr Regex Patterns TitleFrequency.

Lemma distinct_elem l : forall seen x,
  x ∈ distinct seen l <-> x ∈ l /\ x ∉ seen.
Proof.
  induction l as [|y l IH]; intros seen x; simpl.
  - split; [by intros ?%not_elem_of_nil|by intros [?%not_elem_of_nil _]].
  - destruct (bool_decide (y ∈ seen)) eqn:E.
    + apply bool_decide_eq_true in E. rewrite IH, elem_of_cons. split.
      * intros [? ?]. split; [by right|done].
      * intros [[->|?] ?]; [done|by split].
    + apply bool_decide_eq_false in E. rewrite !elem_of_cons, IH, elem_of_cons. split.
      * intros [->|[? Hn]]; [split; [by left|done]|].
        split; [by right|]. intros ?. apply Hn. by right.
      * intros [[->|?] Hn]; [by left|].
        destruct (decide (x = y)) as [->|Hne]; [by left|right].
        split; [done|]. by intros [?|?].
Qed.

Lemma counter_elem levels x c :
  (x, c) ∈ counter levels <-> x ∈ levels /\ c = occurrences x levels.
Proof.
  unfold counter. rewrite list_elem_of_fmap. split.
  - intros (y & [= -> ->] & Hy). apply distinct_elem in Hy as [Hy _]. by split.
  - intros [Hx ->]. exists x. split; [done|]. apply distinct_elem. split; [done|].
    apply not_elem_of_nil.
Qed.

Lemma insert_by_count_elem x l y :
  y ∈ insert_by_count x l <-> y = x \/ y ∈ l.
Proof.
  induction l as [|z l IH]; simpl.
  - rewrite list_elem_of_singleton. split; [by left|].
    by intros [?|?%not_elem_of_nil].
  - destruct (snd z <=? snd x)%nat.
    + by rewrite !elem_of_cons.
    + rewrite !elem_of_cons, IH. tauto.
Qed.

Lemma insert_by_count_sorted x l :
  StronglySorted by_count l -> StronglySorted by_count (insert_by_count x l).
Proof.
  induction 1 as [|z l Hl IH Hz]; simpl.
  - repeat constructor.
  - destruct (snd z <=? snd x)%nat eqn:E.
    + apply Nat.leb_le in E. constructor; [by constructor|].
      constructor; [exact E|]. eapply Forall_impl; [exact Hz|].
      intros y Hy. unfold by_count in *. lia.
    + apply Nat.leb_gt in E. constructor; [exact IH|].
      apply Forall_forall. intros y [->|Hy]%insert_by_count_elem.
      * unfold by_count. lia.
      * rewrite Forall_forall in Hz. by apply Hz.
Qed.

Lemma sorted_by_count_sorted items : StronglySorted by_count (sorted_by_count items).
Proof.
  induction items as [|x items IH]; [constructor|].
  by apply insert_by_count_sorted.
Qed.

Lemma find_insert_by_count (P : Z * nat -> bool) x l :
  StronglySorted by_count l ->
  List.find P (insert_by_count x l)
  = if P x
    then match List.find P l with
         | Some y => if (snd y <=? snd x)%nat then Some x else Some y
         | None => Some x
         end
    else List.find P l.
Proof.
  induction 1 as [|z l Hl IH Hz]; simpl.
  - by destruct (P x).
  - destruct (snd z <=? snd x)%nat eqn:E.
    + simpl. destruct (P x) eqn:Ex; [|done].
      destruct (P z) eqn:Ez; [by rewrite E|].
      destruct (List.find P l) as [y|] eqn:Ey; [|done].
      apply find_some in Ey as [Hy _]. apply list_elem_of_In in Hy.
      rewrite Forall_forall in Hz. specialize (Hz y Hy). unfold by_count in Hz.
      apply Nat.leb_le in E.
      by assert ((snd y <=? snd x)%nat = true) as -> by (apply Nat.leb_le; lia).
    + simpl. destruct (P z) eqn:Ez.
      * destruct (P x); [by rewrite E|done].
      * exact IH.
Qed.

(** The first item of the sorted items that satisfies a test has the
    greatest count of the items that satisfy it. *)
Lemma find_sorted_by_count (P : Z * nat -> bool) items :
  match List.find P (sorted_by_count items) with
  | Some m => m ∈ items /\ P m = true
              /\ forall y, y ∈ items -> P y = true -> (snd y <= snd m)%nat
  | None => forall y, y ∈ items -> P y = false
  end.
Proof.
  induction items as [|x items IH].
  - simpl. by intros y ?%not_elem_of_nil.
  - change (sorted_by_count (x :: items))
      with (insert_by_count x (sorted_by_count items)).
    rewrite find_insert_by_count by apply sorted_by_count_sorted.
    destruct (List.find P (sorted_by_count items)) as [m|].
    + destruct IH as (Hm & HPm & Hmax).
      destruct (P x) eqn:Ex.
      * destruct (snd m <=? snd x)%nat eqn:E.
        -- apply Nat.leb_le in E. split; [apply list_elem_of_here|]. split; [done|].
           intros y [->|Hy]%elem_of_cons Py; [lia|]. specialize (Hmax y Hy Py). lia.
        -- apply Nat.leb_gt in E. split; [by apply list_elem_of_further|]. split; [done|].
           intros y [->|Hy]%elem_of_cons Py; [lia|]. by apply Hmax.
      * split; [by apply list_elem_of_further|]. split; [done|].
        intros y [->|Hy]%elem_of_cons Py; [congruence|]. by apply Hmax.
    + destruct (P x) eqn:Ex.
      * split; [apply list_elem_of_here|]. split; [done|].
        intros y [->|Hy]%elem_of_cons Py; [lia|]. rewrite (IH y Hy) in Py. done.
      * intros y [->|Hy]%elem_of_cons; [done|]. by apply IH.
Qed.

Lemma title_level_range pats section :
  0 <= title_level pats section <= Z.of_nat (length pats) + 1.
Proof.
  destruct section as [txt layout]. unfold title_level.
  destruct (if not_bullet txt then None else _) as [j|] eqn:E.
  - destruct (not_bullet txt); [done|].
    apply first_match_range in E. lia.
  - destruct (_ && _); lia.
Qed.

(** X30. [title_frequency] on a non-empty list of sections and a style
    index from 0: the levels are those of the sections, one by one, and the
    level returned with them is a most frequent one among the title levels,
    the levels up to the number of patterns of the style; when no section
    has a title level it is that number plus one.  The style is looked up
    before anything else: an index beyond the styles raises [IndexError]
    even for an empty list, and a negative index from -1 to minus the number
    of styles counts from the end and gives every section the level after
    the last. *)
Theorem title_frequency_most_frequent bull sections :
  (0 <= bull < Z.of_nat (length BULLET_PATTERN) -> sections <> [] ->
   exists pats m,
     BULLET_PATTERN !! Z.to_nat bull = Some pats
     /\ title_frequency bull sections = Ok (m, map (title_level pats) sections)
     /\ let levels := map (title_level pats) sections in
        let bullets_size := Z.of_nat (length pats) in
        (m = bullets_size + 1 /\ Forall (fun l => l = bullets_size + 1) levels)
        \/ (m ∈ levels /\ m <= bullets_size
            /\ forall l, l ∈ levels -> l <= bullets_size ->
                         (occurrences l levels <= occurrences m levels)%nat))
  /\ (bull < - Z.of_nat (length BULLET_PATTERN) \/ Z.of_nat (length BULLET_PATTERN) <= bull ->
      title_frequency bull sections = Raise IndexError)
  /\ (- Z.of_nat (length BULLET_PATTERN) <= bull < 0 ->
      exists pats,
        BULLET_PATTERN !! Z.to_nat (bull + Z.of_nat (length BULLET_PATTERN)) = Some pats
        /\ title_frequency bull sections
           = Ok (Z.of_nat (length pats) + 1,
                 replicate (length sections) (Z.of_nat (length pats) + 1))).
Proof.
  split; [|split].
  - intros Hb Hs.
    destruct (lookup_lt_is_Some_2 BULLET_PATTERN (Z.to_nat bull) ltac:(lia)) as [pats Hp].
    exists pats. eexists. split; [done|].
    unfold title_frequency.
    assert (Hget : PyList.get BULLET_PATTERN bull = Ok pats).
    { rewrite <- (Z2Nat.id bull) by lia. by apply get_nat. }
    rewrite Hget. simpl.
    rewrite bool_decide_eq_false_2 by done.
    assert ((bull <? 0) = false) as -> by (apply Z.ltb_ge; lia).
    simpl. split; [done|].
    set (levels := map (title_level pats) sections).
    set (size := Z.of_nat (length pats)).
    unfold most_level.
    pose proof (find_sorted_by_count (fun item => fst item <=? size) (counter levels))
      as Hfind.
    destruct (List.find _ (sorted_by_count (counter levels))) as [[m c]|].
    + right. destruct Hfind as (Hm & HP & Hmax). simpl in HP. apply Z.leb_le in HP.
      apply counter_elem in Hm as [Hm ->]. simpl. split; [done|]. split; [done|].
      intros l Hl Hle.
      apply (Hmax (l, occurrences l levels)); [by apply counter_elem|].
      simpl. by apply Z.leb_le.
    + left. split; [done|]. apply Forall_forall. intros l Hl.
      assert (Hgt : (l <=? size) = false).
      { apply (Hfind (l, occurrences l levels)). by apply counter_elem. }
      apply Z.leb_gt in Hgt.
      apply list_elem_of_fmap in Hl as (section & -> & _).
      pose proof (title_level_range pats section). unfold size in *. lia.
  - intros Hb. unfold title_frequency. by rewrite get_out_of_range.
  - intros Hb.
    destruct (lookup_lt_is_Some_2 BULLET_PATTERN
                (Z.to_nat (bull + Z.of_nat (length BULLET_PATTERN))) ltac:(lia))
      as [pats Hp].
    exists pats. split; [done|]. unfold title_frequency.
    assert (Hget : PyList.get BULLET_PATTERN bull = Ok pats).
    { unfold PyList.get. cbv zeta.
      assert ((bull <? 0) = true) as E1 by (apply Z.ltb_lt; lia).
      rewrite E1. cbv iota.
      assert ((bull + Z.of_nat (length BULLET_PATTERN) <? 0) = false) as ->
        by (apply Z.ltb_ge; lia).
      assert ((Z.of_nat (length BULLET_PATTERN)
               <=? bull + Z.of_nat (length BULLET_PATTERN)) = false) as ->
        by (apply Z.leb_gt; lia).
      simpl orb. cbv iota. by rewrite Hp. }
    rewrite Hget. simpl.
    assert ((bull <? 0) = true) as -> by (apply Z.ltb_lt; lia).
    by rewrite orb_true_r.
Qed.

End TitleFrequencyFacts.

Section TitleFrequencyExamples.
Import PyStr Patterns TitleFrequency.

Lemma title_frequency_most_frequent_witness :
  let sections := [(u "# A", []); (u "## B", []); (u "## C", []); (u "text", [])] in
  (0 <= 4 < Z.of_nat (length BULLET_PATTERN) /\ sections <> [])
  /\ exists pats m,
       BULLET_PATTERN !! Z.to_nat 4 = Some pats
       /\ title_frequency 4 sections = Ok (m, map (title_level pats) sections)
       /\ let levels := map (title_level pats) sections in
          let bullets_size := Z.of_nat (length pats) in
          (m = bullets_size + 1 /\ Forall (fun l => l = bullets_size + 1) levels)
          \/ (m ∈ levels /\ m <= bullets_size
              /\ forall l, l ∈ levels -> l <= bullets_size ->
                           (occurrences l levels <= occurrences m levels)%nat).
Proof.
  intros sections.
  assert (H1 : 0 <= 4 < Z.of_nat (length BULLET_PATTERN)) by (simpl; lia).
  assert (H2 : sections <> []) by discriminate.
  split; [by split|].
  exact (proj1 (title_frequency_most_frequent 4 sections) H1 H2).
Defined.

End TitleFrequencyExamples.
